(** * An unrolled doubly linked list: model of [lib/unrolled_list.h]

    The container [unrolled_list<T, NodeMaxSize, Allocator>] keeps a chain of
    heap nodes; every node stores up to [NodeMaxSize] elements in raw slots
    [storage] of which the first [count] are meant to be live.  The model
    below follows the header function by function:

    - the node heap is a finite map from addresses to [Node] records, so that
      aliasing, dangling pointers and freed nodes are visible;
    - [size_type] values are integers in [0, 2^64) with the wrap-around written
      where the header subtracts or increments;
    - every member function is a computation in a small state-and-exception
      monad [M]: it returns normally ([Ret]), propagates a C++ exception
      ([Throw]) or has no defined behaviour ([Undef]: null or dangling
      dereference, read of a slot that holds no object, out-of-range slot);
    - whether a copy construction of [T] throws is driven by a schedule of
      booleans carried in the state, one entry per construction; the node
      allocator always returns a block that is not in use. *)

From stdpp Require Import gmap list.
From Stdlib Require Import ZArith Lia.

Local Open Scope Z_scope.

(** Addresses of heap nodes. *)
Abbreviation ptr := positive.

(** [std::size_t] arithmetic (64 bit). *)
Definition size_modulus : Z := 2 ^ 64.
Definition wrap (z : Z) : Z := z mod size_modulus.

Section UnrolledList.

Context {T : Type}.

(** The template parameter [NodeMaxSize]. *)
Variable NodeMaxSize : Z.

(** [T]'s [operator!=], used by the container's [operator==]. *)
Variable T_ne : T → T → bool.

(** ** Data *)

(** [struct Node]: the slots of [storage] are [None] where no object lives. *)
Record Node := mkNode {
  prev : option ptr;
  next : option ptr;
  count : Z;
  storage : list (option T)
}.

(** The private members [head_], [tail_], [size_], together with the node
    heap they point into and the schedule of copy-construction outcomes
    ([true]: that construction throws; an exhausted schedule never throws). *)
Record state := mkState {
  head_ : option ptr;
  tail_ : option ptr;
  size_ : Z;
  mem : gmap ptr Node;
  faults : list bool
}.

(** [iterator] and [const_iterator] have the same members and the same code. *)
Record iter := mkIter {
  node_ : option ptr;
  index_ : Z
}.

Inductive outcome (A : Type) : Type :=
| Ret (a : A) (s : state)
| Throw (s : state)
| Undef.
Arguments Ret {A} a s.
Arguments Throw {A} s.
Arguments Undef {A}.

Definition M (A : Type) : Type := state → outcome A.

#[local] Instance M_ret : MRet M := λ A a s, Ret a s.
#[local] Instance M_bind : MBind M := λ A B f m s,
  match m s with
  | Ret a s' => f a s'
  | Throw s' => Throw s'
  | Undef => Undef
  end.

(** [try { body } catch (...) { handler }]. *)
Definition try_catch {A} (body handler : M A) : M A := λ s,
  match body s with
  | Throw s' => handler s'
  | r => r
  end.

(** [throw;] inside a handler. *)
Definition rethrow {A} : M A := λ s, Throw s.

Definition undef {A} : M A := λ _, Undef.

(** ** Member access *)

Definition get_head : M (option ptr) := λ s, Ret (head_ s) s.
Definition get_tail : M (option ptr) := λ s, Ret (tail_ s) s.
Definition get_size : M Z := λ s, Ret (size_ s) s.

Definition set_head (p : option ptr) : M unit := λ s,
  Ret tt (mkState p (tail_ s) (size_ s) (mem s) (faults s)).
Definition set_tail (p : option ptr) : M unit := λ s,
  Ret tt (mkState (head_ s) p (size_ s) (mem s) (faults s)).
Definition set_size (n : Z) : M unit := λ s,
  Ret tt (mkState (head_ s) (tail_ s) n (mem s) (faults s)).

(** [++size_] and [--size_]. *)
Definition inc_size : M unit := n ← get_size; set_size (wrap (n + 1)).
Definition dec_size : M unit := n ← get_size; set_size (wrap (n - 1)).

(** Dereferencing a node pointer: [p->...]. *)
Definition deref_ptr (o : option ptr) : M ptr :=
  match o with
  | Some p => mret p
  | None => undef
  end.

Definition load (p : ptr) : M Node := λ s,
  match mem s !! p with
  | Some nd => Ret nd s
  | None => Undef
  end.

Definition store (p : ptr) (nd : Node) : M unit := λ s,
  match mem s !! p with
  | Some _ => Ret tt (mkState (head_ s) (tail_ s) (size_ s) (<[p := nd]> (mem s)) (faults s))
  | None => Undef
  end.

Definition set_prev (p : ptr) (q : option ptr) : M unit :=
  nd ← load p; store p (mkNode q (next nd) (count nd) (storage nd)).
Definition set_next (p : ptr) (q : option ptr) : M unit :=
  nd ← load p; store p (mkNode (prev nd) q (count nd) (storage nd)).
Definition set_count (p : ptr) (c : Z) : M unit :=
  nd ← load p; store p (mkNode (prev nd) (next nd) c (storage nd)).
(** [p->count++] and [p->count--]. *)
Definition inc_count (p : ptr) : M unit :=
  nd ← load p; set_count p (wrap (count nd + 1)).
Definition dec_count (p : ptr) : M unit :=
  nd ← load p; set_count p (wrap (count nd - 1)).

(** ** Slots: [elem_ptr], construction and destruction *)

(** The object behind [elem_ptr(i)], if the slot is inside the array and
    holds one. *)
Definition slot (nd : Node) (i : Z) : option T :=
  if decide (0 ≤ i < NodeMaxSize) then mjoin (storage nd !! Z.to_nat i) else None.

Definition put_slot (p : ptr) (i : Z) (x : option T) : M unit :=
  nd ← load p;
  if decide (0 ≤ i < NodeMaxSize ∧ (Z.to_nat i < length (storage nd))%nat)
  then store p (mkNode (prev nd) (next nd) (count nd) (<[Z.to_nat i := x]> (storage nd)))
  else undef.

(** [*p->elem_ptr(i)] read as a value. *)
Definition read_slot (p : ptr) (i : Z) : M T :=
  nd ← load p;
  match slot nd i with
  | Some x => mret x
  | None => undef
  end.

(** The next entry of the schedule: does this copy construction throw? *)
Definition copy_throws : M bool := λ s,
  match faults s with
  | [] => Ret false s
  | b :: fs => Ret b (mkState (head_ s) (tail_ s) (size_ s) (mem s) fs)
  end.

(** [data_alloc_traits::construct(data_alloc_, p->elem_ptr(i), x)] with [x]
    an lvalue: copy construction, which may throw and then leaves the slot
    as it was. *)
Definition construct (p : ptr) (i : Z) (x : T) : M unit :=
  b ← copy_throws;
  if (b : bool) then rethrow else put_slot p i (Some x).

(** The same with [std::move(x)], or placement [new (to) T(std::move(x))]:
    used only by the [noexcept] members, whose documented precondition is
    that moving does not throw.  The schedule lists copy constructions
    only; for an element type without a move constructor these
    constructions are copies as well, which are neither counted here nor
    able to throw.  What is proved through this definition is therefore
    about the resulting state, not about the number of constructions. *)
Definition construct_move (p : ptr) (i : Z) (x : T) : M unit :=
  put_slot p i (Some x).

(** [data_alloc_traits::destroy(data_alloc_, p->elem_ptr(i))] or
    [p->elem_ptr(i)->~T()]: the slot holds no object afterwards.  On a
    slot that holds none already the slot is left as it is, although the
    destructor call of the code has no defined behaviour there; a run that
    reaches such a call (the has-room handler of [push_back], the release
    of a torn node) describes the code only for an element type whose
    destructor does no harm on raw storage, and the general statements
    below either stay clear of it or name the call itself. *)
Definition destroy (p : ptr) (i : Z) : M unit := put_slot p i None.

(** ** Loops over slot indices *)

(** [for (i = lo + n; i > lo; --i) body(i)]. *)
Fixpoint for_down (body : Z → M unit) (lo : Z) (n : nat) : M unit :=
  match n with
  | O => mret tt
  | S k => body (lo + Z.of_nat (S k));; for_down body lo k
  end.

(** [for (i = lo; i < lo + n; ++i) body(i)]. *)
Fixpoint for_up (body : Z → M unit) (lo : Z) (n : nat) : M unit :=
  match n with
  | O => mret tt
  | S k => body lo;; for_up body (lo + 1) k
  end.

(** ** Node allocation *)

(** [create_node]: a fresh block whose members take their default
    initialisers; no slot holds an object. *)
Definition create_node : M ptr := λ s,
  let p := fresh (dom (mem s)) in
  Ret p (mkState (head_ s) (tail_ s) (size_ s)
           (<[p := mkNode None None 0 (replicate (Z.to_nat NodeMaxSize) None)]> (mem s))
           (faults s)).

Definition free (p : ptr) : M unit := λ s,
  match mem s !! p with
  | Some _ => Ret tt (mkState (head_ s) (tail_ s) (size_ s) (delete p (mem s)) (faults s))
  | None => Undef
  end.

Definition destroy_node (o : option ptr) : M unit :=
  match o with
  | None => mret tt
  | Some p =>
      nd ← load p;
      for_up (λ i, destroy p i) 0 (Z.to_nat (count nd));;
      free p
  end.

(** ** Iterators *)

Definition iter_eq (a b : iter) : bool :=
  bool_decide (node_ a = node_ b) && bool_decide (index_ a = index_ b).

(** [operator*]. *)
Definition iter_deref (h : gmap ptr Node) (it : iter) : option T :=
  p ← node_ it; nd ← h !! p; slot nd (index_ it).

(** [operator++]; [None] when the cursor's node is not a live node. *)
Definition iter_inc (h : gmap ptr Node) (it : iter) : option iter :=
  match node_ it with
  | None => Some it
  | Some p =>
      nd ← h !! p;
      let i := wrap (index_ it + 1) in
      if decide (count nd ≤ i) then Some (mkIter (next nd) 0)
      else Some (mkIter (Some p) i)
  end.

(** [operator--]. *)
Definition iter_dec (h : gmap ptr Node) (it : iter) : option iter :=
  match node_ it with
  | None => Some it
  | Some p =>
      if decide (index_ it = 0) then
        nd ← h !! p;
        match prev nd with
        | Some q => ndq ← h !! q; Some (mkIter (Some q) (wrap (count ndq - 1)))
        | None => Some (mkIter None (index_ it))
        end
      else Some (mkIter (Some p) (wrap (index_ it - 1)))
  end.

Definition cend : iter := mkIter None 0.
Definition cbegin (s : state) : iter :=
  match head_ s with
  | Some p => mkIter (Some p) 0
  | None => mkIter None 0
  end.

(** [front()] and [back()], read as values. *)
Definition front (s : state) : option T :=
  p ← head_ s; nd ← mem s !! p; slot nd 0.
Definition back (s : state) : option T :=
  p ← tail_ s; nd ← mem s !! p; slot nd (wrap (count nd - 1)).

Definition empty (s : state) : bool := bool_decide (size_ s = 0).
Definition size (s : state) : Z := size_ s.

(** ** push_back / push_front *)

(** The rightward shift written out four times in the header (in
    [push_front] with [idx = 0], and three times in [insert]):
    [for (i = p->count; i > idx; --i)] copy slot [i - 1] into slot [i], then
    destroy slot [i - 1]. *)
Definition shift_right (p : ptr) (idx : Z) : M unit :=
  nd ← load p;
  for_down (λ i, x ← read_slot p (i - 1); construct p i x;; destroy p (i - 1))
           idx (Z.to_nat (count nd - idx)).

Definition push_back (value : T) : M unit :=
  tl ← get_tail;
  match tl with
  | None => nd ← create_node; set_tail (Some nd);; set_head (Some nd)
  | Some _ => mret tt
  end;;
  tl ← get_tail;
  t ← deref_ptr tl;
  nd ← load t;
  if decide (count nd < NodeMaxSize) then
    let idx := count nd in
    try_catch
      (construct t idx value;; inc_count t;; inc_size)
      (destroy t idx;; rethrow)
  else
    n ← create_node;
    try_catch
      (construct n 0 value;;
       set_count n 1;;
       set_prev n (Some t);;
       set_next t (Some n);;
       set_tail (Some n);;
       inc_size)
      (destroy_node (Some n);; rethrow).

Definition push_front (value : T) : M unit :=
  hd ← get_head;
  match hd with
  | None => nd ← create_node; set_head (Some nd);; set_tail (Some nd)
  | Some _ => mret tt
  end;;
  hd ← get_head;
  h ← deref_ptr hd;
  nd ← load h;
  if decide (count nd < NodeMaxSize) then
    try_catch
      (shift_right h 0;;
       construct h 0 value;;
       inc_count h;;
       inc_size)
      (nd' ← load h;
       for_up (λ i, x ← read_slot h i; construct h (i - 1) x;; destroy h i)
              1 (Z.to_nat (count nd' - 1));;
       rethrow)
  else
    n ← create_node;
    try_catch
      (construct n 0 value;;
       set_count n 1;;
       set_next n (Some h);;
       set_prev h (Some n);;
       set_head (Some n);;
       inc_size)
      (destroy_node (Some n);; rethrow).

(** ** pop_back / pop_front *)

Definition pop_back : M unit := λ s,
  if empty s then Ret tt s else
  (tl ← get_tail;
   nd ← deref_ptr tl;
   dec_count nd;;
   n ← load nd;
   let idx := count n in
   destroy nd idx;;
   dec_size;;
   hd ← get_head;
   (if decide (count n = 0 ∧ Some nd ≠ hd) then
      set_tail (prev n);;
      t ← deref_ptr (prev n);
      set_next t None;;
      destroy_node (Some nd)
    else mret tt);;
   sz ← get_size;
   if decide (sz = 0) then
     tl' ← get_tail;
     destroy_node tl';;
     set_tail None;;
     set_head None
   else mret tt) s.

Definition pop_front : M unit := λ s,
  if empty s then Ret tt s else
  (hd ← get_head;
   nd ← deref_ptr hd;
   destroy nd 0;;
   n ← load nd;
   for_up (λ i, x ← read_slot nd i; construct_move nd (i - 1) x;; destroy nd i)
          1 (Z.to_nat (count n - 1));;
   dec_count nd;;
   dec_size;;
   n' ← load nd;
   tl ← get_tail;
   (if decide (count n' = 0 ∧ Some nd ≠ tl) then
      set_head (next n');;
      match next n' with
      | Some h => set_prev h None
      | None => mret tt
      end;;
      destroy_node (Some nd)
    else mret tt);;
   sz ← get_size;
   if decide (sz = 0) then
     hd' ← get_head;
     destroy_node hd';;
     set_tail None;;
     set_head None
   else mret tt) s.

(** ** insert *)

Definition insert (cpos : iter) (value : T) : M iter :=
  match node_ cpos with
  | None =>
      push_back value;;
      tl ← get_tail;
      t ← deref_ptr tl;
      nd ← load t;
      mret (mkIter (Some t) (wrap (count nd - 1)))
  | Some node =>
      let idx := index_ cpos in
      nd ← load node;
      (if decide (count nd < NodeMaxSize) then
         shift_right node idx;;
         construct node idx value;;
         inc_count node;;
         mret (mkIter (Some node) idx)
       else
         new_node ← create_node;
         let half := NodeMaxSize / 2 in
         for_up (λ i, x ← read_slot node i;
                      construct new_node (i - half) x;;
                      destroy node i)
                half (Z.to_nat (NodeMaxSize - half));;
         set_count new_node (wrap (NodeMaxSize - half));;
         set_count node half;;
         nd' ← load node;
         set_next new_node (next nd');;
         match next nd' with
         | Some nx => set_prev nx (Some new_node)
         | None => mret tt
         end;;
         set_prev new_node (Some node);;
         set_next node (Some new_node);;
         tl ← get_tail;
         (if decide (tl = Some node) then set_tail (Some new_node) else mret tt);;
         if decide (half < idx) then
           let new_idx := idx - half in
           shift_right new_node new_idx;;
           construct new_node new_idx value;;
           inc_count new_node;;
           mret (mkIter (Some new_node) new_idx)
         else
           shift_right node idx;;
           construct node idx value;;
           inc_count node;;
           mret (mkIter (Some node) idx))
      ≫= λ ret, inc_size;; mret ret
  end.

(** [insert(cpos, n, value)]: the loop runs [n] times with the same [cpos];
    [ret] starts as a default-constructed iterator. *)
Fixpoint insert_n_loop (cpos : iter) (n : nat) (value : T) (ret : iter) : M iter :=
  match n with
  | O => mret ret
  | S k => r ← insert cpos value; insert_n_loop cpos k value r
  end.

Definition insert_n (cpos : iter) (n : Z) (value : T) : M iter :=
  insert_n_loop cpos (Z.to_nat n) value (mkIter None 0).

(** ** erase *)

Definition erase (cpos : iter) : M iter :=
  match node_ cpos with
  | None => mret cend
  | Some nd =>
      let idx := index_ cpos in
      destroy nd idx;;
      n ← load nd;
      for_up (λ i, x ← read_slot nd i; construct_move nd (i - 1) x;; destroy nd i)
             (wrap (idx + 1)) (Z.to_nat (count n - wrap (idx + 1)));;
      dec_count nd;;
      dec_size;;
      n ← load nd;
      hd ← get_head;
      tl ← get_tail;
      if decide (count n = 0 ∧ Some nd ≠ hd ∧ Some nd ≠ tl) then
        match prev n with
        | Some pv => set_next pv (next n)
        | None => mret tt
        end;;
        match next n with
        | Some nx => set_prev nx (prev n)
        | None => mret tt
        end;;
        destroy_node (Some nd);;
        match next n with
        | Some nx => mret (mkIter (Some nx) 0)
        | None => mret cend
        end
      else if decide (count n = 0 ∧ Some nd = hd) then
        set_head (next n);;
        match next n with
        | Some h => set_prev h None
        | None => mret tt
        end;;
        destroy_node (Some nd);;
        match next n with
        | Some h => mret (mkIter (Some h) 0)
        | None => mret cend
        end
      else if decide (count n = 0 ∧ Some nd = tl) then
        set_tail (prev n);;
        match prev n with
        | Some t => set_next t None
        | None => mret tt
        end;;
        destroy_node (Some nd);;
        mret cend
      else
        sz ← get_size;
        if decide (sz = 0) then
          destroy_node (Some nd);;
          set_head None;;
          set_tail None;;
          mret cend
        else if decide (count n ≤ idx) then
          match next n with
          | Some nxt => mret (mkIter (Some nxt) 0)
          | None => mret cend
          end
        else mret (mkIter (Some nd) idx)
  end.

(** [erase(first, last)]: a [while] loop, bounded here by [fuel]. *)
Fixpoint erase_range (fuel : nat) (first last : iter) : M (option iter) :=
  match fuel with
  | O => mret None
  | S k =>
      if iter_eq first last then mret (Some (mkIter (node_ last) (index_ last)))
      else f ← erase first; erase_range k f last
  end.

(** ** clear *)

Fixpoint clear_loop (fuel : nat) (cur : option ptr) : M bool :=
  match cur with
  | None => mret true
  | Some p =>
      match fuel with
      | O => mret false
      | S k => nd ← load p; destroy_node (Some p);; clear_loop k (next nd)
      end
  end.

(** [clear]; the flag tells whether the [while] loop ended within [fuel]. *)
Definition clear (fuel : nat) : M bool :=
  hd ← get_head;
  b ← clear_loop fuel hd;
  set_head None;; set_tail None;; set_size 0;; mret b.

(** ** Comparison *)

(** The loop of [operator==]: [None] when [fuel] runs out, [Some None] when a
    cursor is dereferenced or advanced without a live object behind it. *)
Fixpoint eq_loop (fuel : nat) (h1 h2 : gmap ptr Node) (it1 it2 : iter)
  : option (option bool) :=
  match fuel with
  | O => None
  | S k =>
      if iter_eq it1 cend then Some (Some true)
      else
        match iter_deref h1 it1, iter_deref h2 it2 with
        | Some a, Some b =>
            if T_ne a b then Some (Some false)
            else
              match iter_inc h1 it1, iter_inc h2 it2 with
              | Some it1', Some it2' => eq_loop k h1 h2 it1' it2'
              | _, _ => Some None
              end
        | _, _ => Some None
        end
  end.

Definition op_eq (fuel : nat) (s other : state) : option (option bool) :=
  if decide (size_ s ≠ size_ other) then Some (Some false)
  else eq_loop fuel (mem s) (mem other) (cbegin s) (cbegin other).

Definition op_ne (fuel : nat) (s other : state) : option (option bool) :=
  match op_eq fuel s other with
  | Some (Some b) => Some (Some (negb b))
  | r => r
  end.

(** ** Observation: iterating from [begin()] to [end()] *)

(** [for (it = from; it != end(); ++it) use the element at it], bounded by [fuel]. *)
Fixpoint iterate (fuel : nat) (h : gmap ptr Node) (it : iter) : option (list T) :=
  match fuel with
  | O => None
  | S k =>
      if iter_eq it cend then Some []
      else
        x ← iter_deref h it;
        it' ← iter_inc h it;
        xs ← iterate k h it';
        Some (x :: xs)
  end.

(** [std::advance(it, k)] for [k ≥ 0]. *)
Fixpoint advance (h : gmap ptr Node) (it : iter) (k : nat) : option iter :=
  match k with
  | O => Some it
  | S k' => it' ← iter_inc h it; advance h it' k'
  end.

(** ** Reverse iteration

    [rbegin()] is [std::reverse_iterator<iterator>(end())].  The adaptor of
    the standard library keeps a base cursor; its [operator++] applies the
    base cursor's [operator--], and its [operator*] dereferences a
    decremented copy of the base cursor. *)
Definition rbegin : iter := cend.
Definition rev_inc (h : gmap ptr Node) (base : iter) : option iter := iter_dec h base.
Definition rev_deref (h : gmap ptr Node) (base : iter) : option T :=
  it ← iter_dec h base; iter_deref h it.

(** [k] applications of [operator--]. *)
Fixpoint retreat (h : gmap ptr Node) (it : iter) (k : nat) : option iter :=
  match k with
  | O => Some it
  | S k' => it' ← iter_dec h it; retreat h it' k'
  end.

(** ** Construction *)

(** The default constructor, with the schedule the run starts from. *)
Definition new_list (fs : list bool) : state := mkState None None 0 ∅ fs.

(** [unrolled_list(std::initializer_list<T> il)]: [push_back] of every
    value in order. *)
Fixpoint from_list (il : list T) : M unit :=
  match il with
  | [] => mret tt
  | x :: r => push_back x;; from_list r
  end.

(** [unrolled_list(size_type n, const T& value)]: [n] times [push_back]. *)
Fixpoint fill (n : nat) (value : T) : M unit :=
  match n with
  | O => mret tt
  | S k => push_back value;; fill k value
  end.

Definition fill_ctor (n : Z) (value : T) : M unit := fill (Z.to_nat n) value.

(** [unrolled_list(InputIt first, InputIt last)]: the range is given by the
    values it yields; [cur] and [k] are [current_node] and
    [elements_in_current_node]. *)
Fixpoint range_loop (xs : list T) (cur : option ptr) (k : Z) : M unit :=
  match xs with
  | [] => mret tt
  | x :: rest =>
      ck ← (if decide (cur = None ∨ k = NodeMaxSize) then
              n ← create_node;
              hd ← get_head;
              match hd with
              | None => set_head (Some n)
              | Some _ =>
                  tl ← get_tail;
                  t ← deref_ptr tl;
                  set_next t (Some n);;
                  set_prev n tl
              end;;
              set_tail (Some n);;
              mret (n, 0)
            else c ← deref_ptr cur; mret (c, k));
      construct ck.1 ck.2 x;;
      inc_count ck.1;;
      inc_size;;
      range_loop rest (Some ck.1) (wrap (ck.2 + 1))
  end.

(** The handler of the range constructor calls [clear()] and rethrows; the
    result is [false] when the loop of [clear] did not end within [fuel]. *)
Definition range_ctor (fuel : nat) (xs : list T) : M bool :=
  try_catch (range_loop xs None 0;; mret true)
            (b ← clear fuel; if (b : bool) then rethrow else mret false).

(** [*it] and [++it] on a cursor into the heap of the state. *)
Definition read_iter (it : iter) : M T := λ s,
  match iter_deref (mem s) it with
  | Some x => Ret x s
  | None => Undef
  end.

Definition step_iter (it : iter) : M iter := λ s,
  match iter_inc (mem s) it with
  | Some it' => Ret it' s
  | None => Undef
  end.

(** The loop of the copy constructor and of copy assignment,
    [for (it = other.begin(); it != other.end(); ++it) push_back( *it )]:
    the nodes of [other] live in the same heap as those of [this], whose
    members the state holds.  The result is [false] when the loop did not
    end within [fuel]. *)
Fixpoint copy_loop (fuel : nat) (it : iter) : M bool :=
  match fuel with
  | O => mret false
  | S k =>
      if iter_eq it cend then mret true
      else
        x ← read_iter it;
        push_back x;;
        it' ← step_iter it;
        copy_loop k it'
  end.

(** [unrolled_list(const unrolled_list& other)], run on the members of the
    new, empty container. *)
Definition copy_ctor (fuel : nat) (other : state) : M bool :=
  copy_loop fuel (cbegin other).

(** [operator=(const unrolled_list& other)] for [this != &other]. *)
Definition copy_assign (fuel : nat) (other : state) : M bool :=
  b ← clear fuel;
  if (b : bool) then copy_loop fuel (cbegin other) else mret false.

(** Replace the schedule of copy-construction outcomes. *)
Definition with_faults (fs : list bool) (s : state) : state :=
  mkState (head_ s) (tail_ s) (size_ s) (mem s) fs.

(** ** Representation invariant *)

(** Node [nd] holds exactly the elements [xs] in its first slots. *)
Definition holds (nd : Node) (xs : list T) : Prop :=
  count nd = Z.of_nat (length xs) ∧
  length (storage nd) = Z.to_nat NodeMaxSize ∧
  (0 < length xs ≤ Z.to_nat NodeMaxSize)%nat ∧
  ∀ i x, xs !! i = Some x → storage nd !! i = Some (Some x).

(** No slot of [nd] from [count] on holds an object: what was moved out
    of them, or removed from them, has been destroyed. *)
Definition vacant (nd : Node) : Prop :=
  ∀ j : nat, (Z.to_nat (count nd) ≤ j < Z.to_nat NodeMaxSize)%nat →
    storage nd !! j = Some None.

(** A doubly linked segment: starting at [cur], whose predecessor is [pv],
    the nodes listed in [segs] follow each other through [next] and point
    back through [prev]; [last] is the final node and [nxt] its successor. *)
Fixpoint dseg (h : gmap ptr Node) (pv cur : option ptr)
    (segs : list (ptr * list T)) (last nxt : option ptr) : Prop :=
  match segs with
  | [] => cur = nxt ∧ last = pv
  | (p, xs) :: rest =>
      cur = Some p ∧
      ∃ nd, h !! p = Some nd ∧ prev nd = pv ∧ holds nd xs ∧
            dseg h (Some p) (next nd) rest last nxt
  end.

(** The forward part of a segment: what iteration depends on. *)
Fixpoint fseg (h : gmap ptr Node) (cur : option ptr)
    (segs : list (ptr * list T)) (nxt : option ptr) : Prop :=
  match segs with
  | [] => cur = nxt
  | (p, xs) :: rest =>
      cur = Some p ∧
      ∃ nd, h !! p = Some nd ∧ holds nd xs ∧ fseg h (next nd) rest nxt
  end.

(** A null-terminated chain of live nodes whose counts fit their arrays:
    what [clear] relies on. *)
Fixpoint chain (h : gmap ptr Node) (cur : option ptr) (ps : list ptr) : Prop :=
  match ps with
  | [] => cur = None
  | p :: rest =>
      cur = Some p ∧
      ∃ nd, h !! p = Some nd ∧ 0 ≤ count nd ≤ NodeMaxSize ∧
            length (storage nd) = Z.to_nat NodeMaxSize ∧
            chain h (next nd) rest
  end.

(** The elements of a chain in order. *)
Definition flat (segs : list (ptr * list T)) : list T := concat (segs.*2).

(** A well-formed container whose chain is [segs]. *)
Definition wf (s : state) (segs : list (ptr * list T)) : Prop :=
  0 < NodeMaxSize < size_modulus ∧
  dseg (mem s) None (head_ s) segs (tail_ s) None ∧
  NoDup (segs.*1) ∧
  size_ s = Z.of_nat (length (flat segs)) ∧
  size_ s < size_modulus.

(** Every node of the chain but the last one is full. *)
Definition packed (segs : list (ptr * list T)) : Prop :=
  ∀ (i : nat) p xs, segs !! i = Some (p, xs) → (S i < length segs)%nat →
    Z.of_nat (length xs) = NodeMaxSize.

(** Iterating from [begin()] to [end()] terminates and visits [xs]. *)
Definition visits (s : state) (xs : list T) : Prop :=
  ∃ n, ∀ fuel, (n ≤ fuel)%nat → iterate fuel (mem s) (cbegin s) = Some xs.

(** No copy construction of the schedule throws. *)
Definition no_throw (fs : list bool) : Prop := Forall (λ b, b = false) fs.

(** [xs] with [v] put before position [k]. *)
Definition insert_at (k : nat) (v : T) (xs : list T) : list T :=
  take k xs ++ v :: drop k xs.

(** [it0] enumerates [xs]: the cursor reached after [k] increments shows
    the [k]-th element, and is the end sentinel once [xs] is exhausted. *)
Definition enumerates (h : gmap ptr Node) (it0 : iter) (xs : list T) : Prop :=
  ∀ k : nat, (k ≤ length xs)%nat →
    ∃ it, advance h it0 k = Some it ∧
          ((k < length xs)%nat → iter_eq it cend = false ∧
                                 iter_deref h it = xs !! k) ∧
          (k = length xs → it = cend).

(** Equality as the specification words it: pairwise-equal elements in
    order, for [T]'s own comparison. *)
Definition pairwise_equal (xs ys : list T) : Prop :=
  ∀ (i : nat) a b, xs !! i = Some a → ys !! i = Some b → T_ne a b = false.

(** ** The slot loops as functions on the slot array

    Used to state what the loops of [insert], [erase] and [pop_front] leave
    in a node. *)

(** Moving slots [lo .. lo + n - 1] one place to the left, in ascending order. *)
Fixpoint shift_left_slots (st : list (option T)) (lo n : nat) : list (option T) :=
  match n with
  | O => st
  | S k => shift_left_slots (<[lo := None]> (<[pred lo := default None (st !! lo)]> st)) (S lo) k
  end.

(** Moving slots [lo .. lo + n - 1] one place to the right, in descending order. *)
Fixpoint shift_right_slots (st : list (option T)) (lo n : nat) : list (option T) :=
  match n with
  | O => st
  | S k =>
      shift_right_slots
        (<[(lo + k)%nat := None]> (<[(lo + S k)%nat := default None (st !! (lo + k)%nat)]> st)) lo k
  end.


End UnrolledList.

Arguments Ret {T A} a s.
Arguments Throw {T A} s.
Arguments Undef {T A}.
Arguments mkNode {T} prev next count storage.
Arguments mkState {T} head_ tail_ size_ mem faults.

#[global] Existing Instance M_ret.
#[global] Existing Instance M_bind.

(** * Containers used in the examples

    Containers of node capacity [4] holding the listed values, as the
    initializer-list constructor lays them out, and one of capacity [1].
    The elements are shown as integers; where a run starts from a schedule
    with a [true] entry, they stand for an element type whose copy
    constructor throws at that construction. *)

Definition cap4_one (x : Z) : @state Z :=
  mkState (Some 1%positive) (Some 1%positive) 1
    {[ 1%positive := mkNode None None 1 [Some x; None; None; None] ]} [].

Definition cap4_123 : @state Z :=
  mkState (Some 1%positive) (Some 1%positive) 3
    {[ 1%positive := mkNode None None 3 [Some 1; Some 2; Some 3; None] ]} [].

Definition cap4_1234 : @state Z :=
  mkState (Some 1%positive) (Some 1%positive) 4
    {[ 1%positive := mkNode None None 4 [Some 1; Some 2; Some 3; Some 4] ]} [].

Definition cap4_12345 : @state Z :=
  mkState (Some 1%positive) (Some 2%positive) 5
    (<[ 1%positive := mkNode None (Some 2%positive) 4 [Some 1; Some 2; Some 3; Some 4] ]>
       {[ 2%positive := mkNode (Some 1%positive) None 1 [Some 5; None; None; None] ]}) [].

Definition cap1_one : @state Z :=
  mkState (Some 1%positive) (Some 1%positive) 1
    {[ 1%positive := mkNode None None 1 [Some 1] ]} [].

(** States the failing runs below end in. *)

(** [cap4_123] after an [insert] at [begin()] whose second copy threw. *)
Definition cap4_123_torn : @state Z :=
  mkState (Some 1%positive) (Some 1%positive) 3
    {[ 1%positive := mkNode None None 3 [Some 1; Some 2; None; Some 3] ]} [].

(** [cap4_1234] after an [insert] at its last element whose second copy
    threw while the node was being split: node [2] is allocated, holds the
    first moved element and is linked nowhere. *)
Definition cap4_1234_torn : @state Z :=
  mkState (Some 1%positive) (Some 1%positive) 4
    (<[ 1%positive := mkNode None None 4 [Some 1; Some 2; None; Some 4] ]>
       {[ 2%positive := mkNode None None 0 [Some 3; None; None; None] ]}) [].

(** The empty container after a [push_back] or [push_front] whose
    construction threw. *)
Definition cap4_empty_node : @state Z :=
  mkState (Some 1%positive) (Some 1%positive) 0
    {[ 1%positive := mkNode None None 0 [None; None; None; None] ]} [].

(** [cap4_one 7] after a [push_front] whose construction of the new value
    threw. *)
Definition cap4_one_torn : @state Z :=
  mkState (Some 1%positive) (Some 1%positive) 1
    {[ 1%positive := mkNode None None 1 [None; Some 7; None; None] ]} [].

(** [cap1_one] after an [insert] at [begin()] whose construction of the new
    value threw, after the split. *)
Definition cap1_one_torn : @state Z :=
  mkState (Some 1%positive) (Some 2%positive) 1
    (<[ 1%positive := mkNode None (Some 2%positive) 0 [None] ]>
       {[ 2%positive := mkNode (Some 1%positive) None 1 [Some 1] ]}) [].

(** [cap4_one x] after [erase(begin())]. *)
Definition cap4_erased_last : @state Z :=
  mkState None (Some 1%positive) 0 ∅ [].

(** [cap4_1234] after [insert(pos, 2, 9)] with [pos] at its last element. *)
Definition cap4_1234_bulk : @state Z :=
  mkState (Some 1%positive) (Some 2%positive) 6
    (<[ 1%positive := mkNode None (Some 2%positive) 3 [Some 1; Some 2; None; Some 9] ]>
       {[ 2%positive := mkNode (Some 1%positive) None 3 [Some 3; Some 9; Some 4; None] ]}) [].

(** [cap4_1234] after two single insertions, the second at the cursor the
    first one returned. *)
Definition cap4_1234_twice : @state Z :=
  mkState (Some 1%positive) (Some 2%positive) 6
    (<[ 1%positive := mkNode None (Some 2%positive) 2 [Some 1; Some 2; None; None] ]>
       {[ 2%positive := mkNode (Some 1%positive) None 4 [Some 3; Some 9; Some 9; Some 4] ]}) [].

(** Two containers in one heap: [{7}] in node [3] beside the chain of
    [cap4_12345]. *)
Definition cap4_7_beside : @state Z :=
  mkState (Some 3%positive) (Some 3%positive) 1
    (<[ 3%positive := mkNode None None 1 [Some 7; None; None; None] ]> (mem cap4_12345)) [].

Definition cap4_12345_beside : @state Z :=
  mkState (Some 1%positive) (Some 2%positive) 5 (mem cap4_7_beside) [].

(** [operator!=] of [int]. *)
Definition Z_ne (a b : Z) : bool := negb (a =? b).

(** * Properties of the operations *)

(** ** Cursors over a well-formed chain *)

Section Cursors.

Context {T : Type}.
Variable NodeMaxSize : Z.
Hypothesis NodeMaxSize_fits : NodeMaxSize < size_modulus.

Implicit Types (h : gmap ptr (@Node T)) (nd : @Node T) (xs : list T).
Implicit Types (segs : list (ptr * list T)) (it : iter).

Lemma wrap_small z : 0 ≤ z < size_modulus → wrap z = z.
Proof. intros Hz. unfold wrap. apply Z.mod_small, Hz. Qed.

Lemma cbegin_head (s : @state T) : cbegin s = mkIter (head_ s) 0.
Proof. unfold cbegin. by destruct (head_ s). Qed.

Lemma holds_slot nd xs (i : nat) x :
  holds NodeMaxSize nd xs → xs !! i = Some x → slot NodeMaxSize nd (Z.of_nat i) = Some x.
Proof.
  intros (Hc & Hl & Hn & Hs) Hx. unfold slot.
  pose proof (lookup_lt_Some _ _ _ Hx) as Hi.
  rewrite decide_True by lia.
  rewrite Nat2Z.id, (Hs _ _ Hx). done.
Qed.

Lemma deref_in_node h p nd xs (i : nat) :
  h !! p = Some nd → holds NodeMaxSize nd xs → (i < length xs)%nat →
  iter_deref NodeMaxSize h (mkIter (Some p) (Z.of_nat i)) = xs !! i.
Proof.
  intros Hp Hh Hi. unfold iter_deref. cbn. rewrite Hp. cbn.
  destruct (lookup_lt_is_Some_2 xs i Hi) as [x Hx].
  rewrite Hx. eauto using holds_slot.
Qed.

Lemma inc_in_node h p nd xs (i : nat) :
  h !! p = Some nd → holds NodeMaxSize nd xs → (S i < length xs)%nat →
  iter_inc h (mkIter (Some p) (Z.of_nat i)) = Some (mkIter (Some p) (Z.of_nat (S i))).
Proof.
  intros Hp (Hc & Hl & Hn & Hs) Hi. unfold iter_inc. cbn. rewrite Hp. cbn.
  rewrite wrap_small by lia.
  rewrite decide_False by lia. do 2 f_equal. lia.
Qed.

Lemma inc_leaves_node h p nd xs (i : nat) :
  h !! p = Some nd → holds NodeMaxSize nd xs → S i = length xs →
  iter_inc h (mkIter (Some p) (Z.of_nat i)) = Some (mkIter (next nd) 0).
Proof.
  intros Hp (Hc & Hl & Hn & Hs) Hi. unfold iter_inc. cbn. rewrite Hp. cbn.
  rewrite wrap_small by lia.
  rewrite decide_True by lia. done.
Qed.

Lemma advance_add h it (a b : nat) :
  advance h it (a + b) = advance h it a ≫= λ it', advance h it' b.
Proof.
  revert it. induction a as [|a IH]; intros it; cbn; [done|].
  destruct (iter_inc h it) as [it'|]; cbn; [apply IH|done].
Qed.

Lemma advance_succ h it (k : nat) :
  advance h it (S k) = advance h it k ≫= iter_inc h.
Proof.
  replace (S k) with (k + 1)%nat by lia. rewrite advance_add.
  destruct (advance h it k) as [it'|]; cbn; [|done].
  by destruct (iter_inc h it').
Qed.

Lemma advance_in_node h p nd xs (j i : nat) :
  h !! p = Some nd → holds NodeMaxSize nd xs → (j + i < length xs)%nat →
  advance h (mkIter (Some p) (Z.of_nat j)) i = Some (mkIter (Some p) (Z.of_nat (j + i))).
Proof.
  intros Hp Hh. revert j. induction i as [|i IH]; intros j Hji; cbn [advance].
  - by rewrite Nat.add_0_r.
  - rewrite (inc_in_node h p nd xs) by (done || lia). cbn.
    rewrite IH by lia. do 3 f_equal. lia.
Qed.

Lemma advance_through_node h p nd xs :
  h !! p = Some nd → holds NodeMaxSize nd xs →
  advance h (mkIter (Some p) 0) (length xs) = Some (mkIter (next nd) 0).
Proof.
  intros Hp Hh. pose proof Hh as (_ & _ & Hn & _).
  destruct (length xs) as [|n] eqn:Hlen; [lia|].
  rewrite advance_succ.
  pose proof (advance_in_node h p nd xs 0 n Hp Hh ltac:(lia)) as Ha.
  change (Z.of_nat 0) with 0 in Ha. rewrite Ha. cbn [mbind option_bind].
  by apply (inc_leaves_node h p nd xs).
Qed.

Lemma flat_cons p xs segs : flat ((p, xs) :: segs) = xs ++ flat segs.
Proof. done. Qed.

Lemma flat_app segs1 segs2 : flat (segs1 ++ segs2) = flat segs1 ++ flat segs2.
Proof. unfold flat. by rewrite fmap_app, concat_app. Qed.

Lemma advance_fseg_end h cur segs nxt :
  fseg NodeMaxSize h cur segs nxt →
  advance h (mkIter cur 0) (length (flat segs)) = Some (mkIter nxt 0).
Proof.
  revert cur. induction segs as [|[p xs] segs IH]; intros cur; cbn [fseg].
  - by intros ->.
  - intros (-> & nd & Hp & Hh & Hrest).
    rewrite flat_cons, length_app, advance_add.
    rewrite (advance_through_node h p nd xs) by done. cbn. by apply IH.
Qed.

Lemma advance_fseg h cur segs1 p xs segs2 nxt (i : nat) :
  fseg NodeMaxSize h cur (segs1 ++ (p, xs) :: segs2) nxt → (i < length xs)%nat →
  advance h (mkIter cur 0) (length (flat segs1) + i) = Some (mkIter (Some p) (Z.of_nat i)).
Proof.
  revert cur. induction segs1 as [|[q ys] segs1 IH]; intros cur; cbn [fseg app].
  - intros (-> & nd & Hp & Hh & _) Hi.
    by apply (advance_in_node h p nd xs 0 i).
  - intros (-> & nd & Hp & Hh & Hrest) Hi.
    rewrite flat_cons, length_app, <- Nat.add_assoc, advance_add.
    rewrite (advance_through_node h q nd ys) by done. cbn. by apply IH.
Qed.

(** Every position of the flattened chain lies in one node. *)
Lemma flat_position segs (k : nat) :
  (k < length (flat segs))%nat →
  ∃ segs1 p xs segs2 (i : nat),
    segs = segs1 ++ (p, xs) :: segs2 ∧ k = (length (flat segs1) + i)%nat ∧
    (i < length xs)%nat.
Proof.
  revert k. induction segs as [|[p xs] segs IH]; intros k; [cbn; lia|].
  rewrite flat_cons, length_app. intros Hk.
  destruct (decide (k < length xs)%nat) as [Hlt|Hge].
  - exists [], p, xs, segs, k. cbn. done.
  - destruct (IH (k - length xs)%nat) as (s1 & q & ys & s2 & i & -> & Hki & Hi); [lia|].
    exists ((p, xs) :: s1), q, ys, s2, i. rewrite flat_cons, length_app.
    split; [done|]. split; [lia|done].
Qed.

Lemma flat_lookup segs1 p xs segs2 (i : nat) :
  (i < length xs)%nat →
  flat (segs1 ++ (p, xs) :: segs2) !! (length (flat segs1) + i)%nat = xs !! i.
Proof.
  intros Hi. rewrite flat_app, flat_cons.
  rewrite lookup_app_r by lia.
  replace (length (flat segs1) + i - length (flat segs1))%nat with i by lia.
  by rewrite lookup_app_l.
Qed.

Lemma fseg_lookup h cur segs1 p xs segs2 nxt :
  fseg NodeMaxSize h cur (segs1 ++ (p, xs) :: segs2) nxt →
  ∃ nd, h !! p = Some nd ∧ holds NodeMaxSize nd xs.
Proof.
  revert cur. induction segs1 as [|[q ys] segs1 IH]; intros cur; cbn [fseg app].
  - intros (_ & nd & Hp & Hh & _). eauto.
  - intros (_ & nd & _ & _ & Hrest). eauto.
Qed.

Lemma fseg_enumerates h cur segs :
  fseg NodeMaxSize h cur segs None → enumerates NodeMaxSize h (mkIter cur 0) (flat segs).
Proof.
  intros Hf k Hk.
  destruct (decide (k = length (flat segs))) as [->|Hne].
  - exists cend. split; [by apply advance_fseg_end|]. split; [lia|done].
  - destruct (flat_position segs k) as (s1 & p & xs & s2 & i & -> & -> & Hi); [lia|].
    exists (mkIter (Some p) (Z.of_nat i)).
    split; [by eapply advance_fseg|]. split; [|done].
    intros _. split; [done|].
    destruct (fseg_lookup _ _ _ _ _ _ _ Hf) as (nd & Hp & Hh).
    rewrite (deref_in_node h p nd xs) by done.
    by rewrite flat_lookup.
Qed.

Lemma enumerates_iterate h it0 xs (k fuel : nat) it :
  enumerates NodeMaxSize h it0 xs → (k ≤ length xs)%nat → (length xs - k < fuel)%nat →
  advance h it0 k = Some it →
  iterate NodeMaxSize fuel h it = Some (drop k xs).
Proof.
  intros He. revert k it. induction fuel as [|fuel IH]; intros k it Hk Hf Hadv; [lia|].
  destruct (He k Hk) as (it' & Hadv' & Hlt & Heq).
  rewrite Hadv in Hadv'. injection Hadv' as <-.
  destruct (decide (k = length xs)) as [->|Hne].
  - rewrite (Heq eq_refl). cbn. by rewrite drop_all.
  - destruct Hlt as [Hnend Hderef]; [lia|].
    cbn [iterate]. rewrite Hnend, Hderef.
    destruct (lookup_lt_is_Some_2 xs k) as [x Hx]; [lia|].
    rewrite Hx. cbn.
    destruct (He (S k)) as (it2 & Hadv2 & _); [lia|].
    pose proof Hadv2 as Hinc.
    rewrite advance_succ, Hadv in Hinc. cbn in Hinc. rewrite Hinc. cbn.
    rewrite (IH (S k) it2) by (done || lia). cbn.
    by rewrite (drop_S _ _ _ Hx).
Qed.

Lemma iterate_fseg h cur segs (fuel : nat) :
  fseg NodeMaxSize h cur segs None → (length (flat segs) < fuel)%nat →
  iterate NodeMaxSize fuel h (mkIter cur 0) = Some (flat segs).
Proof.
  intros Hf Hfuel.
  rewrite (enumerates_iterate h (mkIter cur 0) (flat segs) 0 fuel (mkIter cur 0));
    [done|by apply fseg_enumerates|lia|lia|done].
Qed.

End Cursors.

(** ** Chains *)

Section Chains.

Context {T : Type}.
Variable NodeMaxSize : Z.

Implicit Types (h : gmap ptr (@Node T)) (nd : @Node T) (xs : list T).
Implicit Types (segs : list (ptr * list T)) (s : @state T).

Lemma dseg_fseg h pv cur segs last nxt :
  dseg NodeMaxSize h pv cur segs last nxt → fseg NodeMaxSize h cur segs nxt.
Proof.
  revert pv cur. induction segs as [|[p xs] segs IH]; intros pv cur; cbn [dseg fseg].
  - by intros [-> _].
  - intros (-> & nd & Hp & _ & Hh & Hrest). split; [done|]. eauto.
Qed.

Lemma dseg_app h pv cur segs1 segs2 last nxt :
  dseg NodeMaxSize h pv cur (segs1 ++ segs2) last nxt ↔
  ∃ mid_last mid, dseg NodeMaxSize h pv cur segs1 mid_last mid ∧
                  dseg NodeMaxSize h mid_last mid segs2 last nxt.
Proof.
  revert pv cur. induction segs1 as [|[p xs] segs1 IH]; intros pv cur; cbn [dseg app].
  - split.
    + intros H. exists pv, cur. done.
    + intros (ml & m & [-> ->] & H). done.
  - split.
    + intros (-> & nd & Hp & Hpv & Hh & Hrest).
      apply IH in Hrest as (ml & m & H1 & H2).
      exists ml, m. split; [|done]. split; [done|]. eauto 6.
    + intros (ml & m & (-> & nd & Hp & Hpv & Hh & H1) & H2).
      split; [done|]. exists nd. do 3 (split; [done|]).
      apply IH. eauto.
Qed.

Lemma fseg_app h cur segs1 segs2 nxt :
  fseg NodeMaxSize h cur (segs1 ++ segs2) nxt ↔
  ∃ mid, fseg NodeMaxSize h cur segs1 mid ∧ fseg NodeMaxSize h mid segs2 nxt.
Proof.
  revert cur. induction segs1 as [|[p xs] segs1 IH]; intros cur; cbn [fseg app].
  - split.
    + intros H. exists cur. done.
    + intros (m & -> & H). done.
  - split.
    + intros (-> & nd & Hp & Hh & Hrest).
      apply IH in Hrest as (m & H1 & H2).
      exists m. split; [|done]. split; [done|]. eauto.
    + intros (m & (-> & nd & Hp & Hh & H1) & H2).
      split; [done|]. exists nd. do 2 (split; [done|]).
      apply IH. eauto.
Qed.

(** A segment only depends on the nodes it lists. *)
Lemma fseg_frame h h' cur segs nxt :
  (∀ p, p ∈ segs.*1 → h' !! p = h !! p) →
  fseg NodeMaxSize h cur segs nxt → fseg NodeMaxSize h' cur segs nxt.
Proof.
  revert cur. induction segs as [|[p xs] segs IH]; intros cur Hsame; cbn [fseg]; [done|].
  intros (-> & nd & Hp & Hh & Hrest). split; [done|].
  exists nd. split; [rewrite Hsame; [done|cbn; apply elem_of_cons; by left]|].
  split; [done|]. apply IH; [|done].
  intros q Hq. apply Hsame. cbn. apply elem_of_cons. by right.
Qed.

(** The first and the last node of a non-empty segment. *)
Lemma dseg_first h pv cur p xs segs last nxt :
  dseg NodeMaxSize h pv cur ((p, xs) :: segs) last nxt → cur = Some p.
Proof. by intros [-> _]. Qed.

Lemma dseg_last h pv cur segs p xs last nxt :
  dseg NodeMaxSize h pv cur (segs ++ [(p, xs)]) last nxt →
  last = Some p ∧ ∃ nd, h !! p = Some nd ∧ next nd = nxt.
Proof.
  intros (ml & m & _ & H)%dseg_app. cbn in H.
  destruct H as (-> & nd & Hp & _ & _ & Hn & ->). eauto.
Qed.

(** A node whose first slots are the elements of [xs] holds [xs]. *)
Lemma holds_prefix nd xs :
  count nd = Z.of_nat (length xs) →
  length (storage nd) = Z.to_nat NodeMaxSize →
  (0 < length xs ≤ Z.to_nat NodeMaxSize)%nat →
  take (length xs) (storage nd) = Some <$> xs →
  holds NodeMaxSize nd xs.
Proof.
  intros Hc Hl Hn Hpre. split; [done|]. split; [done|]. split; [done|].
  intros i x Hx. pose proof (lookup_lt_Some _ _ _ Hx) as Hi.
  rewrite <- (lookup_take_lt _ (length xs)) by done.
  rewrite Hpre, list_lookup_fmap, Hx. done.
Qed.

Lemma wf_fseg s segs :
  wf NodeMaxSize s segs → fseg NodeMaxSize (mem s) (head_ s) segs None.
Proof. intros (_ & Hd & _). by eapply dseg_fseg. Qed.

Lemma wf_enumerates s segs :
  wf NodeMaxSize s segs → enumerates NodeMaxSize (mem s) (cbegin s) (flat segs).
Proof.
  intros Hwf. rewrite cbegin_head.
  apply fseg_enumerates; [apply Hwf|by apply wf_fseg].
Qed.

Lemma wf_visits s segs : wf NodeMaxSize s segs → visits NodeMaxSize s (flat segs).
Proof.
  intros Hwf. exists (S (length (flat segs))). intros fuel Hfuel.
  rewrite cbegin_head. apply iterate_fseg; [apply Hwf|by apply wf_fseg|lia].
Qed.

Lemma visits_inj s xs ys :
  visits NodeMaxSize s xs → visits NodeMaxSize s ys → xs = ys.
Proof.
  intros [n Hn] [m Hm].
  specialize (Hn (n `max` m)%nat ltac:(lia)).
  specialize (Hm (n `max` m)%nat ltac:(lia)). congruence.
Qed.

End Chains.

(** ** Comparison *)

Section Comparison.

Context {T : Type}.
Variable NodeMaxSize : Z.
Variable T_ne : T → T → bool.

Implicit Types (h : gmap ptr (@Node T)) (xs ys : list T) (s other : @state T).

Lemma eq_loop_enumerates h1 h2 it01 it02 xs ys (fuel k : nat) it1 it2 :
  enumerates NodeMaxSize h1 it01 xs → enumerates NodeMaxSize h2 it02 ys →
  length xs = length ys → (k ≤ length xs)%nat → (length xs - k < fuel)%nat →
  advance h1 it01 k = Some it1 → advance h2 it02 k = Some it2 →
  ∃ b : bool,
    eq_loop NodeMaxSize T_ne fuel h1 h2 it1 it2 = Some (Some b) ∧
    (b = true ↔ ∀ (i : nat) a c, (k ≤ i)%nat → xs !! i = Some a → ys !! i = Some c →
                                 T_ne a c = false).
Proof.
  intros He1 He2 Hlen. revert k it1 it2.
  induction fuel as [|fuel IH]; intros k it1 it2 Hk Hfuel Ha1 Ha2; [lia|].
  destruct (He1 k Hk) as (it1' & Ha1' & Hlt1 & Hend1).
  rewrite Ha1 in Ha1'. injection Ha1' as <-.
  destruct (decide (k = length xs)) as [->|Hne].
  - rewrite (Hend1 eq_refl). exists true. split; [done|]. split; [|done].
    intros _ i a c Hi Ha. apply lookup_lt_Some in Ha. lia.
  - destruct Hlt1 as [Hnend Hd1]; [lia|].
    destruct (He2 k) as (it2' & Ha2' & Hlt2 & _); [lia|].
    rewrite Ha2 in Ha2'. injection Ha2' as <-.
    destruct Hlt2 as [_ Hd2]; [lia|].
    destruct (lookup_lt_is_Some_2 xs k) as [a Hxa]; [lia|].
    destruct (lookup_lt_is_Some_2 ys k) as [c Hyc]; [lia|].
    cbn [eq_loop]. rewrite Hnend, Hd1, Hd2, Hxa, Hyc.
    destruct (T_ne a c) eqn:Hac.
    + exists false. split; [done|]. split; [done|].
      intros Hall. rewrite (Hall k a c) in Hac; [done|lia|done|done].
    + destruct (He1 (S k)) as (j1 & Hj1 & _); [lia|].
      destruct (He2 (S k)) as (j2 & Hj2 & _); [lia|].
      pose proof Hj1 as Hi1. pose proof Hj2 as Hi2.
      rewrite advance_succ, Ha1 in Hi1. rewrite advance_succ, Ha2 in Hi2.
      cbn in Hi1, Hi2. rewrite Hi1, Hi2.
      destruct (IH (S k) j1 j2) as (b & Hb & Hiff); [lia|lia|done|done|].
      exists b. split; [done|]. rewrite Hiff. split.
      * intros Hall i a' c' Hi Ha' Hc'.
        destruct (decide (i = k)) as [->|Hik]; [congruence|].
        apply (Hall i); [lia|done|done].
      * intros Hall i a' c' Hi. apply Hall. lia.
Qed.

(** C8: on two well-formed containers whose iteration visits [xs] and
    [ys], [operator==] terminates and answers [true] exactly when the sizes
    agree and the visited elements are pairwise equal in order, and
    [operator!=] answers the negation. *)
Theorem op_eq_spec s other segs segs' xs ys :
  wf NodeMaxSize s segs → wf NodeMaxSize other segs' →
  visits NodeMaxSize s xs → visits NodeMaxSize other ys →
  ∃ (b : bool) (n : nat),
    (∀ fuel, (n ≤ fuel)%nat →
       op_eq NodeMaxSize T_ne fuel s other = Some (Some b) ∧
       op_ne NodeMaxSize T_ne fuel s other = Some (Some (negb b))) ∧
    (b = true ↔ size s = size other ∧ length xs = length ys ∧ pairwise_equal T_ne xs ys).
Proof.
  intros Hwf1 Hwf2 Hv1 Hv2.
  rewrite (visits_inj _ _ _ _ Hv1 (wf_visits _ _ _ Hwf1)).
  rewrite (visits_inj _ _ _ _ Hv2 (wf_visits _ _ _ Hwf2)).
  pose proof Hwf1 as (_ & _ & _ & Hsz1 & _).
  pose proof Hwf2 as (_ & _ & _ & Hsz2 & _).
  unfold size.
  destruct (decide (size_ s ≠ size_ other)) as [Hne|Heq].
  - exists false, 0%nat. split.
    + intros fuel _. unfold op_ne, op_eq. rewrite decide_True by done. done.
    + split; [done|]. intros (Hs & _). done.
  - assert (size_ s = size_ other) as Hsize by lia.
    assert (length (flat segs) = length (flat segs')) as Hlen by lia.
    destruct (eq_loop_enumerates (mem s) (mem other) (cbegin s) (cbegin other)
                (flat segs) (flat segs') (S (length (flat segs))) 0 (cbegin s) (cbegin other))
      as (b & Hb & Hiff); [by apply wf_enumerates|by apply wf_enumerates|done|lia|lia|done|done|].
    exists b, (S (length (flat segs))). split.
    + intros fuel Hfuel.
      destruct (eq_loop_enumerates (mem s) (mem other) (cbegin s) (cbegin other)
                  (flat segs) (flat segs') fuel 0 (cbegin s) (cbegin other))
        as (b' & Hb' & Hiff');
        [by apply wf_enumerates|by apply wf_enumerates|done|lia|lia|done|done|].
      assert (b' = b) as ->.
      { destruct b, b'; try done.
        - apply Hiff'. by apply Hiff.
        - symmetry. apply Hiff. by apply Hiff'. }
      unfold op_ne, op_eq. rewrite decide_False by done. rewrite Hb'. done.
    + rewrite Hiff. unfold pairwise_equal. split.
      * intros Hall. repeat split; try done. intros i a c. apply Hall. lia.
      * intros (_ & _ & Hall) i a c _. apply Hall.
Qed.

End Comparison.

(** ** Running the primitives *)

Section Execution.

Context {T : Type}.
Variable NodeMaxSize : Z.

Implicit Types (h : gmap ptr (@Node T)) (nd : @Node T) (xs : list T).
Implicit Types (s : @state T) (st src dst : list (option T)).

Lemma run_bind {A B} (m : M A) (f : A → M B) s a s' r :
  m s = Ret a s' → f a s' = r → (m ≫= f) s = r.
Proof. intros Hm Hf. unfold mbind, M_bind. by rewrite Hm. Qed.

Lemma run_load p nd s : mem s !! p = Some nd → load p s = Ret nd s.
Proof. intros H. unfold load. by rewrite H. Qed.

Lemma run_store p nd nd' s :
  mem s !! p = Some nd →
  store p nd' s = Ret tt (mkState (head_ s) (tail_ s) (size_ s) (<[p := nd']> (mem s)) (faults s)).
Proof. intros H. unfold store. by rewrite H. Qed.

Lemma run_set_prev p q nd s :
  mem s !! p = Some nd →
  set_prev p q s = Ret tt (mkState (head_ s) (tail_ s) (size_ s)
                             (<[p := mkNode q (next nd) (count nd) (storage nd)]> (mem s))
                             (faults s)).
Proof. intros H. unfold set_prev. eapply run_bind; [by apply run_load|]. by eapply run_store. Qed.

Lemma run_set_next p q nd s :
  mem s !! p = Some nd →
  set_next p q s = Ret tt (mkState (head_ s) (tail_ s) (size_ s)
                             (<[p := mkNode (prev nd) q (count nd) (storage nd)]> (mem s))
                             (faults s)).
Proof. intros H. unfold set_next. eapply run_bind; [by apply run_load|]. by eapply run_store. Qed.

Lemma run_set_count p c nd s :
  mem s !! p = Some nd →
  set_count p c s = Ret tt (mkState (head_ s) (tail_ s) (size_ s)
                              (<[p := mkNode (prev nd) (next nd) c (storage nd)]> (mem s))
                              (faults s)).
Proof. intros H. unfold set_count. eapply run_bind; [by apply run_load|]. by eapply run_store. Qed.

Lemma run_inc_count p nd s :
  mem s !! p = Some nd →
  inc_count p s = Ret tt (mkState (head_ s) (tail_ s) (size_ s)
                            (<[p := mkNode (prev nd) (next nd) (wrap (count nd + 1)) (storage nd)]> (mem s))
                            (faults s)).
Proof. intros H. unfold inc_count. eapply run_bind; [by apply run_load|]. by eapply run_set_count. Qed.

Lemma run_dec_count p nd s :
  mem s !! p = Some nd →
  dec_count p s = Ret tt (mkState (head_ s) (tail_ s) (size_ s)
                            (<[p := mkNode (prev nd) (next nd) (wrap (count nd - 1)) (storage nd)]> (mem s))
                            (faults s)).
Proof. intros H. unfold dec_count. eapply run_bind; [by apply run_load|]. by eapply run_set_count. Qed.

Lemma run_put_slot p (i : nat) x nd s :
  mem s !! p = Some nd → (i < length (storage nd))%nat → Z.of_nat i < NodeMaxSize →
  put_slot NodeMaxSize p (Z.of_nat i) x s =
  Ret tt (mkState (head_ s) (tail_ s) (size_ s)
            (<[p := mkNode (prev nd) (next nd) (count nd) (<[i := x]> (storage nd))]> (mem s))
            (faults s)).
Proof.
  intros H Hi Hc. unfold put_slot. eapply run_bind; [by apply run_load|].
  rewrite Nat2Z.id. rewrite decide_True by lia. by eapply run_store.
Qed.

Lemma run_read_slot p (i : nat) x nd s :
  mem s !! p = Some nd → storage nd !! i = Some (Some x) → Z.of_nat i < NodeMaxSize →
  read_slot NodeMaxSize p (Z.of_nat i) s = Ret x s.
Proof.
  intros H Hx Hc. unfold read_slot. eapply run_bind; [by apply run_load|].
  unfold slot. rewrite decide_True by lia. rewrite Nat2Z.id, Hx. done.
Qed.

Lemma run_construct p (i : nat) x nd s :
  no_throw (faults s) →
  mem s !! p = Some nd → (i < length (storage nd))%nat → Z.of_nat i < NodeMaxSize →
  construct NodeMaxSize p (Z.of_nat i) x s =
  Ret tt (mkState (head_ s) (tail_ s) (size_ s)
            (<[p := mkNode (prev nd) (next nd) (count nd) (<[i := Some x]> (storage nd))]> (mem s))
            (drop 1 (faults s))).
Proof.
  intros Hf H Hi Hc. unfold construct.
  destruct s as [hd tl sz h fs]. cbn [faults mem head_ tail_ size_] in *.
  destruct fs as [|b fs].
  - eapply run_bind; [reflexivity|]. cbn [drop]. by rewrite (run_put_slot p i _ nd).
  - apply Forall_cons in Hf as [-> Hf].
    eapply run_bind; [reflexivity|]. cbn [drop]. by rewrite (run_put_slot p i _ nd).
Qed.

Lemma no_throw_drop (n : nat) fs : no_throw fs → no_throw (drop n fs).
Proof. apply Forall_drop. Qed.

Lemma run_create_node s :
  create_node NodeMaxSize s =
  Ret (fresh (dom (mem s)))
    (mkState (head_ s) (tail_ s) (size_ s)
       (<[fresh (dom (mem s)) := mkNode None None 0 (replicate (Z.to_nat NodeMaxSize) None)]> (mem s))
       (faults s)).
Proof. done. Qed.

Lemma run_free p nd s :
  mem s !! p = Some nd →
  free p s = Ret tt (mkState (head_ s) (tail_ s) (size_ s) (delete p (mem s)) (faults s)).
Proof. intros H. unfold free. by rewrite H. Qed.

(** A node whose [count] is [0] is released without touching a slot. *)
Lemma run_destroy_empty_node p nd s :
  mem s !! p = Some nd → count nd = 0 →
  destroy_node NodeMaxSize (Some p) s =
  Ret tt (mkState (head_ s) (tail_ s) (size_ s) (delete p (mem s)) (faults s)).
Proof.
  intros H Hc. unfold destroy_node. eapply run_bind; [by apply run_load|].
  rewrite Hc. cbn [Z.to_nat for_up]. eapply run_bind; [reflexivity|]. by eapply run_free.
Qed.

(** *** The slot loops *)

Lemma shift_left_slots_length st (lo n : nat) :
  length (shift_left_slots st lo n) = length st.
Proof.
  revert st lo. induction n as [|n IH]; intros st lo; cbn [shift_left_slots]; [done|].
  by rewrite IH, !length_insert.
Qed.

Lemma shift_left_slots_before st (lo n j : nat) :
  (j < pred lo)%nat → shift_left_slots st lo n !! j = st !! j.
Proof.
  revert st lo. induction n as [|n IH]; intros st lo Hj; cbn [shift_left_slots]; [done|].
  rewrite IH by lia. by rewrite !list_lookup_insert_ne by lia.
Qed.

Lemma shift_left_slots_moved st (lo n j : nat) :
  (1 ≤ lo)%nat → (lo + n ≤ length st)%nat → (pred lo ≤ j < pred lo + n)%nat →
  shift_left_slots st lo n !! j = st !! S j.
Proof.
  revert st lo. induction n as [|n IH]; intros st lo Hlo Hlen Hj; [lia|].
  cbn [shift_left_slots].
  destruct (decide (j = pred lo)) as [->|Hne].
  - rewrite shift_left_slots_before by (cbn; lia).
    rewrite list_lookup_insert_ne by lia.
    rewrite list_lookup_insert_eq by lia.
    replace (S (pred lo)) with lo by lia.
    destruct (lookup_lt_is_Some_2 st lo) as [v Hv]; [lia|]. by rewrite Hv.
  - rewrite IH by (rewrite ?length_insert; cbn; lia).
    by rewrite !list_lookup_insert_ne by lia.
Qed.

Lemma shift_left_slots_after st (lo n j : nat) :
  (lo + n ≤ j)%nat → shift_left_slots st lo n !! j = st !! j.
Proof.
  revert st lo. induction n as [|n IH]; intros st lo Hj; cbn [shift_left_slots]; [done|].
  rewrite IH by lia. by rewrite !list_lookup_insert_ne by lia.
Qed.

Lemma shift_left_slots_vacated st (lo n : nat) :
  (1 ≤ lo)%nat → (lo + n ≤ length st)%nat → st !! pred lo = Some None →
  shift_left_slots st lo n !! (pred lo + n)%nat = Some None.
Proof.
  revert st lo. induction n as [|n IH]; intros st lo Hlo Hlen Hv; cbn [shift_left_slots].
  - by rewrite Nat.add_0_r.
  - replace (pred lo + S n)%nat with (pred (S lo) + n)%nat by lia.
    apply IH; [lia|rewrite !length_insert; lia|].
    cbn [pred]. apply list_lookup_insert_eq. rewrite length_insert. lia.
Qed.

Lemma shift_right_slots_length st (lo n : nat) :
  length (shift_right_slots st lo n) = length st.
Proof.
  revert st. induction n as [|n IH]; intros st; cbn [shift_right_slots]; [done|].
  by rewrite IH, !length_insert.
Qed.

Lemma shift_right_slots_outside st (lo n j : nat) :
  (j < lo ∨ lo + n < j)%nat → shift_right_slots st lo n !! j = st !! j.
Proof.
  revert st. induction n as [|n IH]; intros st Hj; cbn [shift_right_slots]; [done|].
  rewrite IH by lia. by rewrite !list_lookup_insert_ne by lia.
Qed.

Lemma shift_right_slots_moved st (lo n j : nat) :
  (lo + n < length st)%nat → (lo < j ≤ lo + n)%nat →
  shift_right_slots st lo n !! j = st !! pred j.
Proof.
  revert st. induction n as [|n IH]; intros st Hlen Hj; [lia|].
  cbn [shift_right_slots].
  destruct (decide (j = lo + S n)%nat) as [->|Hne].
  - rewrite shift_right_slots_outside by lia.
    rewrite list_lookup_insert_ne by lia.
    rewrite list_lookup_insert_eq by lia.
    replace (pred (lo + S n)) with (lo + n)%nat by lia.
    destruct (lookup_lt_is_Some_2 st (lo + n)) as [v Hv]; [lia|]. by rewrite Hv.
  - rewrite IH by (rewrite ?length_insert; lia).
    by rewrite !list_lookup_insert_ne by lia.
Qed.




Lemma state_eta s :
  mkState (head_ s) (tail_ s) (size_ s) (mem s) (faults s) = s.
Proof. by destruct s. Qed.

Lemma run_shift_left p pv nx c st (lo n : nat) s :
  mem s !! p = Some (mkNode pv nx c st) →
  (1 ≤ lo)%nat → (lo + n ≤ length st)%nat → Z.of_nat (length st) ≤ NodeMaxSize →
  (∀ j : nat, (lo ≤ j < lo + n)%nat → ∃ x, st !! j = Some (Some x)) →
  for_up (λ i, x ← read_slot NodeMaxSize p i;
               construct_move NodeMaxSize p (i - 1) x;; destroy NodeMaxSize p i)
         (Z.of_nat lo) n s =
  Ret tt (mkState (head_ s) (tail_ s) (size_ s)
            (<[p := mkNode pv nx c (shift_left_slots st lo n)]> (mem s)) (faults s)).
Proof.
  revert s st lo. induction n as [|n IH]; intros s st lo Hp Hlo Hlen Hcap Hlive;
    cbn [for_up shift_left_slots].
  - rewrite insert_id by done. by rewrite state_eta.
  - destruct (Hlive lo) as [x Hx]; [lia|].
    eapply run_bind.
    { eapply run_bind; [eapply run_read_slot; [done|done|lia]|].
      eapply run_bind.
      - replace (Z.of_nat lo - 1) with (Z.of_nat (pred lo)) by lia.
        unfold construct_move. eapply run_put_slot; [done|cbn; lia|lia].
      - unfold destroy. eapply run_put_slot; cbn [mem];
          [apply lookup_insert_eq|cbn; rewrite length_insert; lia|lia]. }
    cbn [prev next count storage mem head_ tail_ size_ faults].
    replace (Z.of_nat lo + 1) with (Z.of_nat (S lo)) by lia.
    erewrite IH; cbn [mem head_ tail_ size_ faults].
    + rewrite !insert_insert_eq. rewrite Hx. done.
    + rewrite insert_insert_eq. apply lookup_insert_eq.
    + lia.
    + rewrite !length_insert. lia.
    + rewrite !length_insert. lia.
    + intros j Hj. rewrite !list_lookup_insert_ne by lia. apply Hlive. lia.
Qed.

Lemma run_shift_right_loop p pv nx c st (lo n : nat) s :
  no_throw (faults s) →
  mem s !! p = Some (mkNode pv nx c st) →
  (lo + n < length st)%nat → Z.of_nat (length st) ≤ NodeMaxSize →
  (∀ j : nat, (lo ≤ j < lo + n)%nat → ∃ x, st !! j = Some (Some x)) →
  for_down (λ i, x ← read_slot NodeMaxSize p (i - 1);
                 construct NodeMaxSize p i x;; destroy NodeMaxSize p (i - 1))
           (Z.of_nat lo) n s =
  Ret tt (mkState (head_ s) (tail_ s) (size_ s)
            (<[p := mkNode pv nx c (shift_right_slots st lo n)]> (mem s))
            (drop n (faults s))).
Proof.
  revert s st. induction n as [|n IH]; intros s st Hf Hp Hlen Hcap Hlive;
    cbn [for_down shift_right_slots].
  - rewrite insert_id by done. rewrite drop_0. by rewrite state_eta.
  - destruct (Hlive (lo + n)%nat) as [x Hx]; [lia|].
    replace (Z.of_nat lo + Z.of_nat (S n)) with (Z.of_nat (lo + S n)) by lia.
    replace (Z.of_nat (lo + S n) - 1) with (Z.of_nat (lo + n)) by lia.
    eapply run_bind.
    { eapply run_bind; [eapply run_read_slot; [done|done|lia]|].
      eapply run_bind.
      - eapply run_construct; [done|done|cbn; lia|lia].
      - unfold destroy. eapply run_put_slot; cbn [mem];
          [apply lookup_insert_eq|cbn; rewrite length_insert; lia|lia]. }
    cbn [prev next count storage mem head_ tail_ size_ faults].
    erewrite IH; cbn [mem head_ tail_ size_ faults].
    + rewrite !insert_insert_eq. rewrite Hx. rewrite drop_drop. done.
    + by apply no_throw_drop.
    + rewrite insert_insert_eq. apply lookup_insert_eq.
    + rewrite !length_insert. lia.
    + rewrite !length_insert. lia.
    + intros j Hj. rewrite !list_lookup_insert_ne by lia. apply Hlive. lia.
Qed.

End Execution.

(** Symbolic execution of one monadic step on an explicit state. *)
Ltac solve_lookup :=
  cbn [mem];
  repeat first [ rewrite lookup_insert_eq
               | rewrite lookup_insert_ne by congruence
               | rewrite lookup_delete_ne by congruence ];
  first [reflexivity | eassumption].

Ltac exec_step :=
  eapply run_bind;
  [ first [ eapply run_load; solve_lookup
          | eapply run_set_next; solve_lookup
          | eapply run_set_prev; solve_lookup
          | eapply run_set_count; solve_lookup
          | eapply run_inc_count; solve_lookup
          | eapply run_destroy_empty_node; [solve_lookup | done]
          | reflexivity ]
  | cbn [mem head_ tail_ size_ faults prev next count storage] ].


(** ** erase *)

Section Erase.

Context {T : Type}.
Variable NodeMaxSize : Z.

Implicit Types (h : gmap ptr (@Node T)) (nd : @Node T) (xs : list T).
Implicit Types (s : @state T) (st : list (option T)).
Implicit Types (segs : list (ptr * list T)).

Lemma holds_relink nd xs pv nx :
  holds NodeMaxSize nd xs →
  holds NodeMaxSize (mkNode pv nx (count nd) (storage nd)) xs.
Proof. done. Qed.

Lemma holds_erase pv nx c st xs (i : nat) :
  holds NodeMaxSize (mkNode pv nx c st) xs → (i < length xs)%nat → (2 ≤ length xs)%nat →
  holds NodeMaxSize
    (mkNode pv nx (Z.of_nat (length xs) - 1)
       (shift_left_slots (<[i := None]> st) (S i) (length xs - S i)))
    (delete i xs).
Proof.
  intros (Hc & Hl & Hn & Hs) Hi Hlen. cbn [count storage] in *.
  assert (length (delete i xs) = (length xs - 1)%nat) as Hdel.
  { pose proof (length_delete xs i (lookup_lt_is_Some_2 _ _ Hi)). lia. }
  split; [cbn; lia|]. split; [cbn; by rewrite shift_left_slots_length, length_insert|].
  split; [lia|]. intros j x Hx. cbn [storage].
  pose proof (lookup_lt_Some _ _ _ Hx) as Hj.
  destruct (decide (j < i)%nat) as [Hlt|Hge].
  - rewrite list_lookup_delete_lt in Hx by done.
    rewrite shift_left_slots_before by (cbn; lia).
    rewrite list_lookup_insert_ne by lia. by apply Hs.
  - rewrite list_lookup_delete_ge in Hx by lia.
    rewrite shift_left_slots_moved by (rewrite ?length_insert; cbn; lia).
    rewrite list_lookup_insert_ne by lia. by apply Hs.
Qed.

Lemma dseg_cur_in h pv cur segs last nxt :
  dseg NodeMaxSize h pv cur segs last nxt → segs ≠ [] →
  ∃ x, cur = Some x ∧ x ∈ segs.*1.
Proof.
  destruct segs as [|[p xs] segs]; [done|].
  intros (-> & _) _. exists p. split; [done|]. cbn. apply elem_of_cons. by left.
Qed.

Lemma dseg_last_in h pv cur segs last nxt :
  dseg NodeMaxSize h pv cur segs last nxt → segs ≠ [] →
  ∃ x, last = Some x ∧ x ∈ segs.*1.
Proof.
  destruct segs as [|ps segs _] using rev_ind; [done|].
  destruct ps as [p xs]. intros [-> _]%dseg_last _.
  exists p. split; [done|]. rewrite fmap_app. apply elem_of_app. right.
  cbn. apply elem_of_cons. by left.
Qed.

(** The node-local part of [erase]: destroy the victim, close the gap,
    decrement both counters. *)
Lemma run_erase_prefix {A} (k : M A) p pv nx st xs (i : nat) s :
  NodeMaxSize < size_modulus →
  mem s !! p = Some (mkNode pv nx (Z.of_nat (length xs)) st) →
  holds NodeMaxSize (mkNode pv nx (Z.of_nat (length xs)) st) xs →
  (i < length xs)%nat →
  Z.of_nat (length xs) ≤ size_ s < size_modulus →
  (destroy NodeMaxSize p (Z.of_nat i);;
   n ← load p;
   for_up (λ j, x ← read_slot NodeMaxSize p j;
                construct_move NodeMaxSize p (j - 1) x;; destroy NodeMaxSize p j)
          (wrap (Z.of_nat i + 1)) (Z.to_nat (count n - wrap (Z.of_nat i + 1)));;
   dec_count p;;
   dec_size;;
   k) s =
  k (mkState (head_ s) (tail_ s) (size_ s - 1)
       (<[p := mkNode pv nx (Z.of_nat (length xs) - 1)
                 (shift_left_slots (<[i := None]> st) (S i) (length xs - S i))]> (mem s))
       (faults s)).
Proof.
  intros Hfit Hp (Hc & Hl & Hn & Hs) Hi Hsz. cbn [count storage] in *.
  eapply run_bind.
  { unfold destroy. eapply run_put_slot; [done|cbn; lia|lia]. }
  cbn [prev next count storage].
  eapply run_bind.
  { eapply run_load. cbn [mem]. apply lookup_insert_eq. }
  cbn [count].
  rewrite wrap_small by lia.
  replace (Z.of_nat i + 1) with (Z.of_nat (S i)) by lia.
  replace (Z.to_nat (Z.of_nat (length xs) - Z.of_nat (S i))) with (length xs - S i)%nat by lia.
  eapply run_bind.
  { eapply run_shift_left; cbn [mem].
    - apply lookup_insert_eq.
    - lia.
    - rewrite length_insert. lia.
    - rewrite length_insert. lia.
    - intros j Hj. rewrite list_lookup_insert_ne by lia.
      destruct (lookup_lt_is_Some_2 xs j) as [x Hx]; [lia|]. eauto. }
  cbn [mem head_ tail_ size_ faults]. rewrite insert_insert_eq.
  eapply run_bind.
  { eapply run_dec_count. cbn [mem]. apply lookup_insert_eq. }
  cbn [mem head_ tail_ size_ faults prev next count storage]. rewrite insert_insert_eq.
  eapply run_bind; [reflexivity|].
  cbn [mem head_ tail_ size_ faults].
  rewrite !wrap_small by lia. done.
Qed.


Lemma fseg_insert_other h cur segs nxt p nd :
  p ∉ segs.*1 → fseg NodeMaxSize h cur segs nxt → fseg NodeMaxSize (<[p := nd]> h) cur segs nxt.
Proof.
  intros Hp. apply fseg_frame. intros q Hq.
  apply lookup_insert_ne. intros ->. done.
Qed.

Lemma fseg_delete_other h cur segs nxt p :
  p ∉ segs.*1 → fseg NodeMaxSize h cur segs nxt → fseg NodeMaxSize (delete p h) cur segs nxt.
Proof.
  intros Hp. apply fseg_frame. intros q Hq.
  apply lookup_delete_ne. intros ->. done.
Qed.

Lemma erase_at s segs1 p xs segs2 (i : nat) :
  wf NodeMaxSize s (segs1 ++ (p, xs) :: segs2) → (i < length xs)%nat →
  ∃ it' s',
    erase NodeMaxSize (mkIter (Some p) (Z.of_nat i)) s = Ret it' s' ∧
    size_ s' = size_ s - 1 ∧
    fseg NodeMaxSize (mem s') (head_ s')
      (if decide (length xs = 1%nat) then segs1 ++ segs2
       else segs1 ++ (p, delete i xs) :: segs2) None ∧
    advance (mem s') (cbegin s') (length (flat segs1) + i) = Some it' ∧
    (length xs = 1%nat → mem s' !! p = None) ∧
    (length xs ≠ 1%nat →
     ∃ nd', mem s' !! p = Some nd' ∧ count nd' = Z.of_nat (length xs) - 1).
Proof.
  intros (HC & Hd & Hnd & Hsz & Hszlt) Hi.
  destruct s as [hd tl sz h fs]. cbn [mem head_ tail_ size_ faults] in *.
  apply dseg_app in Hd as (ml & m & Hd1 & Hd2).
  pose proof (dseg_fseg _ _ _ _ _ _ _ Hd1) as Hf1.
  cbn [dseg] in Hd2. destruct Hd2 as (-> & nd & Hp & Hpv & Hh & Hd2).
  pose proof (dseg_fseg _ _ _ _ _ _ _ Hd2) as Hf2.
  destruct nd as [pv nx c st]. cbn [prev next] in *.
  pose proof Hh as (Hc & Hl & Hn & Hs). cbn [count storage] in Hc, Hl. subst c.
  rewrite fmap_app, fmap_cons in Hnd. cbn [fst] in Hnd.
  apply NoDup_app in Hnd as (Hnd1 & Hdisj & Hnd2).
  apply NoDup_cons in Hnd2 as [Hp2 Hnd2].
  assert (p ∉ segs1.*1) as Hp1.
  { intros Hin. apply (Hdisj _ Hin). apply elem_of_cons. by left. }
  rewrite flat_app, flat_cons, !length_app in Hsz.
  unfold erase. cbn [node_ index_].
  erewrite run_erase_prefix; [|lia|done|done|done|cbn [size_]; lia].
  cbn [mem head_ tail_ size_ faults].
  set (st' := shift_left_slots (<[i:=None]> st) (S i) (length xs - S i)).
  destruct (decide (length xs = 1%nat)) as [Hone|Hmany].
  - (* the node becomes empty and is unlinked *)
    rewrite Hone. change (Z.of_nat 1 - 1) with 0.
    assert (i = 0%nat) as -> by lia.
    destruct segs1 as [|[q ys] segs1 _] using rev_ind;
      [|destruct segs2 as [|[r zs] segs2]].
    + (* head node *)
      cbn [dseg] in Hd1. destruct Hd1 as [-> ->]. subst pv.
      destruct segs2 as [|[r zs] segs2].
      * cbn [dseg] in Hd2. destruct Hd2 as [-> ->].
        eexists _, _. split.
        { do 3 exec_step.
          rewrite decide_False by (intros (_ & ? & _); done).
          rewrite decide_True by done.
          do 3 exec_step. reflexivity. }
        cbn [mem head_ tail_ size_ faults app].
        split; [done|]. split; [by cbn|]. split; [by cbn|].
        split; [|done]. intros _. apply lookup_delete_eq.
      * cbn [dseg] in Hd2. destruct Hd2 as (-> & ndr & Hr & Hrp & Hrh & Hd2).
        assert (r ≠ p) as Hrp'.
        { intros ->. apply Hp2. cbn. apply elem_of_cons. by left. }
        cbn [fmap list_fmap fst] in Hnd2. apply NoDup_cons in Hnd2 as [Hr2 Hnd2].
        eexists _, _. split.
        { do 3 exec_step.
          rewrite decide_False by (intros (_ & ? & _); done).
          rewrite decide_True by done.
          do 3 exec_step. reflexivity. }
        cbn [mem head_ tail_ size_ faults app].
        split; [done|].
match goal with |- ?F ∧ _ => assert F as Hf end.
        { cbn [fseg]. split; [done|]. eexists. split; [solve_lookup|].
          split; [by apply holds_relink|]. cbn [next].
          apply fseg_delete_other.
          { intros Hin. apply Hp2. cbn. apply elem_of_cons. by right. }
          apply fseg_insert_other; [done|].
          apply fseg_insert_other.
          { intros Hin. apply Hp2. cbn. apply elem_of_cons. by right. }
          by eapply dseg_fseg. }
        split; [exact Hf|]. split.
        { rewrite cbegin_head. cbn [head_ mem flat app Nat.add].
          apply (advance_fseg NodeMaxSize ltac:(lia) _ _ [] r zs segs2 None 0); [done|].
          destruct Hrh as (_ & _ & ? & _). lia. }
        split; [|done]. intros _. apply lookup_delete_eq.
    + (* tail node, not the head *)
      apply dseg_app in Hd1 as (ml' & m' & Hd1 & Hdq).
      cbn [dseg] in Hdq. destruct Hdq as (-> & ndq & Hq & Hqp & Hqh & Hqn & ->). subst pv.
      cbn [dseg] in Hd2. destruct Hd2 as [-> ->].
      assert (q ≠ p) as Hqp'.
      { intros ->. apply Hp1. rewrite fmap_app. apply elem_of_app. right.
        cbn. apply elem_of_cons. by left. }
      assert (hd ≠ Some p) as Hhd.
      { destruct (dseg_cur_in h None hd (segs1 ++ [(q, ys)]) (Some q) (Some p))
          as (x & -> & Hx).
        - apply dseg_app. exists ml', (Some q). split; [done|]. cbn [dseg]. eauto 8.
        - by destruct segs1.
        - intros [= ->]. done. }
      rewrite fmap_app in Hnd1. apply NoDup_app in Hnd1 as (Hnd1 & Hdisj1 & _).
      assert (q ∉ segs1.*1) as Hq1.
      { intros Hin. apply (Hdisj1 _ Hin). cbn. apply elem_of_cons. by left. }
      eexists _, _. split.
      { do 3 exec_step.
        rewrite decide_False by (intros (_ & _ & ?); done).
        rewrite decide_False by (intros (_ & ?); congruence).
        rewrite decide_True by done.
        do 3 exec_step. reflexivity. }
      cbn [mem head_ tail_ size_ faults]. rewrite app_nil_r.
      split; [done|].
match goal with |- ?F ∧ _ => assert F as Hf end.
      { apply fseg_app. exists (Some q). split.
        - apply fseg_delete_other.
          { intros Hin. apply Hp1. rewrite fmap_app. apply elem_of_app. by left. }
          apply fseg_insert_other; [done|].
          apply fseg_insert_other.
          { intros Hin. apply Hp1. rewrite fmap_app. apply elem_of_app. by left. }
          by eapply dseg_fseg.
        - cbn [fseg]. split; [done|]. eexists. split; [solve_lookup|].
          split; [by apply holds_relink|]. done. }
      split; [exact Hf|]. split.
      { rewrite cbegin_head. cbn [head_ mem]. rewrite Nat.add_0_r.
        by apply (advance_fseg_end NodeMaxSize ltac:(lia) _ _ _ _ Hf). }
      split; [|done]. intros _. apply lookup_delete_eq.
    + (* interior node *)
      apply dseg_app in Hd1 as (ml' & m' & Hd1 & Hdq).
      cbn [dseg] in Hdq. destruct Hdq as (-> & ndq & Hq & Hqp & Hqh & Hqn & ->). subst pv.
      cbn [dseg] in Hd2. destruct Hd2 as (-> & ndr & Hr & Hrp & Hrh & Hd2).
      assert (q ≠ p) as Hqp'.
      { intros ->. apply Hp1. rewrite fmap_app. apply elem_of_app. right.
        cbn. apply elem_of_cons. by left. }
      assert (r ≠ p) as Hrp'.
      { intros ->. apply Hp2. cbn. apply elem_of_cons. by left. }
      assert (q ≠ r) as Hqr.
      { intros ->. eapply Hdisj.
        - rewrite fmap_app. apply elem_of_app. right. cbn. apply elem_of_cons. by left.
        - cbn. apply elem_of_cons. right. apply elem_of_cons. by left. }
      assert (hd ≠ Some p) as Hhd.
      { destruct (dseg_cur_in h None hd (segs1 ++ [(q, ys)]) (Some q) (Some p))
          as (x & -> & Hx).
        - apply dseg_app. exists ml', (Some q). split; [done|]. cbn [dseg]. eauto 8.
        - by destruct segs1.
        - intros [= ->]. done. }
      assert (tl ≠ Some p) as Htl.
      { destruct (dseg_last_in h (Some p) (Some r) ((r, zs) :: segs2) tl None)
          as (x & -> & Hx).
        - cbn [dseg]. split; [done|]. eauto 8.
        - done.
        - intros [= ->]. done. }
      cbn [fmap list_fmap fst] in Hnd2. apply NoDup_cons in Hnd2 as [Hr2 Hnd2].
      rewrite fmap_app in Hnd1. apply NoDup_app in Hnd1 as (Hnd1 & Hdisj1 & _).
      assert (q ∉ segs1.*1) as Hq1.
      { intros Hin. apply (Hdisj1 _ Hin). cbn. apply elem_of_cons. by left. }
      eexists _, _. split.
      { do 3 exec_step.
        rewrite decide_True by (split; [done|split; congruence]).
        do 3 exec_step. reflexivity. }
      cbn [mem head_ tail_ size_ faults].
      split; [done|].
match goal with |- ?F ∧ _ => assert F as Hf end.
      { apply fseg_app. exists (Some r). split.
        - apply fseg_app. exists (Some q). split.
          + apply fseg_delete_other.
            { intros Hin. apply Hp1. rewrite fmap_app. apply elem_of_app. by left. }
            apply fseg_insert_other.
            { intros Hin. eapply Hdisj.
              - rewrite fmap_app. apply elem_of_app. left. done.
              - cbn. apply elem_of_cons. right. apply elem_of_cons. by left. }
            apply fseg_insert_other; [done|].
            apply fseg_insert_other.
            { intros Hin. apply Hp1. rewrite fmap_app. apply elem_of_app. by left. }
            by eapply dseg_fseg.
          + cbn [fseg]. split; [done|]. eexists. split; [solve_lookup|].
            split; [by apply holds_relink|]. done.
        - cbn [fseg]. split; [done|]. eexists. split; [solve_lookup|].
          split; [by apply holds_relink|]. cbn [next].
          apply fseg_delete_other.
          { intros Hin. apply Hp2. cbn. apply elem_of_cons. by right. }
          apply fseg_insert_other; [done|].
          apply fseg_insert_other.
          { intros Hin. eapply Hdisj.
            - rewrite fmap_app. apply elem_of_app. right. cbn. apply elem_of_cons. by left.
            - cbn. apply elem_of_cons. right. apply elem_of_cons. by right. }
          apply fseg_insert_other.
          { intros Hin. apply Hp2. cbn. apply elem_of_cons. by right. }
          by eapply dseg_fseg. }
      split; [exact Hf|]. split.
      { rewrite cbegin_head. cbn [head_ mem].
        apply (advance_fseg NodeMaxSize ltac:(lia) _ _ _ r zs segs2 None 0); [done|].
        destruct Hrh as (_ & _ & ? & _). lia. }
      split; [|done]. intros _. apply lookup_delete_eq.
  - (* the node keeps at least one element *)
    assert (fseg NodeMaxSize
              (<[p:=mkNode pv nx (Z.of_nat (length xs) - 1) st']> h)
              hd (segs1 ++ (p, delete i xs) :: segs2) None) as Hf.
    { apply fseg_app. exists (Some p). split.
      - by apply fseg_insert_other.
      - cbn [fseg]. split; [done|]. eexists. split; [solve_lookup|].
        split; [apply (holds_erase pv nx (Z.of_nat (length xs)) st xs i); (done || lia)|]. cbn [next].
        by apply fseg_insert_other. }
    assert (length (delete i xs) = (length xs - 1)%nat) as Hdel.
    { pose proof (length_delete xs i (lookup_lt_is_Some_2 _ _ Hi)). lia. }
    destruct (decide (i = (length xs - 1)%nat)) as [Hlast|Hmid].
    + (* the victim was the last element of its node *)
      destruct segs2 as [|[r zs] segs2].
      * cbn [dseg] in Hd2. destruct Hd2 as [-> ->].
        eexists _, _. split.
        { do 3 exec_step.
          do 3 (rewrite decide_False by (intros (? & _); lia)).
          exec_step. rewrite decide_False by lia.
          rewrite decide_True by lia. reflexivity. }
        cbn [mem head_ tail_ size_ faults].
        split; [done|]. split; [exact Hf|]. split.
        { rewrite cbegin_head. cbn [head_ mem].
          pose proof (advance_fseg_end NodeMaxSize ltac:(lia) _ _ _ _ Hf) as Ha.
          rewrite flat_app, flat_cons, !length_app, Hdel in Ha.
          replace (length (flat segs1) + i)%nat
            with (length (flat segs1) + (length xs - 1 + length (@flat T [])))%nat
            by (cbn; lia).
          done. }
        split; [done|]. intros _. eexists. split; [solve_lookup|done].
      * cbn [dseg] in Hd2. destruct Hd2 as (-> & ndr & Hr & Hrp & Hrh & Hd2).
        eexists _, _. split.
        { do 3 exec_step.
          do 3 (rewrite decide_False by (intros (? & _); lia)).
          exec_step. rewrite decide_False by lia.
          rewrite decide_True by lia. reflexivity. }
        cbn [mem head_ tail_ size_ faults].
        split; [done|]. split; [exact Hf|]. split.
        { rewrite cbegin_head. cbn [head_ mem].
          pose proof Hf as Hf'.
          change ((p, delete i xs) :: (r, zs) :: segs2)
            with ([(p, delete i xs)] ++ (r, zs) :: segs2) in Hf'.
          rewrite app_assoc in Hf'.
          pose proof (advance_fseg NodeMaxSize ltac:(lia) _ _ _ _ _ _ _ 0 Hf') as Ha.
          rewrite flat_app, flat_cons, !length_app, Hdel in Ha.
          replace (length (flat segs1) + i)%nat
            with (length (flat segs1) + (length xs - 1 + length (@flat T [])) + 0)%nat
            by (cbn; lia).
          apply Ha. destruct Hrh as (_ & _ & ? & _). lia. }
        split; [done|]. intros _. eexists. split; [solve_lookup|done].
    + eexists _, _. split.
      { do 3 exec_step.
        do 3 (rewrite decide_False by (intros (? & _); lia)).
        exec_step. rewrite decide_False by lia.
        rewrite decide_False by lia. reflexivity. }
      cbn [mem head_ tail_ size_ faults].
      split; [done|]. split; [exact Hf|]. split.
      { rewrite cbegin_head. cbn [head_ mem].
        apply (advance_fseg NodeMaxSize ltac:(lia) _ _ _ p (delete i xs) segs2 None i);
          [done|lia]. }
      split; [done|]. intros _. eexists. split; [solve_lookup|done].
Qed.


Lemma flat_delete segs1 p xs segs2 (i : nat) :
  (i < length xs)%nat →
  delete (length (flat segs1) + i)%nat (flat (segs1 ++ (p, xs) :: segs2)) =
  flat (if decide (length xs = 1%nat) then segs1 ++ segs2
        else segs1 ++ (p, delete i xs) :: segs2).
Proof.
  intros Hi.
  assert (delete (length (flat segs1) + i)%nat (flat (segs1 ++ (p, xs) :: segs2)) =
          flat segs1 ++ delete i xs ++ flat segs2) as ->.
  { rewrite flat_app, flat_cons. rewrite !delete_take_drop.
    rewrite take_app_ge, drop_app_ge by lia.
    replace (length (flat segs1) + i - length (flat segs1))%nat with i by lia.
    replace (S (length (flat segs1) + i) - length (flat segs1))%nat with (S i) by lia.
    rewrite take_app_le, drop_app_le by lia.
    by rewrite <- !app_assoc. }
  case_decide as Hlen.
  - destruct xs as [|x [|? ?]]; try done. cbn in Hi.
    assert (i = 0%nat) as -> by lia. cbn. by rewrite flat_app.
  - by rewrite flat_app, flat_cons.
Qed.

End Erase.

(** ** insert into a full node *)

Section Insert.

Context {T : Type}.
Variable NodeMaxSize : Z.

Implicit Types (h : gmap ptr (@Node T)) (nd : @Node T) (xs ys : list T).
Implicit Types (s : @state T) (st src dst : list (option T)).
Implicit Types (segs : list (ptr * list T)).



Lemma run_shift_right p pv nx st (cnt lo : nat) s :
  no_throw (faults s) →
  mem s !! p = Some (mkNode pv nx (Z.of_nat cnt) st) →
  (lo ≤ cnt)%nat → (cnt < length st)%nat → Z.of_nat (length st) ≤ NodeMaxSize →
  (∀ j : nat, (lo ≤ j < cnt)%nat → ∃ x, st !! j = Some (Some x)) →
  shift_right NodeMaxSize p (Z.of_nat lo) s =
  Ret tt (mkState (head_ s) (tail_ s) (size_ s)
            (<[p := mkNode pv nx (Z.of_nat cnt) (shift_right_slots st lo (cnt - lo))]> (mem s))
            (drop (cnt - lo) (faults s))).
Proof.
  intros Hf Hp Hlo Hlen Hcap Hlive. unfold shift_right.
  eapply run_bind; [by apply run_load|]. cbn [count].
  replace (Z.to_nat (Z.of_nat cnt - Z.of_nat lo)) with (cnt - lo)%nat by lia.
  apply run_shift_right_loop; try done; try lia.
  intros j Hj. apply Hlive. lia.
Qed.

(** What a node holds after the shift and the construction of [insert]. *)
Lemma holds_insert pv nx st ys (i : nat) v :
  length st = Z.to_nat NodeMaxSize → (length ys < length st)%nat → (i ≤ length ys)%nat →
  (∀ (j : nat) x, ys !! j = Some x → st !! j = Some (Some x)) →
  holds NodeMaxSize
    (mkNode pv nx (Z.of_nat (length ys) + 1)
       (<[i := Some v]> (shift_right_slots st i (length ys - i))))
    (insert_at i v ys).
Proof.
  intros Hl Hlt Hi Hs.
  assert (length (insert_at i v ys) = S (length ys)) as Hlen.
  { unfold insert_at. rewrite length_app, length_take. cbn. rewrite length_drop. lia. }
  split; [cbn; lia|].
  split; [cbn; by rewrite length_insert, shift_right_slots_length|].
  split; [lia|]. intros j x Hx. cbn [storage].
  pose proof (lookup_lt_Some _ _ _ Hx) as Hj.
  unfold insert_at in Hx.
  destruct (decide (j = i)) as [->|Hne].
  - rewrite list_lookup_insert_eq by (rewrite shift_right_slots_length; lia).
    rewrite lookup_app_r in Hx by (rewrite length_take; lia).
    rewrite length_take in Hx. replace (i - i `min` length ys)%nat with 0%nat in Hx by lia.
    cbn in Hx. congruence.
  - rewrite list_lookup_insert_ne by done.
    destruct (decide (j < i)%nat) as [Hlt'|Hge].
    + rewrite lookup_app_l in Hx by (rewrite length_take; lia).
      rewrite lookup_take_lt in Hx by lia.
      rewrite shift_right_slots_outside by lia. by apply Hs.
    + rewrite lookup_app_r in Hx by (rewrite length_take; lia).
      rewrite length_take in Hx.
      rewrite lookup_cons_ne_0 in Hx by lia. rewrite lookup_drop in Hx.
      rewrite shift_right_slots_moved by lia.
      apply Hs. rewrite <- Hx. f_equal. lia.
Qed.

Lemma dseg_frame h h' pv cur segs last nxt :
  (∀ p, p ∈ segs.*1 → h' !! p = h !! p) →
  dseg NodeMaxSize h pv cur segs last nxt → dseg NodeMaxSize h' pv cur segs last nxt.
Proof.
  revert pv cur. induction segs as [|[p xs] segs IH]; intros pv cur Hsame; cbn [dseg]; [done|].
  intros (-> & nd & Hp & Hpv & Hh & Hrest). split; [done|].
  exists nd. split; [rewrite Hsame; [done|cbn; apply elem_of_cons; by left]|].
  split; [done|]. split; [done|]. apply IH; [|done].
  intros q Hq. apply Hsame. cbn. apply elem_of_cons. by right.
Qed.

Lemma dseg_insert_other h pv cur segs last nxt p nd :
  p ∉ segs.*1 → dseg NodeMaxSize h pv cur segs last nxt →
  dseg NodeMaxSize (<[p := nd]> h) pv cur segs last nxt.
Proof.
  intros Hp. apply dseg_frame. intros q Hq.
  apply lookup_insert_ne. intros ->. done.
Qed.

Lemma dseg_in_heap h pv cur segs last nxt p :
  dseg NodeMaxSize h pv cur segs last nxt → p ∈ segs.*1 → is_Some (h !! p).
Proof.
  revert pv cur. induction segs as [|[q xs] segs IH]; intros pv cur; cbn [dseg].
  - intros _ Hin. cbn in Hin. by apply elem_of_nil in Hin.
  - intros (-> & nd & Hq & _ & _ & Hrest) Hin. cbn in Hin.
    apply elem_of_cons in Hin as [->|Hin]; [eauto|]. eauto.
Qed.














(** The last steps of [insert] on the node that receives the value: shift
    the slots from [i] on, construct the value, count it. *)
Lemma run_place {A} (k : M A) t pv nx st ys (i : nat) v s :
  no_throw (faults s) →
  mem s !! t = Some (mkNode pv nx (Z.of_nat (length ys)) st) →
  length st = Z.to_nat NodeMaxSize → 0 < NodeMaxSize < size_modulus →
  (length ys < length st)%nat → (i ≤ length ys)%nat →
  (∀ (j : nat) x, ys !! j = Some x → st !! j = Some (Some x)) →
  (shift_right NodeMaxSize t (Z.of_nat i);;
   construct NodeMaxSize t (Z.of_nat i) v;;
   inc_count t;;
   k) s =
  k (mkState (head_ s) (tail_ s) (size_ s)
       (<[t := mkNode pv nx (Z.of_nat (length ys) + 1)
                 (<[i := Some v]> (shift_right_slots st i (length ys - i)))]> (mem s))
       (drop 1 (drop (length ys - i) (faults s)))).
Proof.
  intros Hnt Ht Hl HC Hlen Hi Hs.
  eapply run_bind.
  { eapply run_shift_right; [done|done|lia|lia|lia|].
    intros j Hj. destruct (lookup_lt_is_Some_2 ys j) as [x Hx]; [lia|]. eauto. }
  eapply run_bind.
  { eapply run_construct; cbn [mem faults];
      [by apply no_throw_drop|apply lookup_insert_eq|
       cbn [storage]; rewrite shift_right_slots_length; lia|lia]. }
  cbn [mem head_ tail_ size_ faults prev next count storage]. rewrite insert_insert_eq.
  eapply run_bind.
  { eapply run_inc_count. cbn [mem]. apply lookup_insert_eq. }
  cbn [mem head_ tail_ size_ faults prev next count storage]. rewrite insert_insert_eq.
  rewrite wrap_small by lia. done.
Qed.







End Insert.

(** ** insert into a node with spare capacity *)

Section InsertInPlace.

Context {T : Type}.
Variable NodeMaxSize : Z.

Implicit Types (h : gmap ptr (@Node T)) (nd : @Node T) (xs ys : list T).
Implicit Types (s : @state T) (st src dst : list (option T)).
Implicit Types (segs : list (ptr * list T)).



End InsertInPlace.

(** ** push_back when the construction throws *)

Section PushBack.

Context {T : Type}.
Variable NodeMaxSize : Z.

Implicit Types (h : gmap ptr (@Node T)) (nd : @Node T) (s : @state T).

Lemma run_bind_throw {A B} (m : M A) (f : A → M B) s s' :
  m s = Throw s' → (m ≫= f) s = Throw s'.
Proof. intros Hm. unfold mbind, M_bind. by rewrite Hm. Qed.

Lemma run_catch {A} (body handler : M A) s s' r :
  body s = Throw s' → handler s' = r → try_catch body handler s = r.
Proof. intros Hb Hh. unfold try_catch. by rewrite Hb. Qed.

Lemma run_construct_throw p (i : Z) (x : T) s fs :
  faults s = true :: fs →
  construct NodeMaxSize p i x s = Throw (with_faults fs s).
Proof.
  intros Hf. unfold construct.
  eapply run_bind; [unfold copy_throws; rewrite Hf; reflexivity|]. done.
Qed.

Lemma push_back_full_throw s t nd v fs :
  tail_ s = Some t → mem s !! t = Some nd → faults s = true :: fs →
  ¬ count nd < NodeMaxSize →
  push_back NodeMaxSize v s = Throw (with_faults fs s).
Proof.
  intros Ht Hnd Hf Hfull.
  destruct s as [hd tl sz h fs0]. cbn [mem head_ tail_ size_ faults] in *. subst tl fs0.
  unfold push_back.
  eapply run_bind; [reflexivity|]. cbn [tail_].
  eapply run_bind; [reflexivity|].
  eapply run_bind; [reflexivity|]. cbn [tail_].
  eapply run_bind; [reflexivity|].
  eapply run_bind; [by apply run_load|].
  rewrite decide_False by done.
  eapply run_bind; [apply run_create_node|].
  cbn [mem head_ tail_ size_ faults].
  assert (h !! fresh (dom h) = None) as Hfresh by (apply not_elem_of_dom, is_fresh).
  eapply run_catch.
  { apply run_bind_throw. by apply run_construct_throw. }
  unfold with_faults. cbn [mem head_ tail_ size_ faults].
  eapply run_bind.
  { eapply run_destroy_empty_node; cbn [mem]; [apply lookup_insert_eq|done]. }
  cbn [mem head_ tail_ size_ faults].
  rewrite delete_insert_id by done. done.
Qed.

(** [push_back] whose construction throws, with a tail node present.  With
    a full tail node the strong guarantee holds: the node created for the
    value is released again, and every member and the heap are as they
    were.  With room in the tail node nothing has changed when the handler
    starts, and what the call does from there is what its handler does: it
    runs the destructor on slot [count] of the tail node, the slot whose
    construction has just failed, and rethrows. *)
Theorem push_back_throw_outcome s t nd v fs :
  tail_ s = Some t → mem s !! t = Some nd → faults s = true :: fs →
  (¬ count nd < NodeMaxSize →
   push_back NodeMaxSize v s = Throw (with_faults fs s)) ∧
  (count nd < NodeMaxSize →
   push_back NodeMaxSize v s =
     (destroy NodeMaxSize t (count nd);; rethrow) (with_faults fs s)).
Proof.
  intros Ht Hnd Hf. split; [by eapply push_back_full_throw|].
  intros Hroom.
  destruct s as [hd tl sz h fs0]. cbn [mem head_ tail_ size_ faults] in *. subst tl fs0.
  unfold push_back.
  eapply run_bind; [reflexivity|]. cbn [tail_].
  eapply run_bind; [reflexivity|].
  eapply run_bind; [reflexivity|]. cbn [tail_].
  eapply run_bind; [reflexivity|].
  eapply run_bind; [by apply run_load|].
  rewrite decide_True by done.
  eapply run_catch; [|reflexivity].
  apply run_bind_throw. by apply run_construct_throw.
Qed.

End PushBack.

(** ** push_back, front and back *)

Section PushBackSpec.

Context {T : Type}.
Variable NodeMaxSize : Z.

Implicit Types (h : gmap ptr (@Node T)) (nd : @Node T) (xs ys : list T).
Implicit Types (s : @state T) (st : list (option T)).
Implicit Types (segs : list (ptr * list T)).

Lemma run_try {A} (body handler : M A) s a s' :
  body s = Ret a s' → try_catch body handler s = Ret a s'.
Proof. intros Hb. unfold try_catch. by rewrite Hb. Qed.

Lemma holds_append pv nx st xs (v : T) :
  length st = Z.to_nat NodeMaxSize → (length xs < length st)%nat →
  (∀ (j : nat) x, xs !! j = Some x → st !! j = Some (Some x)) →
  holds NodeMaxSize (mkNode pv nx (Z.of_nat (length xs) + 1) (<[length xs := Some v]> st))
    (xs ++ [v]).
Proof.
  intros Hl Hlt Hs.
  split; [cbn [count]; rewrite length_app; cbn; lia|].
  split; [cbn [storage]; by rewrite length_insert|].
  split; [rewrite length_app; cbn; lia|].
  intros j x Hx. cbn [storage].
  destruct (decide (j = length xs)) as [->|Hne].
  - rewrite list_lookup_insert_eq by lia.
    rewrite lookup_app_r in Hx by lia. rewrite Nat.sub_diag in Hx. cbn in Hx. congruence.
  - rewrite list_lookup_insert_ne by done.
    pose proof (lookup_lt_Some _ _ _ Hx) as Hj. rewrite length_app in Hj. cbn in Hj.
    rewrite lookup_app_l in Hx by lia. by apply Hs.
Qed.

Lemma holds_single pv nx (v : T) :
  0 < NodeMaxSize →
  holds NodeMaxSize
    (mkNode pv nx 1 (<[0%nat := Some v]> (replicate (Z.to_nat NodeMaxSize) None))) [v].
Proof.
  intros HC.
  split; [done|]. split; [cbn [storage]; by rewrite length_insert, length_replicate|].
  split; [cbn; lia|].
  intros j x Hx. cbn [storage].
  destruct j as [|j]; [|done]. cbn in Hx. injection Hx as <-.
  apply list_lookup_insert_eq. rewrite length_replicate. lia.
Qed.

Lemma dseg_in_dom h pv cur segs last nxt :
  dseg NodeMaxSize h pv cur segs last nxt → list_to_set (segs.*1) ⊆ dom h.
Proof.
  intros Hd p Hp%elem_of_list_to_set.
  apply elem_of_dom. by eapply dseg_in_heap.
Qed.

(** Only the next entry of the schedule matters to one construction. *)
Lemma run_construct_head p (i : nat) (x : T) nd s :
  no_throw (take 1 (faults s)) →
  mem s !! p = Some nd → (i < length (storage nd))%nat → Z.of_nat i < NodeMaxSize →
  construct NodeMaxSize p (Z.of_nat i) x s =
  Ret tt (mkState (head_ s) (tail_ s) (size_ s)
            (<[p := mkNode (prev nd) (next nd) (count nd) (<[i := Some x]> (storage nd))]> (mem s))
            (drop 1 (faults s))).
Proof.
  intros Hf H Hi Hc. unfold construct.
  destruct s as [hd tl sz h fs]. cbn [faults mem head_ tail_ size_] in *.
  destruct fs as [|b fs].
  - eapply run_bind; [reflexivity|]. cbn [drop]. by rewrite (run_put_slot NodeMaxSize p i _ nd).
  - cbn [take] in Hf. apply Forall_cons in Hf as [-> Hf].
    eapply run_bind; [reflexivity|]. cbn [drop]. by rewrite (run_put_slot NodeMaxSize p i _ nd).
Qed.

Lemma no_throw_take_le (m n : nat) fs :
  no_throw (take n fs) → (m ≤ n)%nat → no_throw (take m fs).
Proof.
  intros Hn Hle. replace m with (m `min` n)%nat by lia.
  rewrite <- take_take. by apply Forall_take.
Qed.

Lemma no_throw_take_drop (m n : nat) fs :
  no_throw (take (m + n) fs) → no_throw (take n (drop m fs)).
Proof. intros Hn. rewrite take_drop_commute. by apply Forall_drop. Qed.

Lemma front_back_wf s segs :
  wf NodeMaxSize s segs →
  front NodeMaxSize s = head (flat segs) ∧ back NodeMaxSize s = last (flat segs).
Proof.
  intros (HC & Hd & _). unfold front, back. split.
  - destruct segs as [|[p xs] segs].
    + cbn [dseg] in Hd. destruct Hd as [-> _]. done.
    + cbn [dseg] in Hd. destruct Hd as (-> & nd & Hp & _ & Hh & _).
      cbn [mbind option_bind]. rewrite Hp. cbn [mbind option_bind].
      rewrite flat_cons. pose proof Hh as (_ & _ & Hn & _).
      destruct xs as [|x xs]; [cbn in Hn; lia|]. cbn [app head].
      by apply (holds_slot NodeMaxSize nd (x :: xs) 0 x).
  - destruct segs as [|[p xs] segs _] using rev_ind.
    + cbn [dseg] in Hd. destruct Hd as [_ ->]. done.
    + apply dseg_app in Hd as (ml & m & _ & Hd).
      cbn [dseg] in Hd. destruct Hd as (_ & nd & Hp & _ & Hh & _ & ->).
      cbn [mbind option_bind]. rewrite Hp. cbn [mbind option_bind].
      pose proof Hh as (Hc & _ & Hn & _).
      rewrite flat_app, flat_cons. cbn [flat fmap list_fmap concat]. rewrite app_nil_r.
      rewrite last_app.
      destruct (last xs) as [x|] eqn:Hlast; [|apply last_None in Hlast; subst xs; cbn in Hn; lia].
      rewrite last_lookup in Hlast.
      rewrite Hc, wrap_small by lia.
      replace (Z.of_nat (length xs) - 1) with (Z.of_nat (pred (length xs))) by lia.
      by apply (holds_slot NodeMaxSize nd xs).
Qed.

Lemma push_back_run s segs v :
  wf NodeMaxSize s segs →
  no_throw (take 1 (faults s)) →
  size_ s + 1 < size_modulus →
  ∃ s' segs',
    push_back NodeMaxSize v s = Ret tt s' ∧
    wf NodeMaxSize s' segs' ∧
    flat segs' = flat segs ++ [v] ∧
    size s' = size s + 1 ∧
    back NodeMaxSize s' = Some v ∧
    faults s' = drop 1 (faults s) ∧
    dom (mem s') = dom (mem s) ∪ list_to_set (segs'.*1) ∧
    (∀ p, p ∉ segs.*1 → is_Some (mem s !! p) → mem s' !! p = mem s !! p) ∧
    (∀ p, p ∈ segs'.*1 → p ∈ segs.*1 ∨ mem s !! p = None) ∧
    match last segs with
    | Some (t, xs) =>
        if decide (Z.of_nat (length xs) < NodeMaxSize)
        then segs' = removelast segs ++ [(t, xs ++ [v])]
        else ∃ q, segs' = segs ++ [(q, [v])]
    | None => ∃ q, segs' = [(q, [v])]
    end.
Proof.
  intros (HC & Hd & Hnd & Hsz & Hszlt) Hnt Hroom.
  destruct s as [hd tl sz h fs]. cbn [mem head_ tail_ size_ faults size] in *.
  assert (h !! fresh (dom h) = None) as Hq by (apply not_elem_of_dom, is_fresh).
  remember (fresh (dom h)) as q eqn:Hqdef.
  unfold push_back.
  destruct segs as [|[t xs] segs1 _] using rev_ind.
  - (* the container is empty *)
    cbn [dseg] in Hd. destruct Hd as [-> ->].
    eexists _, [(q, [v])]. split.
    { eapply run_bind; [reflexivity|]. cbn [tail_].
      eapply run_bind.
      { eapply run_bind; [apply run_create_node|].
        cbn [mem head_ tail_ size_ faults]. rewrite <- Hqdef.
        eapply run_bind; reflexivity. }
      cbn [mem head_ tail_ size_ faults].
      do 2 exec_step. exec_step. cbn [count].
      rewrite decide_True by lia.
      apply run_try.
      eapply run_bind.
      { change 0 with (Z.of_nat 0).
        eapply run_construct_head; cbn [mem faults];
          [done|solve_lookup|cbn [storage]; rewrite length_replicate; lia|lia]. }
      cbn [mem head_ tail_ size_ faults prev next count storage].
      rewrite insert_insert_eq.
      exec_step. rewrite insert_insert_eq. reflexivity. }
    cbn [mem head_ tail_ size_ faults].
    rewrite !wrap_small by (cbn in Hsz; lia). change (Z.of_nat 0 + 1) with 1.
    match goal with |- ?W ∧ _ => assert W as Hwf' end.
    { split; [done|]. cbn [mem head_ tail_ size_]. split.
      { cbn [dseg]. split; [done|]. eexists. split; [solve_lookup|].
        split; [done|]. split; [apply holds_single; lia|]. done. }
      split; [apply NoDup_singleton|].
      cbn in Hsz. subst sz. split; [done|lia]. }
    split; [exact Hwf'|]. split; [done|]. split; [done|]. split.
    { by rewrite (proj2 (front_back_wf _ _ Hwf')). }
    split; [done|]. split.
    { rewrite dom_insert_L. cbn. set_solver. }
    split.
    { intros p _ [nd Hp]. apply lookup_insert_ne. intros <-. congruence. }
    split; [|cbn; eauto].
    intros p Hp. cbn in Hp. apply list_elem_of_singleton in Hp as ->. by right.
  - (* a tail node exists *)
    rewrite last_snoc.
    pose proof Hd as Hdall.
    apply dseg_app in Hd as (ml & m & Hd1 & Hd2).
    cbn [dseg] in Hd2. destruct Hd2 as (-> & nd & Ht & Hpv & Hh & Hnx & Htl).
    destruct nd as [pv nx c st]. cbn [prev next] in *. subst pv nx tl.
    pose proof Hh as (Hc & Hl & Hn & Hs). cbn [count storage] in Hc, Hl, Hs. subst c.
    rewrite fmap_app in Hnd. cbn [fmap list_fmap fst] in Hnd.
    pose proof Hnd as Hnd'.
    apply NoDup_app in Hnd' as (Hnd1 & Hdisj & _).
    assert (t ∉ segs1.*1) as Ht1.
    { intros Hin. apply (Hdisj _ Hin). apply elem_of_cons. by left. }
    assert (t ≠ q) as Htq by (intros ->; congruence).
    assert (q ∉ segs1.*1) as Hq1.
    { intros Hin. destruct (dseg_in_heap _ _ _ _ _ _ _ _ Hd1 Hin) as [? ?]. congruence. }
    rewrite flat_app, flat_cons, !length_app in Hsz. cbn [flat fmap list_fmap concat length] in Hsz.
    destruct (decide (Z.of_nat (length xs) < NodeMaxSize)) as [Hspare|Hfull].
    + (* room in the tail node *)
      eexists _, (segs1 ++ [(t, xs ++ [v])]). split.
      { do 4 exec_step. exec_step. cbn [count].
        rewrite decide_True by lia.
        apply run_try.
        eapply run_bind.
        { eapply run_construct_head; cbn [mem faults]; [done|solve_lookup|cbn [storage]; lia|lia]. }
        cbn [mem head_ tail_ size_ faults prev next count storage].
        exec_step. rewrite insert_insert_eq. reflexivity. }
      cbn [mem head_ tail_ size_ faults].
      rewrite !wrap_small by lia.
      match goal with |- ?W ∧ _ => assert W as Hwf' end.
      { split; [done|]. cbn [mem head_ tail_ size_]. split.
        { apply dseg_app. exists ml, (Some t). split; [by apply dseg_insert_other|].
          cbn [dseg]. split; [done|]. eexists. split; [solve_lookup|].
          split; [done|]. split; [apply holds_append; (done || lia)|]. done. }
        split; [by rewrite fmap_app|].
        rewrite flat_app, flat_cons, !length_app. cbn [flat fmap list_fmap concat length].
        split; lia. }
      split; [exact Hwf'|].
      match goal with |- ?F ∧ _ => assert F as HFLAT end.
      { rewrite !flat_app, !flat_cons. cbn [flat fmap list_fmap concat].
        by rewrite !app_nil_r, app_assoc. }
      split; [exact HFLAT|]. split; [done|]. split.
      { rewrite (proj2 (front_back_wf _ _ Hwf')), HFLAT. apply last_snoc. }
      split; [done|]. split.
      { pose proof (dseg_in_dom _ _ _ _ _ _ Hdall) as Hsub.
        rewrite fmap_app in Hsub |- *. cbn [fmap list_fmap fst] in Hsub |- *.
        rewrite dom_insert_L. set_solver. }
      split.
      { intros p Hp _. apply lookup_insert_ne. intros <-. apply Hp.
        rewrite fmap_app. apply elem_of_app. right. cbn. apply elem_of_cons. by left. }
      split; [|by rewrite removelast_last].
      intros p Hp. left. by rewrite fmap_app in *.
    + (* the tail node is full *)
      eexists _, ((segs1 ++ [(t, xs)]) ++ [(q, [v])]). split.
      { do 4 exec_step. exec_step. cbn [count].
        rewrite decide_False by lia.
        eapply run_bind; [apply run_create_node|].
        cbn [mem head_ tail_ size_ faults]. rewrite <- Hqdef.
        apply run_try.
        eapply run_bind.
        { change 0 with (Z.of_nat 0).
          eapply run_construct_head; cbn [mem faults];
            [done|solve_lookup|cbn [storage]; rewrite length_replicate; lia|lia]. }
        cbn [mem head_ tail_ size_ faults prev next count storage].
        do 4 exec_step. reflexivity. }
      cbn [mem head_ tail_ size_ faults].
      rewrite !wrap_small by lia.
      match goal with |- ?W ∧ _ => assert W as Hwf' end.
      { split; [done|]. cbn [mem head_ tail_ size_]. split.
        { apply dseg_app. exists (Some t), (Some q). split.
          - apply dseg_app. exists ml, (Some t).
            split; [do 5 (apply dseg_insert_other; [assumption|]); exact Hd1|].
            cbn [dseg]. split; [done|]. eexists. split; [solve_lookup|].
            split; [done|]. split; [done|]. done.
          - cbn [dseg]. split; [done|]. eexists. split; [solve_lookup|].
            split; [done|]. split; [apply holds_single; lia|]. done. }
        split.
        { rewrite !fmap_app. cbn [fmap list_fmap fst]. apply NoDup_app.
          split; [done|]. split; [|apply NoDup_singleton].
          intros p Hp Hp'%list_elem_of_singleton. subst p.
          apply elem_of_app in Hp as [Hp|Hp]; [done|].
          apply list_elem_of_singleton in Hp. congruence. }
        rewrite !flat_app, !flat_cons, !length_app. cbn [flat fmap list_fmap concat length].
        split; lia. }
      split; [exact Hwf'|].
      match goal with |- ?F ∧ _ => assert F as HFLAT end.
      { rewrite !flat_app, !flat_cons. cbn [flat fmap list_fmap concat].
        by rewrite !app_nil_r. }
      split; [exact HFLAT|]. split; [done|]. split.
      { rewrite (proj2 (front_back_wf _ _ Hwf')), HFLAT. apply last_snoc. }
      split; [done|]. split.
      { pose proof (dseg_in_dom _ _ _ _ _ _ Hdall) as Hsub.
        rewrite !fmap_app in Hsub |- *. cbn [fmap list_fmap fst] in Hsub |- *.
        rewrite !dom_insert_L. set_solver. }
      split.
      { intros p Hp [ndp Hndp].
        assert (p ≠ t).
        { intros ->. apply Hp. rewrite fmap_app. apply elem_of_app. right.
          cbn. apply elem_of_cons. by left. }
        assert (p ≠ q) by (intros ->; congruence).
        by rewrite !lookup_insert_ne by done. }
      split; [|eauto].
      intros p Hp. rewrite fmap_app in Hp. apply elem_of_app in Hp as [Hp|Hp]; [by left|].
      cbn in Hp. apply list_elem_of_singleton in Hp as ->. by right.
Qed.

(** On a well-formed container [front()] and [back()] are the first and
    the last element that iteration visits (none when it is empty, where
    the C++ calls dereference a null pointer). *)
Theorem front_back_spec s segs :
  wf NodeMaxSize s segs →
  front NodeMaxSize s = head (flat segs) ∧ back NodeMaxSize s = last (flat segs).
Proof. apply front_back_wf. Qed.

(** What [push_back] does when the construction of the value does not
    throw: the value becomes
    the last element; a node is allocated exactly when the container is
    empty or its tail node is full; nodes outside the chain are left
    alone. *)
Theorem push_back_spec s segs v :
  wf NodeMaxSize s segs →
  no_throw (take 1 (faults s)) →
  size_ s + 1 < size_modulus →
  ∃ s' segs',
    push_back NodeMaxSize v s = Ret tt s' ∧
    wf NodeMaxSize s' segs' ∧
    flat segs' = flat segs ++ [v] ∧
    size s' = size s + 1 ∧
    back NodeMaxSize s' = Some v ∧
    faults s' = drop 1 (faults s) ∧
    dom (mem s') = dom (mem s) ∪ list_to_set (segs'.*1) ∧
    (∀ p, p ∉ segs.*1 → is_Some (mem s !! p) → mem s' !! p = mem s !! p) ∧
    (∀ p, p ∈ segs'.*1 → p ∈ segs.*1 ∨ mem s !! p = None) ∧
    match last segs with
    | Some (t, xs) =>
        if decide (Z.of_nat (length xs) < NodeMaxSize)
        then segs' = removelast segs ++ [(t, xs ++ [v])]
        else ∃ q, segs' = segs ++ [(q, [v])]
    | None => ∃ q, segs' = [(q, [v])]
    end.
Proof. apply push_back_run. Qed.

End PushBackSpec.

(** ** The constructors that fill a container by push_back *)

Section Construction.


Context {T : Type}.
Variable NodeMaxSize : Z.

Implicit Types (h : gmap ptr (@Node T)) (nd : @Node T) (xs ys : list T).
Implicit Types (s : @state T) (st : list (option T)).
Implicit Types (segs : list (ptr * list T)).

Lemma packed_nil : packed NodeMaxSize (@nil (ptr * list T)).
Proof. intros i p xs Hi. done. Qed.

Lemma packed_snoc segs p xs :
  packed NodeMaxSize (segs ++ [(p, xs)]) ↔
  ∀ q ys, (q, ys) ∈ segs → Z.of_nat (length ys) = NodeMaxSize.
Proof.
  split.
  - intros Hp q ys [i Hi]%list_elem_of_lookup.
    apply (Hp i q ys).
    + by rewrite lookup_app_l by (by eapply lookup_lt_Some).
    + rewrite length_app. cbn. apply lookup_lt_Some in Hi. lia.
  - intros Hall i q ys Hi Hlt. rewrite length_app in Hlt. cbn in Hlt.
    rewrite lookup_app_l in Hi by lia.
    apply (Hall q ys). by eapply list_elem_of_lookup_2.
Qed.

Lemma flat_snoc segs p xs : flat (segs ++ [(p, xs)]) = flat segs ++ xs.
Proof. rewrite flat_app, flat_cons. cbn. by rewrite app_nil_r. Qed.

Lemma packed_length segs p xs :
  packed NodeMaxSize (segs ++ [(p, xs)]) →
  Z.of_nat (length (flat (segs ++ [(p, xs)]))) =
    Z.of_nat (length segs) * NodeMaxSize + Z.of_nat (length xs).
Proof.
  intros Hp. pose proof (proj1 (packed_snoc _ _ _) Hp) as Hp'. clear Hp. rename Hp' into Hp. rewrite flat_snoc, length_app, Nat2Z.inj_add. f_equal.
  induction segs as [|[q ys] segs IH]; [done|].
  rewrite flat_cons, length_app. cbn [length].
  rewrite Nat2Z.inj_add, Nat2Z.inj_succ, IH.
  - rewrite (Hp q ys) by apply list_elem_of_here. lia.
  - intros q' ys' Hin. apply (Hp q' ys'). by apply list_elem_of_further.
Qed.

Lemma push_back_many s segs il :
  wf NodeMaxSize s segs → no_throw (take (length il) (faults s)) →
  size_ s + Z.of_nat (length il) < size_modulus →
  ∃ s' segs',
    from_list NodeMaxSize il s = Ret tt s' ∧
    wf NodeMaxSize s' segs' ∧
    flat segs' = flat segs ++ il ∧
    faults s' = drop (length il) (faults s) ∧
    (packed NodeMaxSize segs → packed NodeMaxSize segs') ∧
    (dom (mem s) = list_to_set (segs.*1) → dom (mem s') = list_to_set (segs'.*1)).
Proof.
  revert s segs. induction il as [|v il IH]; intros s segs Hwf Hnt Hsz.
  - exists s, segs. cbn [from_list]. rewrite app_nil_r, drop_0. done.
  - cbn [length] in Hsz. rewrite Nat2Z.inj_succ in Hsz.
    destruct (push_back_run NodeMaxSize s segs v Hwf
                (no_throw_take_le 1 _ _ Hnt ltac:(cbn; lia)) ltac:(lia))
      as (s1 & segs1 & Hrun & Hwf1 & Hflat1 & Hsize1 & _ & Hf1 & Hdom1 & _ & _ & Hshape).
    unfold size in Hsize1.
    destruct (IH s1 segs1 Hwf1) as (s' & segs' & Hrun' & Hwf' & Hflat' & Hf' & Hpk' & Hdom').
    { rewrite Hf1. by apply (no_throw_take_drop 1). }
    { lia. }
    exists s', segs'. split_and!.
    + cbn [from_list]. eapply run_bind; [exact Hrun|exact Hrun'].
    + done.
    + rewrite Hflat', Hflat1, <- app_assoc. done.
    + rewrite Hf', Hf1, drop_drop. done.
    + intros Hpk. apply Hpk'. clear Hpk' Hdom' IH.
      destruct segs as [|[t xs] segs _] using rev_ind.
      * cbn in Hshape. destruct Hshape as [q ->]. apply (packed_snoc []). intros ?? Hin.
        by apply elem_of_nil in Hin.
      * rewrite last_snoc in Hshape. destruct (decide _) as [Hroom|Hfull].
        -- rewrite removelast_last in Hshape. subst segs1.
           apply packed_snoc. exact (proj1 (packed_snoc _ _ _) Hpk).
        -- destruct Hshape as [q ->]. apply packed_snoc.
           intros q' ys [Hin|Hin]%elem_of_app.
           ++ by apply (proj1 (packed_snoc _ _ _) Hpk q' ys).
           ++ apply list_elem_of_singleton in Hin. injection Hin as -> ->.
              destruct Hwf as (HC & Hd & _).
              apply dseg_app in Hd as (ml & m & _ & Hd).
              cbn [dseg] in Hd. destruct Hd as (_ & nd & _ & _ & Hh & _).
              destruct Hh as (_ & _ & Hn & _). lia.
    + intros Hdom. apply Hdom'. rewrite Hdom1, Hdom.
      assert (segs.*1 ⊆ segs1.*1) as Hsub.
      { destruct (last segs) as [[t xs]|] eqn:Hlast.
        - apply last_Some in Hlast as [l' ->].
          destruct (decide _).
          + subst segs1. rewrite removelast_last, !fmap_app. done.
          + destruct Hshape as [q ->]. rewrite (fmap_app _ (_ ++ _)).
            by apply sublist_subseteq, sublist_inserts_r.
        - apply last_None in Hlast as ->. intros x Hx. by apply elem_of_nil in Hx. }
      apply set_eq. intros x. rewrite elem_of_union, !elem_of_list_to_set. naive_solver.
Qed.


Lemma new_list_wf fs :
  0 < NodeMaxSize < size_modulus → wf NodeMaxSize (@new_list T fs) [].
Proof.
  intros HC. split; [done|]. split; [done|]. split; [constructor|].
  split; [done|]. cbn. unfold size_modulus. lia.
Qed.

Lemma packed_nodes s segs :
  wf NodeMaxSize s segs → packed NodeMaxSize segs →
  Z.of_nat (length segs) =
    (Z.of_nat (length (flat segs)) + NodeMaxSize - 1) / NodeMaxSize.
Proof.
  intros (HC & Hd & _) Hpk.
  destruct segs as [|[p xs] segs _] using rev_ind.
  - cbn. symmetry. apply Z.div_small. lia.
  - rewrite (packed_length _ _ _ Hpk), length_app. cbn [length].
    apply dseg_app in Hd as (ml & m & _ & Hd).
    cbn [dseg] in Hd. destruct Hd as (_ & nd & _ & _ & (_ & _ & Hn & _) & _).
    replace (Z.of_nat (length segs) * NodeMaxSize + Z.of_nat (length xs) + NodeMaxSize - 1)
      with ((Z.of_nat (length xs) - 1) + (Z.of_nat (length segs) + 1) * NodeMaxSize) by lia.
    rewrite Z.div_add by lia. rewrite Z.div_small by lia. lia.
Qed.

Lemma built_from_empty il fs :
  0 < NodeMaxSize < size_modulus → no_throw (take (length il) fs) →
  Z.of_nat (length il) < size_modulus →
  ∃ s' segs',
    from_list NodeMaxSize il (new_list fs) = Ret tt s' ∧
    wf NodeMaxSize s' segs' ∧
    flat segs' = il ∧
    visits NodeMaxSize s' il ∧
    size s' = Z.of_nat (length il) ∧
    faults s' = drop (length il) fs ∧
    packed NodeMaxSize segs' ∧
    dom (mem s') = list_to_set (segs'.*1) ∧
    Z.of_nat (length segs') = (Z.of_nat (length il) + NodeMaxSize - 1) / NodeMaxSize.
Proof.
  intros HC Hnt Hlen.
  destruct (push_back_many (new_list fs) [] il (new_list_wf fs HC) Hnt Hlen)
    as (s' & segs' & Hrun & Hwf & Hflat & Hf & Hpk & Hdom).
  cbn in Hflat. specialize (Hpk packed_nil).
  specialize (Hdom ltac:(cbn; by rewrite dom_empty_L)).
  exists s', segs'. split_and!; try done.
  - rewrite <- Hflat. by apply wf_visits.
  - destruct Hwf as (_ & _ & _ & Hsz & _). unfold size. by rewrite Hsz, Hflat.
  - rewrite <- Hflat. by eapply packed_nodes.
Qed.

Lemma fill_from_list (n : nat) (v : T) s :
  fill NodeMaxSize n v s = from_list NodeMaxSize (replicate n v) s.
Proof.
  revert s. induction n as [|n IH]; intros s; [done|].
  cbn [fill replicate from_list]. unfold mbind, M_bind.
  destruct (push_back NodeMaxSize v s); auto.
Qed.

(** The initializer-list constructor, when none of its constructions
    throws: the
    container is well formed and iteration visits the values in the order
    given; every node but the last is full, so [⌈n / NodeMaxSize⌉] nodes are
    allocated, and the heap holds no node besides those of the chain. *)
Theorem initializer_list_ctor_spec il fs :
  0 < NodeMaxSize < size_modulus → no_throw (take (length il) fs) →
  Z.of_nat (length il) < size_modulus →
  ∃ s' segs',
    from_list NodeMaxSize il (new_list fs) = Ret tt s' ∧
    wf NodeMaxSize s' segs' ∧
    visits NodeMaxSize s' il ∧
    size s' = Z.of_nat (length il) ∧
    packed NodeMaxSize segs' ∧
    dom (mem s') = list_to_set (segs'.*1) ∧
    Z.of_nat (length segs') = (Z.of_nat (length il) + NodeMaxSize - 1) / NodeMaxSize.
Proof.
  intros HC Hnt Hlen.
  destruct (built_from_empty il fs HC Hnt Hlen)
    as (s' & segs' & ? & ? & ? & ? & ? & ? & ? & ? & ?).
  by exists s', segs'.
Qed.

(** The fill constructor [unrolled_list(n, value)], when no construction
    throws: [n] copies of the value, [size() = n], in [⌈n / NodeMaxSize⌉] nodes. *)
Theorem fill_ctor_spec (n : Z) (v : T) fs :
  0 < NodeMaxSize < size_modulus → no_throw (take (Z.to_nat n) fs) →
  0 ≤ n < size_modulus →
  ∃ s' segs',
    fill_ctor NodeMaxSize n v (new_list fs) = Ret tt s' ∧
    wf NodeMaxSize s' segs' ∧
    visits NodeMaxSize s' (replicate (Z.to_nat n) v) ∧
    size s' = n ∧
    Z.of_nat (length segs') = (n + NodeMaxSize - 1) / NodeMaxSize.
Proof.
  intros HC Hnt Hn.
  destruct (built_from_empty (replicate (Z.to_nat n) v) fs HC)
    as (s' & segs' & Hrun & Hwf & _ & Hv & Hsz & _ & _ & _ & Hnodes).
  { by rewrite length_replicate. }
  { rewrite length_replicate. lia. }
  rewrite length_replicate, Z2Nat.id in * by lia.
  exists s', segs'. split_and!; try done.
  unfold fill_ctor. by rewrite fill_from_list.
Qed.

End Construction.

(** ** Insertion at the end sentinel *)

Section InsertAtEnd.

Context {T : Type}.
Variable NodeMaxSize : Z.

Implicit Types (h : gmap ptr (@Node T)) (nd : @Node T) (xs ys : list T).
Implicit Types (s : @state T) (st : list (option T)).
Implicit Types (segs : list (ptr * list T)).

(** The cursor at the last element of a well-formed, non-empty container. *)
Lemma last_cursor s segs ys v :
  wf NodeMaxSize s segs → flat segs = ys ++ [v] →
  ∃ t nd,
    tail_ s = Some t ∧ mem s !! t = Some nd ∧
    let it := mkIter (Some t) (wrap (count nd - 1)) in
    advance (mem s) (cbegin s) (length ys) = Some it ∧
    iter_deref NodeMaxSize (mem s) it = Some v ∧
    iter_inc (mem s) it = Some cend.
Proof.
  intros Hwf Hflat. pose proof (wf_fseg _ _ _ Hwf) as Hfs.
  destruct Hwf as (HC & Hd & _).
  destruct segs as [|[t xs] segs _] using rev_ind.
  { cbn in Hflat. by destruct ys. }
  pose proof Hd as Hd'.
  apply dseg_app in Hd' as (ml & m & _ & Hd').
  cbn [dseg] in Hd'. destruct Hd' as (_ & nd & Ht & _ & Hh & Hnx & Htl).
  exists t, nd. split; [done|]. split; [done|].
  pose proof Hh as (Hc & _ & Hn & _).
  destruct xs as [|x xs _] using rev_ind; [cbn in Hn; lia|].
  rewrite flat_app, flat_cons in Hflat. cbn [flat fmap list_fmap concat] in Hflat.
  rewrite app_nil_r, app_assoc in Hflat.
  apply app_inj_tail in Hflat as [<- ->].
  rewrite length_app in Hc, Hn. cbn [length] in Hc, Hn.
  rewrite Hc, (wrap_small (_ - 1)) by (unfold size_modulus in *; lia).
  replace (Z.of_nat (length xs + 1) - 1) with (Z.of_nat (length xs)) by lia.
  cbn zeta. split_and!.
  - rewrite cbegin_head, length_app.
    by apply (advance_fseg NodeMaxSize (proj2 HC) _ _ segs t (xs ++ [v]) [] None);
      [|rewrite length_app; cbn; lia].
  - rewrite (deref_in_node NodeMaxSize (mem s) t nd (xs ++ [v])) by
      (done || rewrite length_app; cbn; lia).
    by rewrite lookup_app_r, Nat.sub_diag by lia.
  - rewrite (inc_leaves_node NodeMaxSize (proj2 HC) (mem s) t nd (xs ++ [v])) by
      (done || rewrite length_app; cbn; lia).
    by rewrite Hnx.
Qed.

Lemma insert_end_run s segs v :
  wf NodeMaxSize s segs →
  no_throw (faults s) →
  size_ s + 1 < size_modulus →
  ∃ s' segs' it,
    insert NodeMaxSize cend v s = Ret it s' ∧
    push_back NodeMaxSize v s = Ret tt s' ∧
    wf NodeMaxSize s' segs' ∧
    flat segs' = flat segs ++ [v] ∧
    faults s' = drop 1 (faults s) ∧
    advance (mem s') (cbegin s') (length (flat segs)) = Some it ∧
    iter_deref NodeMaxSize (mem s') it = Some v ∧
    iter_inc (mem s') it = Some cend.
Proof.
  intros Hwf Hnt Hroom.
  destruct (push_back_run NodeMaxSize s segs v Hwf (Forall_take _ 1%nat _ Hnt) Hroom)
    as (s' & segs' & Hrun & Hwf' & Hflat & _ & _ & Hf & _).
  destruct (last_cursor s' segs' (flat segs) v Hwf' Hflat)
    as (t & nd & Htl & Ht & Hadv & Hderef & Hinc).
  exists s', segs', (mkIter (Some t) (wrap (count nd - 1))).
  split_and!; try done.
  unfold insert. cbn [node_ cend].
  eapply run_bind; [exact Hrun|].
  eapply run_bind; [reflexivity|]. rewrite Htl.
  eapply run_bind; [reflexivity|].
  eapply run_bind; [by apply run_load|]. done.
Qed.

Lemma insert_n_end_run (n : nat) s segs v ret :
  wf NodeMaxSize s segs →
  no_throw (faults s) →
  size_ s + Z.of_nat n < size_modulus →
  ∃ s' segs' it,
    insert_n_loop NodeMaxSize cend n v ret s = Ret it s' ∧
    from_list NodeMaxSize (replicate n v) s = Ret tt s' ∧
    wf NodeMaxSize s' segs' ∧
    flat segs' = flat segs ++ replicate n v ∧
    (n = 0%nat → it = ret) ∧
    ((0 < n)%nat →
       advance (mem s') (cbegin s') (length (flat segs) + n - 1) = Some it ∧
       iter_deref NodeMaxSize (mem s') it = Some v ∧
       iter_inc (mem s') it = Some cend).
Proof.
  revert s segs ret. induction n as [|n IH]; intros s segs ret Hwf Hnt Hroom.
  - exists s, segs, ret. cbn [insert_n_loop replicate from_list].
    rewrite app_nil_r. split_and!; try done. lia.
  - rewrite Nat2Z.inj_succ in Hroom.
    destruct (insert_end_run s segs v Hwf Hnt ltac:(lia))
      as (s1 & segs1 & it1 & Hrun1 & Hpb1 & Hwf1 & Hflat1 & Hf1 & Hadv1 & Hderef1 & Hinc1).
    assert (size_ s1 = size_ s + 1) as Hsz1.
    { destruct Hwf as (_ & _ & _ & Hs & _). destruct Hwf1 as (_ & _ & _ & Hs1 & _).
      rewrite Hs, Hs1, Hflat1, length_app. cbn. lia. }
    destruct (IH s1 segs1 it1 Hwf1) as (s' & segs' & it & Hrun & Hfl & Hwf' & Hflat' & H0 & Hpos).
    { rewrite Hf1. by apply no_throw_drop. }
    { lia. }
    exists s', segs', it. split_and!.
    + cbn [insert_n_loop]. eapply run_bind; [exact Hrun1|exact Hrun].
    + cbn [replicate from_list]. eapply run_bind; [exact Hpb1|exact Hfl].
    + done.
    + rewrite Hflat', Hflat1, <- app_assoc. done.
    + done.
    + intros _. destruct n as [|n].
      * specialize (H0 eq_refl) as ->.
        cbn [insert_n_loop] in Hrun. injection Hrun as <-.
        replace (length (flat segs) + 1 - 1)%nat with (length (flat segs)) by lia. done.
      * destruct Hpos as (Hadv & Hderef & Hinc); [lia|].
        split_and!; try done.
        rewrite Hflat1, length_app in Hadv. cbn [length] in Hadv.
        replace (length (flat segs) + S (S n) - 1)%nat
          with (length (flat segs) + 1 + S n - 1)%nat by lia. done.
Qed.

(** Inserting at the end sentinel is [push_back]: when no construction
    throws, the value becomes the last element and the returned cursor is
    the one at that element, one increment before [end()]. *)
Theorem insert_at_end_spec s segs v :
  wf NodeMaxSize s segs →
  no_throw (faults s) →
  size_ s + 1 < size_modulus →
  ∃ s' segs' it,
    insert NodeMaxSize cend v s = Ret it s' ∧
    push_back NodeMaxSize v s = Ret tt s' ∧
    wf NodeMaxSize s' segs' ∧
    flat segs' = flat segs ++ [v] ∧
    advance (mem s') (cbegin s') (length (flat segs)) = Some it ∧
    iter_deref NodeMaxSize (mem s') it = Some v ∧
    iter_inc (mem s') it = Some cend.
Proof.
  intros Hwf Hnt Hroom.
  destruct (insert_end_run s segs v Hwf Hnt Hroom)
    as (s' & segs' & it & ? & ? & ? & ? & ? & ? & ? & ?).
  by exists s', segs', it.
Qed.

(** [insert(end(), n, value)] appends [n] copies of the value when no
    construction throws: at the end sentinel the cursor the loop reuses
    stays valid.  The cursor returned is the one at the last copy; for
    [n = 0] it is a default-constructed iterator, which equals [end()]. *)
Theorem insert_n_at_end_spec (n : Z) s segs v :
  wf NodeMaxSize s segs →
  no_throw (faults s) →
  0 ≤ n → size_ s + n < size_modulus →
  ∃ s' segs' it,
    insert_n NodeMaxSize cend n v s = Ret it s' ∧
    wf NodeMaxSize s' segs' ∧
    flat segs' = flat segs ++ replicate (Z.to_nat n) v ∧
    (n = 0 → it = cend ∧ s' = s) ∧
    (0 < n →
       advance (mem s') (cbegin s') (length (flat segs) + Z.to_nat n - 1) = Some it ∧
       iter_deref NodeMaxSize (mem s') it = Some v ∧
       iter_inc (mem s') it = Some cend).
Proof.
  intros Hwf Hnt Hn Hroom. unfold insert_n.
  destruct (insert_n_end_run (Z.to_nat n) s segs v (mkIter None 0) Hwf Hnt ltac:(lia))
    as (s' & segs' & it & Hrun & Hfl & Hwf' & Hflat & H0 & Hpos).
  exists s', segs', it. split_and!; try done.
  - intros ->. split; [by apply H0|].
    cbn in Hrun. by injection Hrun.
  - intros Hlt. apply Hpos. lia.
Qed.

End InsertAtEnd.

(** ** push_front *)

Section PushFront.

Context {T : Type}.
Variable NodeMaxSize : Z.

Implicit Types (h : gmap ptr (@Node T)) (nd : @Node T) (xs ys : list T).
Implicit Types (s : @state T) (st : list (option T)).
Implicit Types (segs : list (ptr * list T)).

Lemma push_front_run s segs v :
  wf NodeMaxSize s segs →
  no_throw (faults s) →
  size_ s + 1 < size_modulus →
  ∃ s' segs',
    push_front NodeMaxSize v s = Ret tt s' ∧
    wf NodeMaxSize s' segs' ∧
    flat segs' = v :: flat segs ∧
    size s' = size s + 1 ∧
    front NodeMaxSize s' = Some v ∧
    match segs with
    | (p, xs) :: rest =>
        if decide (Z.of_nat (length xs) < NodeMaxSize)
        then segs' = (p, v :: xs) :: rest ∧ dom (mem s') = dom (mem s) ∧
             faults s' = drop (length xs + 1) (faults s)
        else ∃ q, mem s !! q = None ∧ segs' = (q, [v]) :: segs ∧
                  dom (mem s') = {[q]} ∪ dom (mem s) ∧
                  faults s' = drop 1 (faults s)
    | [] => ∃ q, mem s !! q = None ∧ segs' = [(q, [v])] ∧
                 dom (mem s') = {[q]} ∪ dom (mem s) ∧
                 faults s' = drop 1 (faults s)
    end.
Proof.
  intros (HC & Hd & Hnd & Hsz & Hszlt) Hnt Hroom.
  destruct s as [hd tl sz h fs]. cbn [mem head_ tail_ size_ faults size] in *.
  assert (h !! fresh (dom h) = None) as Hq by (apply not_elem_of_dom, is_fresh).
  remember (fresh (dom h)) as q eqn:Hqdef.
  unfold push_front.
  destruct segs as [|[p xs] rest].
  - (* the container is empty *)
    cbn [dseg] in Hd. destruct Hd as [-> ->].
    eexists _, [(q, [v])]. split.
    { eapply run_bind; [reflexivity|]. cbn [head_].
      eapply run_bind.
      { eapply run_bind; [apply run_create_node|].
        cbn [mem head_ tail_ size_ faults]. rewrite <- Hqdef.
        eapply run_bind; reflexivity. }
      cbn [mem head_ tail_ size_ faults].
      do 2 exec_step. exec_step. cbn [count].
      rewrite decide_True by lia.
      apply run_try.
      change 0 with (Z.of_nat 0) at 1 2.
      erewrite (run_place NodeMaxSize _ q None None _ [] 0); cbn [mem faults length];
        [reflexivity|done|solve_lookup|by rewrite length_replicate|done
        |rewrite length_replicate; lia|lia|done]. }
    cbn [mem head_ tail_ size_ faults length shift_right_slots Nat.sub drop].
    rewrite !wrap_small by (cbn in Hsz; lia). change (Z.of_nat 0 + 1) with 1.
    rewrite insert_insert_eq.
    match goal with |- ?W ∧ _ => assert W as Hwf' end.
    { split; [done|]. cbn [mem head_ tail_ size_]. split.
      { cbn [dseg]. split; [done|]. eexists. split; [solve_lookup|].
        split; [done|]. split; [apply holds_single; lia|]. done. }
      split; [apply NoDup_singleton|].
      cbn in Hsz. subst sz. split; [done|lia]. }
    split; [exact Hwf'|]. split; [done|]. split; [done|]. split.
    { by rewrite (proj1 (front_back_wf _ _ _ Hwf')). }
    exists q. split; [done|]. split; [done|]. split; [|done].
    rewrite dom_insert_L. done.
  - (* a head node exists *)
    pose proof Hd as Hdall.
    cbn [dseg] in Hd. destruct Hd as (-> & nd & Hp & Hpv & Hh & Hd).
    destruct nd as [pv nx c st]. cbn [prev next] in *. subst pv.
    pose proof Hh as (Hc & Hl & Hn & Hs). cbn [count storage] in Hc, Hl, Hs. subst c.
    cbn [fmap list_fmap fst] in Hnd.
    apply NoDup_cons in Hnd as [Hp2 Hnd2].
    assert (p ≠ q) as Hpq by (intros ->; congruence).
    assert (q ∉ rest.*1) as Hq2.
    { intros Hin. destruct (dseg_in_heap _ _ _ _ _ _ _ _ Hd Hin) as [? ?]. congruence. }
    rewrite flat_cons, !length_app in Hsz.
    destruct (decide (Z.of_nat (length xs) < NodeMaxSize)) as [Hspare|Hfull].
    + (* room in the head node *)
      eexists _, ((p, v :: xs) :: rest). split.
      { do 4 exec_step. exec_step. cbn [count].
        rewrite decide_True by lia.
        apply run_try.
        change 0 with (Z.of_nat 0) at 1 2.
        erewrite (run_place NodeMaxSize _ p None nx st xs 0); cbn [mem faults];
          [reflexivity|done|solve_lookup|done|done|lia|lia|done]. }
      cbn [mem head_ tail_ size_ faults].
      rewrite !wrap_small by lia. rewrite Nat.sub_0_r.
      match goal with |- ?W ∧ _ => assert W as Hwf' end.
      { split; [done|]. cbn [mem head_ tail_ size_]. split.
        { cbn [dseg]. split; [done|]. eexists. split; [solve_lookup|].
          split; [done|]. split.
          { pose proof (holds_insert NodeMaxSize None nx st xs 0 v Hl) as Hins.
            rewrite Nat.sub_0_r in Hins. apply Hins; (done || lia). }
          cbn [next]. by apply dseg_insert_other. }
        split; [by apply NoDup_cons|].
        rewrite flat_cons, !length_app. cbn [length]. split; lia. }
      split; [exact Hwf'|]. split; [done|]. split; [done|]. split.
      { by rewrite (proj1 (front_back_wf _ _ _ Hwf')). }
      split; [done|]. split.
      { apply dom_insert_lookup_L. eauto. }
      rewrite drop_drop. done.
    + (* the head node is full *)
      eexists _, ((q, [v]) :: (p, xs) :: rest). split.
      { do 4 exec_step. exec_step. cbn [count].
        rewrite decide_False by lia.
        eapply run_bind; [apply run_create_node|].
        cbn [mem head_ tail_ size_ faults]. rewrite <- Hqdef.
        apply run_try.
        eapply run_bind.
        { change 0 with (Z.of_nat 0).
          eapply run_construct; cbn [mem faults];
            [done|solve_lookup|cbn [storage]; rewrite length_replicate; lia|lia]. }
        cbn [mem head_ tail_ size_ faults prev next count storage].
        do 4 exec_step. reflexivity. }
      cbn [mem head_ tail_ size_ faults].
      rewrite !wrap_small by lia.
      match goal with |- ?W ∧ _ => assert W as Hwf' end.
      { split; [done|]. cbn [mem head_ tail_ size_]. split.
        { cbn [dseg]. split; [done|]. eexists. split; [solve_lookup|].
          split; [done|]. split; [apply holds_single; lia|].
          cbn [next]. split; [done|]. eexists. split; [solve_lookup|].
          split; [done|]. split; [done|].
          cbn [next]. do 5 (apply dseg_insert_other; [assumption|]). exact Hd. }
        split.
        { cbn [fmap list_fmap fst]. apply NoDup_cons. split; [|by apply NoDup_cons].
          intros [Hin|Hin]%elem_of_cons; [congruence|done]. }
        rewrite !flat_cons, !length_app. cbn [length].
        split; lia. }
      split; [exact Hwf'|]. split; [done|]. split; [done|]. split.
      { by rewrite (proj1 (front_back_wf _ _ _ Hwf')). }
      exists q. split; [done|]. split; [done|]. split; [|done].
      rewrite !dom_insert_L.
      assert (p ∈ dom h) by (apply elem_of_dom; eauto). set_solver.
Qed.


End PushFront.

(** ** pop_back and pop_front *)

Section Pop.

Context {T : Type}.
Variable NodeMaxSize : Z.

Implicit Types (h : gmap ptr (@Node T)) (nd : @Node T) (xs ys : list T).
Implicit Types (s : @state T) (st : list (option T)).
Implicit Types (segs : list (ptr * list T)).

Lemma dseg_delete_other h pv cur segs last nxt p :
  p ∉ segs.*1 → dseg NodeMaxSize h pv cur segs last nxt →
  dseg NodeMaxSize (delete p h) pv cur segs last nxt.
Proof.
  intros Hp. apply dseg_frame. intros q Hq.
  apply lookup_delete_ne. intros ->. done.
Qed.

Lemma holds_drop_last pv nx st xs x :
  holds NodeMaxSize (mkNode pv nx (Z.of_nat (length (xs ++ [x]))) st) (xs ++ [x]) →
  xs ≠ [] →
  holds NodeMaxSize (mkNode pv nx (Z.of_nat (length xs)) (<[length xs := None]> st)) xs.
Proof.
  intros (Hc & Hl & Hn & Hs) Hne. cbn [count storage] in *.
  rewrite length_app in Hn. cbn [length] in Hn.
  split; [done|]. split; [cbn [storage]; by rewrite length_insert|].
  split; [destruct xs; [done|cbn; cbn in Hn; lia]|].
  intros j y Hy. cbn [storage].
  pose proof (lookup_lt_Some _ _ _ Hy) as Hj.
  rewrite list_lookup_insert_ne by lia.
  apply Hs. by rewrite lookup_app_l.
Qed.

Lemma run_not_empty s (m : M unit) :
  size_ s ≠ 0 →
  (if empty s then Ret tt s else m s) = m s.
Proof. intros Hs. unfold empty. by rewrite bool_decide_eq_false_2. Qed.

Lemma pop_back_run s segs1 t xs x :
  wf NodeMaxSize s (segs1 ++ [(t, xs ++ [x])]) →
  ∃ s',
    pop_back NodeMaxSize s = Ret tt s' ∧
    wf NodeMaxSize s' (if decide (xs = []) then segs1 else segs1 ++ [(t, xs)]) ∧
    size s' = size s - 1 ∧
    faults s' = faults s ∧
    dom (mem s') = (if decide (xs = []) then dom (mem s) ∖ {[t]} else dom (mem s)).
Proof.
  intros (HC & Hd & Hnd & Hsz & Hszlt).
  destruct s as [hd tl sz h fs]. cbn [mem head_ tail_ size_ faults size] in *.
  pose proof Hd as Hdall.
  apply dseg_app in Hd as (ml & m & Hd1 & Hd2).
  cbn [dseg] in Hd2. destruct Hd2 as (-> & nd & Ht & Hpv & Hh & Hnx & Htl).
  destruct nd as [pv nx c st]. cbn [prev next] in *. subst pv nx tl.
  pose proof Hh as (Hc & Hl & Hn & Hs). cbn [count storage] in Hc, Hl, Hs. subst c.
  rewrite fmap_app in Hnd. cbn [fmap list_fmap fst] in Hnd.
  pose proof Hnd as Hnd'.
  apply NoDup_app in Hnd' as (Hnd1 & Hdisj & _).
  assert (t ∉ segs1.*1) as Ht1.
  { intros Hin. apply (Hdisj _ Hin). apply elem_of_cons. by left. }
  rewrite flat_app, flat_cons, !length_app in Hsz.
  cbn [flat fmap list_fmap concat length] in Hsz.
  rewrite length_app in Hn. cbn [length] in Hn.
  unfold pop_back. rewrite run_not_empty by (cbn [size_]; lia).
  assert (wrap (Z.of_nat (length (xs ++ [x])) - 1) = Z.of_nat (length xs)) as Hcnt.
  { rewrite length_app. cbn [length]. rewrite wrap_small by lia. lia. }
  destruct (decide (xs = [])) as [->|Hne].
  - (* the tail node held one element *)
    cbn [length app] in *.
    destruct segs1 as [|[t' ys] segs0 _] using rev_ind.
    + (* it was the only node *)
      cbn [dseg] in Hd1. destruct Hd1 as [-> ->].
      eexists. split.
      { exec_step. exec_step.
        eapply run_bind; [eapply run_dec_count; solve_lookup|].
        cbn [mem head_ tail_ size_ faults prev next count storage].
        exec_step. rewrite Hcnt.
        eapply run_bind.
        { eapply (run_put_slot NodeMaxSize t 0); [solve_lookup|cbn [storage]; lia|lia]. }
        cbn [mem head_ tail_ size_ faults prev next count storage].
        do 2 exec_step.
        rewrite decide_False by (intros [_ ?]; done).
        exec_step. exec_step.
        rewrite wrap_small by lia.
        rewrite decide_True by (cbn in Hsz; lia).
        exec_step. exec_step. exec_step. reflexivity. }
      cbn [mem head_ tail_ size_ faults].
      split.
      { split; [done|]. cbn [mem head_ tail_ size_ dseg]. split; [done|].
        split; [constructor|]. cbn in Hsz. cbn. lia. }
      split; [done|]. split; [done|].
      rewrite dom_delete_L, !dom_insert_L.
      assert (t ∈ dom h) by (eapply elem_of_dom_2; eassumption). set_solver.
    + (* the node before it becomes the tail *)
      clear Hdall.
      apply dseg_app in Hd1 as (ml0 & m0 & Hd0 & Hd1).
      cbn [dseg] in Hd1. destruct Hd1 as (-> & nd' & Ht' & Hpv' & Hh' & Hnx' & Hml).
      destruct nd' as [pv' nx' c' st']. cbn [prev next] in *. subst pv' nx' ml.
      rewrite fmap_app in Ht1, Hnd1. cbn [fmap list_fmap fst] in Ht1, Hnd1.
      assert (t ≠ t') as Htt'.
      { intros ->. apply Ht1. apply elem_of_app. right. apply elem_of_cons. by left. }
      assert (t ∉ segs0.*1) as Ht0.
      { intros Hin. apply Ht1. apply elem_of_app. by left. }
      assert (t' ∉ segs0.*1) as Ht'0.
      { apply NoDup_app in Hnd1 as (_ & Hdj & _). intros Hin.
        apply (Hdj _ Hin). apply elem_of_cons. by left. }
      assert (hd ≠ Some t) as Hhd.
      { destruct segs0 as [|[p0 zs] segs0].
        - cbn [dseg] in Hd0. destruct Hd0 as [-> _]. congruence.
        - cbn [dseg] in Hd0. destruct Hd0 as [-> _]. intros [= ->].
          apply Ht0. cbn. apply elem_of_cons. by left. }
      pose proof Hh' as (_ & _ & Hn' & _).
      rewrite !flat_app, !flat_cons, !length_app in Hsz.
      cbn [flat fmap list_fmap concat length] in Hsz.
      eexists. split.
      { exec_step. exec_step.
        eapply run_bind; [eapply run_dec_count; solve_lookup|].
        cbn [mem head_ tail_ size_ faults prev next count storage].
        exec_step. rewrite Hcnt.
        eapply run_bind.
        { eapply (run_put_slot NodeMaxSize t 0); [solve_lookup|cbn [storage]; lia|lia]. }
        cbn [mem head_ tail_ size_ faults prev next count storage].
        do 2 exec_step.
        rewrite decide_True by (split; [done|congruence]).
        eapply run_bind.
        { do 3 exec_step. eapply run_destroy_empty_node; [solve_lookup|done]. }
        cbn [mem head_ tail_ size_ faults prev next count storage].
        exec_step.
        rewrite wrap_small by lia.
        rewrite decide_False by lia. reflexivity. }
      cbn [mem head_ tail_ size_ faults].
      split.
      { split; [done|]. cbn [mem head_ tail_ size_]. split.
        { apply dseg_app. exists ml0, (Some t'). split.
          - apply dseg_delete_other; [done|].
            do 3 (apply dseg_insert_other; [assumption|]). exact Hd0.
          - cbn [dseg]. split; [done|]. eexists. split; [solve_lookup|].
            split; [done|]. split; [done|]. done. }
        split; [by rewrite fmap_app|].
        rewrite !flat_app, !flat_cons, !length_app.
        cbn [flat fmap list_fmap concat length]. split; lia. }
      split; [done|]. split; [done|].
      rewrite dom_delete_L, !dom_insert_L.
      assert (t ∈ dom h) by (eapply elem_of_dom_2; eassumption).
      assert (t' ∈ dom h) by (eapply elem_of_dom_2; eassumption). set_solver.
  - (* the tail node keeps elements *)
    assert (0 < length xs)%nat as Hpos by (destruct xs; [done|cbn; lia]).
    eexists. split.
    { exec_step. exec_step.
      eapply run_bind; [eapply run_dec_count; solve_lookup|].
      cbn [mem head_ tail_ size_ faults prev next count storage].
      exec_step. rewrite Hcnt.
      eapply run_bind.
      { eapply (run_put_slot NodeMaxSize t (length xs)); [solve_lookup|cbn [storage]; lia|lia]. }
      cbn [mem head_ tail_ size_ faults prev next count storage].
      do 2 exec_step.
      rewrite decide_False by (intros [? _]; lia).
      exec_step. exec_step.
      rewrite wrap_small by lia.
      rewrite decide_False by lia. reflexivity. }
    cbn [mem head_ tail_ size_ faults].
    split.
    { split; [done|]. cbn [mem head_ tail_ size_]. split.
      { apply dseg_app. exists ml, (Some t). split.
        - do 2 (apply dseg_insert_other; [assumption|]). exact Hd1.
        - cbn [dseg]. split; [done|]. eexists. split; [solve_lookup|].
          split; [done|]. split; [by eapply holds_drop_last|]. done. }
      split; [by rewrite fmap_app|].
      rewrite !flat_app, !flat_cons, !length_app.
      cbn [flat fmap list_fmap concat length]. split; lia. }
    split; [done|]. split; [done|].
    rewrite !dom_insert_L.
    assert (t ∈ dom h) by (eapply elem_of_dom_2; eassumption). set_solver.
Qed.


Lemma pop_front_run s p x xs segs2 :
  wf NodeMaxSize s ((p, x :: xs) :: segs2) →
  ∃ s',
    pop_front NodeMaxSize s = Ret tt s' ∧
    wf NodeMaxSize s' (if decide (xs = []) then segs2 else (p, xs) :: segs2) ∧
    size s' = size s - 1 ∧
    faults s' = faults s ∧
    dom (mem s') = (if decide (xs = []) then dom (mem s) ∖ {[p]} else dom (mem s)).
Proof.
  intros (HC & Hd & Hnd & Hsz & Hszlt).
  destruct s as [hd tl sz h fs]. cbn [mem head_ tail_ size_ faults size] in *.
  cbn [dseg] in Hd. destruct Hd as (-> & nd & Hp & Hpv & Hh & Hd2).
  destruct nd as [pv nx c st]. cbn [prev next] in *. subst pv.
  pose proof Hh as (Hc & Hl & Hn & Hs). cbn [count storage] in Hc, Hl, Hs. subst c.
  cbn [fmap list_fmap fst] in Hnd.
  apply NoDup_cons in Hnd as [Hp2 Hnd2].
  rewrite flat_cons, !length_app in Hsz.
  unfold pop_front. rewrite run_not_empty by (cbn [size_ length] in *; lia).
  pose proof (λ A (k : M A) s0, run_erase_prefix NodeMaxSize k p None nx st (x :: xs) 0 s0 (proj2 HC))
    as Hprefix.
  destruct (decide (xs = [])) as [->|Hne].
  - (* the head node held one element *)
    cbn [length] in *.
    destruct segs2 as [|[p2 ys] rest].
    + (* it was the only node *)
      cbn [dseg] in Hd2. destruct Hd2 as [-> ->].
      eexists. split.
      { exec_step. exec_step.
        etransitivity; [apply Hprefix; cbn [mem size_ length]; (done || lia)|].
        cbn [mem head_ tail_ size_ faults prev next count storage length].
        do 2 exec_step.
        rewrite decide_False by (intros [_ ?]; done).
        exec_step. exec_step.
        rewrite decide_True by (cbn in Hsz; lia).
        exec_step. exec_step. exec_step. reflexivity. }
      cbn [mem head_ tail_ size_ faults].
      split.
      { split; [done|]. cbn [mem head_ tail_ size_ dseg]. split; [done|].
        split; [constructor|]. cbn in Hsz. cbn. lia. }
      split; [done|]. split; [done|].
      rewrite dom_delete_L, !dom_insert_L.
      assert (p ∈ dom h) by (eapply elem_of_dom_2; eassumption). set_solver.
    + (* the node after it becomes the head *)
      cbn [dseg] in Hd2. destruct Hd2 as ([= ->] & nd2 & Hp2' & Hpv2 & Hh2 & Hd3).
      destruct nd2 as [pv2 nx2 c2 st2]. cbn [prev next] in *. subst pv2.
      cbn [fmap list_fmap fst] in Hp2, Hnd2.
      assert (p ≠ p2) as Hpp2.
      { intros ->. apply Hp2. apply elem_of_cons. by left. }
      assert (p ∉ rest.*1) as Hprest.
      { intros Hin. apply Hp2. apply elem_of_cons. by right. }
      apply NoDup_cons in Hnd2 as [Hp2rest Hndrest].
      assert (tl ≠ Some p) as Htl.
      { destruct (dseg_last_in _ _ _ _ _ _ _
                    (proj2 (dseg_app NodeMaxSize h (Some p) (Some p2) [(p2, ys)] rest tl None)
                       (ex_intro _ (Some p2) (ex_intro _ nx2
                          (conj (conj eq_refl (ex_intro _ _
                                   (conj Hp2' (conj eq_refl (conj Hh2 (conj eq_refl eq_refl))))))
                                Hd3))))
                    ltac:(done)) as (y & -> & Hy).
        cbn in Hy. intros [= ->]. apply elem_of_cons in Hy as [->|Hy]; done. }
      pose proof Hh2 as (_ & _ & Hn2 & _).
      rewrite !flat_cons, !length_app in Hsz.
      eexists. split.
      { exec_step. exec_step.
        etransitivity; [apply Hprefix; cbn [mem size_ length]; (done || lia)|].
        cbn [mem head_ tail_ size_ faults prev next count storage length].
        do 2 exec_step.
        rewrite decide_True by (split; [done|congruence]).
        eapply run_bind.
        { do 2 exec_step. eapply run_destroy_empty_node; [solve_lookup|done]. }
        cbn [mem head_ tail_ size_ faults prev next count storage].
        exec_step.
        rewrite decide_False by lia. reflexivity. }
      cbn [mem head_ tail_ size_ faults].
      split.
      { split; [done|]. cbn [mem head_ tail_ size_]. split.
        { cbn [dseg]. split; [done|]. eexists. split; [solve_lookup|].
          split; [done|]. split; [done|]. cbn [next].
          apply dseg_delete_other; [done|].
          do 2 (apply dseg_insert_other; [assumption|]). exact Hd3. }
        split; [by apply NoDup_cons|].
        rewrite !flat_cons, !length_app. split; lia. }
      split; [done|]. split; [done|].
      rewrite dom_delete_L, !dom_insert_L.
      assert (p ∈ dom h) by (eapply elem_of_dom_2; eassumption).
      assert (p2 ∈ dom h) by (eapply elem_of_dom_2; eassumption). set_solver.
  - (* the head node keeps elements *)
    assert (0 < length xs)%nat as Hpos by (destruct xs; [done|cbn; lia]).
    cbn [length] in *.
    eexists. split.
    { exec_step. exec_step.
      etransitivity; [apply Hprefix; cbn [mem size_ length]; (done || lia)|].
      cbn [mem head_ tail_ size_ faults prev next count storage length].
      do 2 exec_step.
      rewrite decide_False by (intros [? _]; lia).
      exec_step. exec_step.
      rewrite decide_False by lia. reflexivity. }
    cbn [mem head_ tail_ size_ faults].
    split.
    { split; [done|]. cbn [mem head_ tail_ size_]. split.
      { cbn [dseg]. split; [done|]. eexists. split; [solve_lookup|].
        split; [done|]. split.
        { apply (holds_erase NodeMaxSize None nx _ st (x :: xs) 0 Hh); cbn [length]; lia. }
        cbn [next]. by apply dseg_insert_other. }
      split; [by apply NoDup_cons|].
      rewrite !flat_cons, !length_app. split; lia. }
    split; [done|]. split; [done|].
    rewrite !dom_insert_L.
    assert (p ∈ dom h) by (eapply elem_of_dom_2; eassumption). set_solver.
Qed.


Lemma wf_flat_nil s segs :
  wf NodeMaxSize s segs → flat segs = [] →
  segs = [] ∧ head_ s = None ∧ tail_ s = None.
Proof.
  intros (_ & Hd & _) Hflat. destruct segs as [|[p xs] segs].
  - cbn [dseg] in Hd. by destruct Hd as [-> ->].
  - cbn [dseg] in Hd. destruct Hd as (_ & nd & _ & _ & (_ & _ & Hn & _) & _).
    rewrite flat_cons in Hflat. destruct xs; [cbn in Hn; lia|done].
Qed.

(** [pop_back] on a non-empty well-formed container removes the last
    element and nothing else, without any construction; the tail node is
    released exactly when it held one element, and when the container
    becomes empty both [head_] and [tail_] are reset. *)
Theorem pop_back_spec s segs ys x :
  wf NodeMaxSize s segs → flat segs = ys ++ [x] →
  ∃ s' segs',
    pop_back NodeMaxSize s = Ret tt s' ∧
    wf NodeMaxSize s' segs' ∧
    flat segs' = ys ∧
    visits NodeMaxSize s' ys ∧
    size s' = size s - 1 ∧
    faults s' = faults s ∧
    (ys = [] → head_ s' = None ∧ tail_ s' = None) ∧
    match last segs with
    | Some (t, xs) =>
        if decide (length xs = 1%nat)
        then segs' = removelast segs ∧ dom (mem s') = dom (mem s) ∖ {[t]}
        else segs' = removelast segs ++ [(t, removelast xs)] ∧ dom (mem s') = dom (mem s)
    | None => False
    end.
Proof.
  intros Hwf Hflat.
  destruct segs as [|[t xs] segs1 _] using rev_ind.
  { cbn in Hflat. by destruct ys. }
  assert (xs ≠ []) as Hxs.
  { destruct Hwf as (_ & Hd & _).
    apply dseg_app in Hd as (ml & m & _ & Hd).
    cbn [dseg] in Hd. destruct Hd as (_ & nd & _ & _ & (_ & _ & Hn & _) & _).
    intros ->. cbn in Hn. lia. }
  destruct xs as [|x' xs _] using rev_ind; [done|]. clear Hxs.
  rewrite flat_app, flat_cons in Hflat. cbn [flat fmap list_fmap concat] in Hflat.
  rewrite app_nil_r, app_assoc in Hflat.
  apply app_inj_tail in Hflat as [<- ->].
  destruct (pop_back_run s segs1 t xs x Hwf) as (s' & Hrun & Hwf' & Hsz & Hf & Hdom).
  exists s', (if decide (xs = []) then segs1 else segs1 ++ [(t, xs)]).
  assert (flat (if decide (xs = []) then segs1 else segs1 ++ [(t, xs)]) = flat segs1 ++ xs)
    as Hflat'.
  { destruct (decide (xs = [])) as [->|_]; [by rewrite app_nil_r|].
    rewrite flat_app, flat_cons. cbn [flat fmap list_fmap concat]. by rewrite app_nil_r. }
  split_and!; try done.
  - rewrite <- Hflat'. by apply wf_visits.
  - intros Hnil. rewrite <- Hflat' in Hnil.
    by destruct (wf_flat_nil _ _ Hwf' Hnil) as (_ & ? & ?).
  - rewrite last_snoc, removelast_last, length_app. cbn [length].
    destruct (decide (xs = [])) as [->|Hne].
    + by rewrite decide_True by done.
    + rewrite decide_False by (destruct xs; [done|cbn; lia]).
      by rewrite removelast_last.
Qed.

(** [pop_front] on a non-empty well-formed container removes the first
    element and nothing else; the remaining elements of the head node are
    moved one slot to the left; the head node is released exactly when it
    held one element, and when the container becomes empty both [head_] and
    [tail_] are reset. *)
Theorem pop_front_spec s segs x ys :
  wf NodeMaxSize s segs → flat segs = x :: ys →
  ∃ s' segs',
    pop_front NodeMaxSize s = Ret tt s' ∧
    wf NodeMaxSize s' segs' ∧
    flat segs' = ys ∧
    visits NodeMaxSize s' ys ∧
    size s' = size s - 1 ∧
    (ys = [] → head_ s' = None ∧ tail_ s' = None) ∧
    match segs with
    | (p, xs) :: rest =>
        if decide (length xs = 1%nat)
        then segs' = rest ∧ dom (mem s') = dom (mem s) ∖ {[p]}
        else segs' = (p, tail xs) :: rest ∧ dom (mem s') = dom (mem s)
    | [] => False
    end.
Proof.
  intros Hwf Hflat.
  destruct segs as [|[p xs] rest]; [done|].
  assert (xs ≠ []) as Hxs.
  { destruct Hwf as (_ & Hd & _).
    cbn [dseg] in Hd. destruct Hd as (_ & nd & _ & _ & (_ & _ & Hn & _) & _).
    intros ->. cbn in Hn. lia. }
  destruct xs as [|x' xs]; [done|]. clear Hxs.
  rewrite flat_cons in Hflat. cbn [app] in Hflat. injection Hflat as -> <-.
  destruct (pop_front_run s p x xs rest Hwf) as (s' & Hrun & Hwf' & Hsz & Hf & Hdom).
  exists s', (if decide (xs = []) then rest else (p, xs) :: rest).
  assert (flat (if decide (xs = []) then rest else (p, xs) :: rest) = xs ++ flat rest)
    as Hflat'.
  { destruct (decide (xs = [])) as [->|_]; [done|]. by rewrite flat_cons. }
  split_and!; try done.
  - rewrite <- Hflat'. by apply wf_visits.
  - intros Hnil. rewrite <- Hflat' in Hnil.
    by destruct (wf_flat_nil _ _ Hwf' Hnil) as (_ & ? & ?).
  - cbn [length tail].
    destruct (decide (xs = [])) as [->|Hne].
    + by rewrite decide_True by done.
    + by rewrite decide_False by (destruct xs; [done|cbn; lia]).
Qed.

End Pop.

(** ** clear *)

Section Clear.

Context {T : Type}.
Variable NodeMaxSize : Z.

Implicit Types (h : gmap ptr (@Node T)) (nd : @Node T) (xs ys : list T).
Implicit Types (s : @state T) (st : list (option T)).
Implicit Types (segs : list (ptr * list T)) (ps : list ptr).

Lemma run_destroy_slots p (n lo : nat) nd s :
  mem s !! p = Some nd →
  (lo + n ≤ length (storage nd))%nat → Z.of_nat (lo + n) ≤ NodeMaxSize →
  ∃ nd',
    for_up (λ i, destroy NodeMaxSize p i) (Z.of_nat lo) n s =
    Ret tt (mkState (head_ s) (tail_ s) (size_ s) (<[p := nd']> (mem s)) (faults s)).
Proof.
  revert lo nd s. induction n as [|n IH]; intros lo nd s Hp Hlen Hcap; cbn [for_up].
  - exists nd. rewrite insert_id by done. by rewrite state_eta.
  - destruct (IH (S lo)
               (mkNode (prev nd) (next nd) (count nd) (<[lo := None]> (storage nd)))
               (mkState (head_ s) (tail_ s) (size_ s)
                  (<[p := mkNode (prev nd) (next nd) (count nd) (<[lo := None]> (storage nd))]>
                     (mem s)) (faults s))) as [nd' Hrun].
    { cbn [mem]. apply lookup_insert_eq. }
    { cbn [storage]. rewrite length_insert. lia. }
    { lia. }
    exists nd'. eapply run_bind.
    { unfold destroy. eapply run_put_slot; [done|lia|lia]. }
    replace (Z.of_nat lo + 1) with (Z.of_nat (S lo)) by lia.
    rewrite Hrun. cbn [mem head_ tail_ size_ faults]. by rewrite insert_insert_eq.
Qed.

(** Releasing a node whose count fits its array. *)
Lemma run_destroy_node p nd s :
  mem s !! p = Some nd →
  0 ≤ count nd ≤ NodeMaxSize → length (storage nd) = Z.to_nat NodeMaxSize →
  destroy_node NodeMaxSize (Some p) s =
  Ret tt (mkState (head_ s) (tail_ s) (size_ s) (delete p (mem s)) (faults s)).
Proof.
  intros Hp Hc Hl. unfold destroy_node.
  eapply run_bind; [by apply run_load|].
  destruct (run_destroy_slots p (Z.to_nat (count nd)) 0 nd s Hp) as [nd' Hrun]; [lia|lia|].
  eapply run_bind; [exact Hrun|].
  erewrite run_free by (cbn [mem]; apply lookup_insert_eq).
  cbn [mem head_ tail_ size_ faults]. by rewrite delete_insert_eq.
Qed.

Lemma chain_frame h h' cur ps :
  (∀ p, p ∈ ps → h' !! p = h !! p) →
  chain NodeMaxSize h cur ps → chain NodeMaxSize h' cur ps.
Proof.
  revert cur. induction ps as [|p ps IH]; intros cur Hsame; cbn [chain]; [done|].
  intros (-> & nd & Hp & Hc & Hl & Hrest). split; [done|].
  exists nd. split; [rewrite Hsame; [done|apply elem_of_cons; by left]|].
  split; [done|]. split; [done|].
  apply IH; [|done]. intros q Hq. apply Hsame. apply elem_of_cons. by right.
Qed.

Lemma fseg_chain h cur segs :
  fseg NodeMaxSize h cur segs None → chain NodeMaxSize h cur (segs.*1).
Proof.
  revert cur. induction segs as [|[p xs] segs IH]; intros cur; cbn [fseg chain fmap list_fmap fst];
    [done|].
  intros (-> & nd & Hp & (Hc & Hl & Hn & _) & Hrest). split; [done|].
  exists nd. split; [done|]. split; [lia|]. split; [done|]. by apply IH.
Qed.

(** The heap after the nodes [ps] were released one after the other. *)
Lemma lookup_release ps h q :
  foldl (λ h' p, delete p h') h ps !! q = if decide (q ∈ ps) then None else h !! q.
Proof.
  revert h. induction ps as [|p ps IH]; intros h; cbn [foldl].
  - rewrite decide_False; [done|]. apply not_elem_of_nil.
  - rewrite IH. destruct (decide (q ∈ ps)) as [Hin|Hnin].
    + rewrite decide_True; [done|]. apply elem_of_cons. by right.
    + destruct (decide (q = p)) as [->|Hne].
      * rewrite decide_True by (apply elem_of_cons; by left). apply lookup_delete_eq.
      * rewrite decide_False by (intros [?|?]%elem_of_cons; done).
        by apply lookup_delete_ne.
Qed.

Lemma clear_loop_run (fuel : nat) cur ps s :
  chain NodeMaxSize (mem s) cur ps → NoDup ps → (length ps ≤ fuel)%nat →
  clear_loop NodeMaxSize fuel cur s =
  Ret true (mkState (head_ s) (tail_ s) (size_ s)
              (foldl (λ h' p, delete p h') (mem s) ps) (faults s)).
Proof.
  revert cur ps s. induction fuel as [|fuel IH]; intros cur ps s Hch Hnd Hfuel.
  - destruct ps; [|cbn in Hfuel; lia]. cbn [chain] in Hch. subst cur. cbn.
    by rewrite state_eta.
  - destruct ps as [|p ps].
    + cbn [chain] in Hch. subst cur. cbn. by rewrite state_eta.
    + cbn [chain] in Hch. destruct Hch as (-> & nd & Hp & Hc & Hl & Hrest).
      apply NoDup_cons in Hnd as [Hpin Hnd].
      cbn [clear_loop].
      eapply run_bind; [by apply run_load|].
      eapply run_bind; [by eapply run_destroy_node|].
      rewrite (IH (next nd) ps); cbn [mem head_ tail_ size_ faults foldl]; try done.
      * eapply chain_frame; [|exact Hrest]. intros q Hq.
        apply lookup_delete_ne. intros ->. done.
      * cbn in Hfuel. lia.
Qed.

Lemma clear_run (fuel : nat) ps s :
  chain NodeMaxSize (mem s) (head_ s) ps → NoDup ps → (length ps ≤ fuel)%nat →
  clear NodeMaxSize fuel s =
  Ret true (mkState None None 0 (foldl (λ h' p, delete p h') (mem s) ps) (faults s)).
Proof.
  intros Hch Hnd Hfuel. unfold clear.
  eapply run_bind; [reflexivity|].
  eapply run_bind; [by apply clear_loop_run|]. reflexivity.
Qed.

(** [clear()] on a well-formed container: every node of the chain is
    released and no other node is touched; the members are reset, so the
    container is the empty one.  The loop ends after as many rounds as the
    chain has nodes, and nothing is constructed. *)
Theorem clear_spec (fuel : nat) s segs :
  wf NodeMaxSize s segs → (length segs ≤ fuel)%nat →
  ∃ s',
    clear NodeMaxSize fuel s = Ret true s' ∧
    wf NodeMaxSize s' [] ∧
    head_ s' = None ∧ tail_ s' = None ∧ size s' = 0 ∧
    visits NodeMaxSize s' [] ∧
    faults s' = faults s ∧
    (∀ q, mem s' !! q = if decide (q ∈ segs.*1) then None else mem s !! q) ∧
    dom (mem s') = dom (mem s) ∖ list_to_set (segs.*1).
Proof.
  intros Hwf Hfuel. pose proof (wf_fseg _ _ _ Hwf) as Hfs.
  destruct Hwf as (HC & Hd & Hnd & Hsz & Hszlt).
  eexists. split.
  { apply (clear_run fuel (segs.*1)); [by apply fseg_chain|done|by rewrite length_fmap]. }
  cbn [mem head_ tail_ size_ faults size].
  assert (wf NodeMaxSize
            (mkState None None 0 (foldl (λ h' p, delete p h') (mem s) segs.*1) (faults s)) [])
    as Hwf'.
  { split; [done|]. split; [done|]. split; [constructor|]. split; [done|].
    cbn. unfold size_modulus. lia. }
  split_and!; try done.
  - by apply (wf_visits _ _ [] Hwf').
  - apply lookup_release.
  - apply set_eq. intros q.
    rewrite elem_of_difference, !elem_of_dom, elem_of_list_to_set, lookup_release.
    destruct (decide (q ∈ segs.*1)) as [Hin|Hnin].
    + split; [by intros [? ?]|by intros [_ ?]].
    + split; [done|by intros [? _]].
Qed.


(** *** [clear] needs no well-formed chain to terminate *)

Lemma run_bind_cases {A B} (m : M A) (f : A → M B) s :
  (m ≫= f) s = match m s with
               | Ret a s' => f a s'
               | Throw s' => Throw s'
               | Undef => Undef
               end.
Proof. done. Qed.

Lemma put_slot_outcome p (i : Z) (x : option T) s :
  (∃ s', put_slot NodeMaxSize p i x s = Ret tt s' ∧ dom (mem s') = dom (mem s)) ∨
  put_slot NodeMaxSize p i x s = Undef.
Proof.
  unfold put_slot, load, store, mbind, M_bind, undef.
  destruct (mem s !! p) as [nd|] eqn:Hp; [|by right].
  destruct (decide _); [|by right].
  rewrite Hp. left. eexists. split; [done|].
  cbn [mem]. apply dom_insert_lookup_L. eauto.
Qed.

Lemma destroy_slots_outcome p (n : nat) (lo : Z) s :
  (∃ s', for_up (λ i, destroy NodeMaxSize p i) lo n s = Ret tt s' ∧
         dom (mem s') = dom (mem s)) ∨
  for_up (λ i, destroy NodeMaxSize p i) lo n s = Undef.
Proof.
  revert lo s. induction n as [|n IH]; intros lo s; cbn [for_up].
  - left. by exists s.
  - rewrite !run_bind_cases. unfold destroy at 1 3.
    destruct (put_slot_outcome p lo None s) as [(s1 & -> & Hdom1)| ->]; [|by right].
    destruct (IH (lo + 1) s1) as [(s2 & -> & Hdom2)| ->]; [|by right].
    left. exists s2. split; [done|]. congruence.
Qed.

Lemma destroy_node_outcome p s :
  (∃ s', destroy_node NodeMaxSize (Some p) s = Ret tt s' ∧
         p ∈ dom (mem s) ∧ dom (mem s') = dom (mem s) ∖ {[p]}) ∨
  destroy_node NodeMaxSize (Some p) s = Undef.
Proof.
  unfold destroy_node. rewrite !run_bind_cases. unfold load.
  destruct (mem s !! p) as [nd|] eqn:Hp; [|by right].
  rewrite !run_bind_cases.
  destruct (destroy_slots_outcome p (Z.to_nat (count nd)) 0 s) as [(s1 & -> & Hdom1)| ->];
    [|by right].
  unfold free. destruct (mem s1 !! p) as [nd1|] eqn:Hp1; [|by right].
  left. eexists. split; [done|]. cbn [mem].
  split; [by eapply elem_of_dom_2|]. by rewrite dom_delete_L, Hdom1.
Qed.

Lemma clear_loop_outcome (fuel : nat) cur s :
  (base.size (dom (mem s)) < fuel)%nat →
  (∃ s', clear_loop NodeMaxSize fuel cur s = Ret true s' ∧
         head_ s' = head_ s ∧ tail_ s' = tail_ s ∧ size_ s' = size_ s ∧
         faults s' = faults s ∧ dom (mem s') ⊆ dom (mem s)) ∨
  clear_loop NodeMaxSize fuel cur s = Undef.
Proof.
  revert cur s. induction fuel as [|fuel IH]; intros cur s Hfuel; [lia|].
  destruct cur as [p|]; cbn [clear_loop]; [|left; by exists s].
  rewrite !run_bind_cases. unfold load.
  destruct (mem s !! p) as [nd|] eqn:Hp; [|by right].
  rewrite !run_bind_cases.
  destruct (destroy_node_outcome p s) as [(s1 & Hrun & Hin & Hdom1)|Hrun]; rewrite Hrun;
    [|by right].
  assert (head_ s1 = head_ s ∧ tail_ s1 = tail_ s ∧ size_ s1 = size_ s ∧ faults s1 = faults s)
    as (Hh1 & Ht1 & Hs1 & Hf1).
  { unfold destroy_node in Hrun. rewrite run_bind_cases in Hrun. unfold load in Hrun.
    rewrite Hp in Hrun. rewrite run_bind_cases in Hrun.
    destruct (for_up _ _ _ s) as [[] s0| |] eqn:Hloop; try done.
    unfold free in Hrun. destruct (mem s0 !! p); [|done]. injection Hrun as <-.
    cbn [head_ tail_ size_ faults].
    clear -Hloop. revert Hloop. generalize 0. generalize (Z.to_nat (count nd)).
    intros n. revert s. induction n as [|n IHn]; intros s lo; cbn [for_up].
    - by intros [= ->].
    - rewrite run_bind_cases. unfold destroy at 1.
      destruct (put_slot NodeMaxSize p lo None s) as [[] s2| |] eqn:Hput; try done.
      intros Hrest. destruct (IHn _ _ Hrest) as (-> & -> & -> & ->).
      unfold put_slot, load, store, mbind, M_bind, undef in Hput.
      destruct (mem s !! p); [|done]. destruct (decide _); [|done].
      destruct (mem s !! p); [|done]. by injection Hput as <-. }
  destruct (IH (next nd) s1) as [(s' & -> & Hh & Ht & Hs & Hf & Hdom)| ->]; [|..|by right].
  { rewrite Hdom1, size_difference by set_solver. rewrite size_singleton.
    assert (base.size (dom (mem s)) ≠ 0)%nat.
    { intros H0%size_empty_inv. by apply (not_elem_of_empty (C:=gset ptr) p), H0. }
    lia. }
  left. exists s'. split; [done|].
  split; [congruence|]. split; [congruence|]. split; [congruence|]. split; [congruence|].
  set_solver.
Qed.

(** [clear()] never throws and its loop cannot run for ever: every round
    releases a node of the heap, so after at most as many rounds as the heap
    has nodes the call has returned, with the members reset, or has touched
    a node that is not live. *)
Theorem clear_never_throws (fuel : nat) s :
  (base.size (dom (mem s)) < fuel)%nat →
  (∃ s', clear NodeMaxSize fuel s = Ret true s' ∧
         head_ s' = None ∧ tail_ s' = None ∧ size s' = 0 ∧
         faults s' = faults s ∧ dom (mem s') ⊆ dom (mem s)) ∨
  clear NodeMaxSize fuel s = Undef.
Proof.
  intros Hfuel. unfold clear. rewrite !run_bind_cases. unfold get_head.
  rewrite !run_bind_cases.
  destruct (clear_loop_outcome fuel (head_ s) s Hfuel) as [(s' & -> & _ & _ & _ & Hf & Hdom)| ->];
    [|by right].
  left. eexists. split; [reflexivity|]. done.
Qed.

End Clear.

(** ** The range constructor *)

Section RangeCtor.

Context {T : Type}.
Variable NodeMaxSize : Z.

Implicit Types (h : gmap ptr (@Node T)) (nd : @Node T) (xs ys : list T).
Implicit Types (s : @state T) (st : list (option T)).
Implicit Types (segs : list (ptr * list T)) (ps : list ptr).

(** One round of the loop of the range constructor does what [push_back]
    does, when [current_node] is the tail node and
    [elements_in_current_node] its count. *)
Lemma range_step s segs x rest (k : Z) :
  wf NodeMaxSize s segs →
  no_throw (take 1 (faults s)) →
  size_ s + 1 < size_modulus →
  (∀ t nd, tail_ s = Some t → mem s !! t = Some nd → k = count nd) →
  ∃ s' t' nd',
    push_back NodeMaxSize x s = Ret tt s' ∧
    tail_ s' = Some t' ∧ mem s' !! t' = Some nd' ∧
    range_loop NodeMaxSize (x :: rest) (tail_ s) k s =
    range_loop NodeMaxSize rest (Some t') (count nd') s'.
Proof.
  intros (HC & Hd & Hnd & Hsz & Hszlt) Hnt Hroom Hk.
  destruct s as [hd tl sz h fs]. cbn [mem head_ tail_ size_ faults size] in *.
  assert (h !! fresh (dom h) = None) as Hq by (apply not_elem_of_dom, is_fresh).
  remember (fresh (dom h)) as q eqn:Hqdef.
  destruct segs as [|[t xs] segs1 _] using rev_ind.
  - (* the container is empty *)
    cbn [dseg] in Hd. destruct Hd as [-> ->].
    eexists _, q, _. split.
    { unfold push_back.
      eapply run_bind; [reflexivity|]. cbn [tail_].
      eapply run_bind.
      { eapply run_bind; [apply run_create_node|].
        cbn [mem head_ tail_ size_ faults]. rewrite <- Hqdef.
        eapply run_bind; reflexivity. }
      cbn [mem head_ tail_ size_ faults].
      do 2 exec_step. exec_step. cbn [count].
      rewrite decide_True by lia.
      apply run_try.
      eapply run_bind.
      { change 0 with (Z.of_nat 0).
        eapply run_construct_head; cbn [mem faults];
          [done|solve_lookup|cbn [storage]; rewrite length_replicate; lia|lia]. }
      cbn [mem head_ tail_ size_ faults prev next count storage].
      exec_step. reflexivity. }
    cbn [mem head_ tail_ size_ faults].
    split; [reflexivity|]. split; [solve_lookup|].
    cbn [range_loop].
    eapply run_bind.
    { rewrite decide_True by (by left).
      eapply run_bind; [apply run_create_node|].
      cbn [mem head_ tail_ size_ faults]. rewrite <- Hqdef.
      eapply run_bind; [reflexivity|]. cbn [head_].
      eapply run_bind; [reflexivity|].
      eapply run_bind; reflexivity. }
    cbn [mem head_ tail_ size_ faults fst snd].
    eapply run_bind.
    { change 0 with (Z.of_nat 0).
      eapply run_construct_head; cbn [mem faults];
        [done|solve_lookup|cbn [storage]; rewrite length_replicate; lia|lia]. }
    cbn [mem head_ tail_ size_ faults prev next count storage].
    exec_step. eapply run_bind; [reflexivity|].
    cbn [mem head_ tail_ size_ faults prev next count storage].
    reflexivity.
  - (* a tail node exists *)
    apply dseg_app in Hd as (ml & m & Hd1 & Hd2).
    cbn [dseg] in Hd2. destruct Hd2 as (-> & nd & Ht & Hpv & Hh & Hnx & Htl).
    destruct nd as [pv nx c st]. cbn [prev next] in *. subst pv nx tl.
    pose proof Hh as (Hc & Hl & Hn & Hs). cbn [count storage] in Hc, Hl, Hs. subst c.
    specialize (Hk t _ eq_refl Ht). cbn [count] in Hk. subst k.
    assert (t ≠ q) as Htq by (intros ->; congruence).
    assert (hd ≠ None) as Hhd.
    { destruct segs1 as [|[p0 zs] segs0].
      - cbn [dseg] in Hd1. by destruct Hd1 as [-> _].
      - cbn [dseg] in Hd1. by destruct Hd1 as [-> _]. }
    destruct hd as [hp|]; [clear Hhd|done].
    rewrite flat_app, flat_cons, !length_app in Hsz. cbn [flat fmap list_fmap concat length] in Hsz.
    destruct (decide (Z.of_nat (length xs) < NodeMaxSize)) as [Hspare|Hfull].
    + (* room in the tail node *)
      eexists _, t, _. split.
      { unfold push_back. do 4 exec_step. exec_step. cbn [count].
        rewrite decide_True by lia.
        apply run_try.
        eapply run_bind.
        { eapply run_construct_head; cbn [mem faults]; [done|solve_lookup|cbn [storage]; lia|lia]. }
        cbn [mem head_ tail_ size_ faults prev next count storage].
        exec_step. reflexivity. }
      cbn [mem head_ tail_ size_ faults].
      split; [reflexivity|]. split; [solve_lookup|].
      cbn [range_loop].
      eapply run_bind.
      { rewrite decide_False by (intros [?|?]; [done|lia]).
        eapply run_bind; reflexivity. }
      cbn [mem head_ tail_ size_ faults fst snd].
      eapply run_bind.
      { eapply run_construct_head; cbn [mem faults]; [done|solve_lookup|cbn [storage]; lia|lia]. }
      cbn [mem head_ tail_ size_ faults prev next count storage].
      exec_step. eapply run_bind; [reflexivity|].
      cbn [mem head_ tail_ size_ faults prev next count storage].
      reflexivity.
    + (* the tail node is full *)
      eexists _, q, _. split.
      { unfold push_back. do 4 exec_step. exec_step. cbn [count].
        rewrite decide_False by lia.
        eapply run_bind; [apply run_create_node|].
        cbn [mem head_ tail_ size_ faults]. rewrite <- Hqdef.
        apply run_try.
        eapply run_bind.
        { change 0 with (Z.of_nat 0).
          eapply run_construct_head; cbn [mem faults];
            [done|solve_lookup|cbn [storage]; rewrite length_replicate; lia|lia]. }
        cbn [mem head_ tail_ size_ faults prev next count storage].
        do 4 exec_step. reflexivity. }
      cbn [mem head_ tail_ size_ faults].
      split; [reflexivity|]. split; [solve_lookup|].
      cbn [range_loop].
      eapply run_bind.
      { rewrite decide_True by (right; lia).
        eapply run_bind; [apply run_create_node|].
        cbn [mem head_ tail_ size_ faults]. rewrite <- Hqdef.
        eapply run_bind; [reflexivity|]. cbn [head_].
        eapply run_bind.
        { eapply run_bind; [reflexivity|]. cbn [tail_].
          eapply run_bind; [reflexivity|].
          exec_step. eapply run_set_prev. solve_lookup. }
        cbn [mem head_ tail_ size_ faults prev next count storage].
        eapply run_bind; reflexivity. }
      cbn [mem head_ tail_ size_ faults fst snd].
      eapply run_bind.
      { change 0 with (Z.of_nat 0).
        eapply run_construct_head; cbn [mem faults];
          [done|solve_lookup|cbn [storage]; rewrite length_replicate; lia|lia]. }
      cbn [mem head_ tail_ size_ faults prev next count storage].
      exec_step. eapply run_bind; [reflexivity|].
      cbn [mem head_ tail_ size_ faults prev next count storage].
      match goal with
      | |- range_loop _ _ _ ?k1 ?s1 = range_loop _ _ _ ?k2 ?s2 =>
          replace k1 with k2 by (symmetry; apply wrap_small; unfold size_modulus; lia);
          replace s1 with s2; [reflexivity|]
      end.
      f_equal. apply map_eq. intros i.
      destruct (decide (i = q)) as [->|Hiq].
      { rewrite (lookup_insert_ne (M:=gmap ptr)) by done. by rewrite !lookup_insert_eq. }
      destruct (decide (i = t)) as [->|Hit].
      { rewrite lookup_insert_eq.
        rewrite !(lookup_insert_ne (M:=gmap ptr) _ q) by done.
        by rewrite lookup_insert_eq. }
      by rewrite !lookup_insert_ne by done.
Qed.


Lemma range_loop_prefix xs1 ys s segs (k : Z) :
  wf NodeMaxSize s segs →
  no_throw (take (length xs1) (faults s)) →
  size_ s + Z.of_nat (length xs1) < size_modulus →
  (∀ t nd, tail_ s = Some t → mem s !! t = Some nd → k = count nd) →
  ∃ s1 segs1 k1,
    from_list NodeMaxSize xs1 s = Ret tt s1 ∧
    wf NodeMaxSize s1 segs1 ∧
    flat segs1 = flat segs ++ xs1 ∧
    faults s1 = drop (length xs1) (faults s) ∧
    (dom (mem s) = list_to_set (segs.*1) → dom (mem s1) = list_to_set (segs1.*1)) ∧
    (∀ t nd, tail_ s1 = Some t → mem s1 !! t = Some nd → k1 = count nd) ∧
    range_loop NodeMaxSize (xs1 ++ ys) (tail_ s) k s =
    range_loop NodeMaxSize ys (tail_ s1) k1 s1.
Proof.
  revert s segs k. induction xs1 as [|x xs1 IH]; intros s segs k Hwf Hnt Hsz Hk.
  - exists s, segs, k. cbn [from_list app length drop]. rewrite app_nil_r. done.
  - cbn [length] in Hsz, Hnt. rewrite Nat2Z.inj_succ in Hsz.
    pose proof (no_throw_take_le 1 _ _ Hnt ltac:(lia)) as Hnt1.
    destruct (range_step s segs x (xs1 ++ ys) k Hwf Hnt1 ltac:(lia) Hk)
      as (s' & t' & nd' & Hpb & Htl' & Ht' & Hstep).
    destruct (push_back_run NodeMaxSize s segs x Hwf Hnt1 ltac:(lia))
      as (s'' & segs' & Hpb' & Hwf' & Hflat' & Hsize' & _ & Hf' & Hdom' & _ & _ & Hshape).
    rewrite Hpb in Hpb'. injection Hpb' as <-. unfold size in Hsize'.
    destruct (IH s' segs' (count nd') Hwf') as (s1 & segs1 & k1 & Hfl & Hwf1 & Hflat1 & Hf1 & Hdom1 & Hk1 & Hrun).
    { rewrite Hf'. by apply (no_throw_take_drop 1). }
    { lia. }
    { intros t nd Ht Hnd. congruence. }
    exists s1, segs1, k1. split_and!; try done.
    + cbn [from_list]. eapply run_bind; [exact Hpb|exact Hfl].
    + rewrite Hflat1, Hflat', <- app_assoc. done.
    + rewrite Hf1, Hf', drop_drop. done.
    + intros Hdom. apply Hdom1. rewrite Hdom', Hdom.
      assert (segs.*1 ⊆ segs'.*1) as Hsub.
      { destruct (last segs) as [[t xs]|] eqn:Hlast.
        - apply last_Some in Hlast as [l' ->].
          destruct (decide _).
          + subst segs'. rewrite removelast_last, !fmap_app. done.
          + destruct Hshape as [q ->]. rewrite (fmap_app _ (_ ++ _)).
            by apply sublist_subseteq, sublist_inserts_r.
        - apply last_None in Hlast as ->. intros y Hy. by apply elem_of_nil in Hy. }
      apply set_eq. intros y. rewrite elem_of_union, !elem_of_list_to_set. naive_solver.
    + cbn [app]. rewrite Hstep, <- Htl'. exact Hrun.
Qed.

Lemma fseg_chain_app h cur segs nxt ps :
  fseg NodeMaxSize h cur segs nxt → chain NodeMaxSize h nxt ps →
  chain NodeMaxSize h cur (segs.*1 ++ ps).
Proof.
  revert cur. induction segs as [|[p xs] segs IH]; intros cur;
    cbn [fseg chain fmap list_fmap fst app].
  - by intros ->.
  - intros (-> & nd & Hp & (Hc & Hl & Hn & _) & Hrest) Hch. split; [done|].
    exists nd. split; [done|]. split; [lia|]. split; [done|]. by apply IH.
Qed.

Lemma dom_release ps h :
  dom (foldl (λ h' p, delete p h') h ps) = dom h ∖ list_to_set ps.
Proof.
  apply set_eq. intros q.
  rewrite elem_of_difference, !elem_of_dom, elem_of_list_to_set, lookup_release.
  destruct (decide (q ∈ ps)) as [Hin|Hnin].
  - split; [by intros [? ?]|by intros [_ ?]].
  - split; [done|by intros [? _]].
Qed.

Lemma wf_nodes_le s segs : wf NodeMaxSize s segs → (length segs ≤ length (flat segs))%nat.
Proof.
  intros Hfs%wf_fseg. revert Hfs. generalize (head_ s).
  induction segs as [|[p xs] segs IH]; intros cur; cbn [fseg]; [cbn; lia|].
  intros (_ & nd & _ & (_ & _ & Hn & _) & Hrest).
  rewrite flat_cons, length_app. cbn [length]. specialize (IH _ Hrest). lia.
Qed.

(** The round of the range constructor in which the construction throws:
    the elements built so far are still there, possibly followed by a node
    without elements. *)
Lemma range_step_throw s segs x rest (k : Z) fs' :
  wf NodeMaxSize s segs →
  faults s = true :: fs' →
  (∀ t nd, tail_ s = Some t → mem s !! t = Some nd → k = count nd) →
  ∃ s_t ps,
    range_loop NodeMaxSize (x :: rest) (tail_ s) k s = Throw s_t ∧
    faults s_t = fs' ∧
    chain NodeMaxSize (mem s_t) (head_ s_t) ps ∧ NoDup ps ∧
    (length ps ≤ length segs + 1)%nat ∧
    dom (mem s_t) = dom (mem s) ∪ list_to_set ps ∧
    (∀ p, p ∈ segs.*1 → p ∈ ps).
Proof.
  intros Hwf Hf Hk. pose proof (wf_fseg _ _ _ Hwf) as Hfs.
  destruct Hwf as (HC & Hd & Hnd & Hsz & Hszlt).
  destruct s as [hd tl sz h fs]. cbn [mem head_ tail_ size_ faults size] in *. subst fs.
  assert (h !! fresh (dom h) = None) as Hq by (apply not_elem_of_dom, is_fresh).
  remember (fresh (dom h)) as q eqn:Hqdef.
  destruct segs as [|[t xs] segs1 _] using rev_ind.
  - (* the container is empty *)
    cbn [dseg] in Hd. destruct Hd as [-> ->].
    eexists _, [q]. split.
    { cbn [range_loop].
      eapply run_bind.
      { rewrite decide_True by (by left).
        eapply run_bind; [apply run_create_node|].
        cbn [mem head_ tail_ size_ faults]. rewrite <- Hqdef.
        eapply run_bind; [reflexivity|]. cbn [head_].
        eapply run_bind; [reflexivity|].
        eapply run_bind; reflexivity. }
      cbn [mem head_ tail_ size_ faults fst snd].
      apply run_bind_throw. by apply run_construct_throw. }
    cbn [with_faults mem head_ tail_ size_ faults].
    split; [done|]. split.
    { cbn [chain]. split; [done|]. eexists. split; [solve_lookup|].
      cbn [count storage next]. split; [lia|]. split; [by rewrite length_replicate|done]. }
    split; [apply NoDup_singleton|]. split; [cbn; lia|].
    split; [rewrite dom_insert_L; cbn; set_solver|].
    intros p Hp. by apply elem_of_nil in Hp.
  - (* a tail node exists *)
    pose proof Hd as Hdall.
    apply dseg_app in Hd as (ml & m & Hd1 & Hd2).
    cbn [dseg] in Hd2. destruct Hd2 as (-> & nd & Ht & Hpv & Hh & Hnx & Htl).
    destruct nd as [pv nx c st]. cbn [prev next] in *. subst pv nx tl.
    pose proof Hh as (Hc & Hl & Hn & Hs). cbn [count storage] in Hc, Hl, Hs. subst c.
    specialize (Hk t _ eq_refl Ht). cbn [count] in Hk. subst k.
    assert (t ≠ q) as Htq by (intros ->; congruence).
    rewrite fmap_app in Hnd. cbn [fmap list_fmap fst] in Hnd.
    pose proof Hnd as Hnd'.
    apply NoDup_app in Hnd' as (Hnd1 & Hdisj & _).
    assert (t ∉ segs1.*1) as Ht1.
    { intros Hin. apply (Hdisj _ Hin). apply elem_of_cons. by left. }
    assert (q ∉ segs1.*1) as Hq1.
    { intros Hin. destruct (dseg_in_heap _ _ _ _ _ _ _ _ Hd1 Hin) as [? ?]. congruence. }
    assert (hd ≠ None) as Hhd.
    { destruct segs1 as [|[p0 zs] segs0].
      - cbn [dseg] in Hd1. by destruct Hd1 as [-> _].
      - cbn [dseg] in Hd1. by destruct Hd1 as [-> _]. }
    destruct hd as [hp|]; [clear Hhd|done].
    pose proof (dseg_in_dom _ _ _ _ _ _ _ Hdall) as Hsub.
    rewrite fmap_app in Hsub. cbn [fmap list_fmap fst] in Hsub.
    destruct (decide (Z.of_nat (length xs) < NodeMaxSize)) as [Hspare|Hfull].
    + (* room in the tail node *)
      eexists _, ((segs1 ++ [(t, xs)]).*1). split.
      { cbn [range_loop].
        eapply run_bind.
        { rewrite decide_False by (intros [?|?]; [done|lia]).
          eapply run_bind; reflexivity. }
        cbn [mem head_ tail_ size_ faults fst snd].
        apply run_bind_throw. by apply run_construct_throw. }
      cbn [with_faults mem head_ tail_ size_ faults].
      split; [done|]. split; [by apply fseg_chain|].
      split; [by rewrite fmap_app|]. split; [rewrite length_fmap; lia|].
      split; [|done].
      rewrite fmap_app. cbn [fmap list_fmap fst]. set_solver.
    + (* the tail node is full: a node was linked behind it *)
      eexists _, ((segs1 ++ [(t, xs)]).*1 ++ [q]). split.
      { cbn [range_loop].
        eapply run_bind.
        { rewrite decide_True by (right; lia).
          eapply run_bind; [apply run_create_node|].
          cbn [mem head_ tail_ size_ faults]. rewrite <- Hqdef.
          eapply run_bind; [reflexivity|]. cbn [head_].
          eapply run_bind.
          { eapply run_bind; [reflexivity|]. cbn [tail_].
            eapply run_bind; [reflexivity|].
            exec_step. eapply run_set_prev. solve_lookup. }
          cbn [mem head_ tail_ size_ faults prev next count storage].
          eapply run_bind; reflexivity. }
        cbn [mem head_ tail_ size_ faults fst snd].
        apply run_bind_throw. by apply run_construct_throw. }
      cbn [with_faults mem head_ tail_ size_ faults].
      split; [done|]. split.
      { apply (fseg_chain_app _ _ _ (Some q)).
        - apply fseg_app. exists (Some t). split.
          + do 3 (apply fseg_insert_other; [assumption|]). by eapply dseg_fseg.
          + cbn [fseg]. split; [done|]. eexists. split; [solve_lookup|].
            split; [done|]. done.
        - cbn [chain]. split; [done|]. eexists. split; [solve_lookup|].
          cbn [count storage next]. split; [lia|]. split; [by rewrite length_replicate|done]. }
      split.
      { rewrite fmap_app. cbn [fmap list_fmap fst]. apply NoDup_app.
        split; [done|]. split; [|apply NoDup_singleton].
        intros p Hp Hp'%list_elem_of_singleton. subst p.
        apply elem_of_app in Hp as [Hp|Hp]; [done|].
        apply list_elem_of_singleton in Hp. congruence. }
      split; [rewrite length_app, length_fmap; cbn; lia|].
      split.
      { rewrite !dom_insert_L, fmap_app. cbn [fmap list_fmap fst]. set_solver. }
      intros p Hp. apply elem_of_app. by left.
Qed.

(** The range constructor, when none of its constructions throws, builds
    exactly the container that the initializer-list constructor builds from
    the same values. *)
Theorem range_ctor_spec (fuel : nat) xs fs :
  0 < NodeMaxSize < size_modulus → no_throw (take (length xs) fs) →
  Z.of_nat (length xs) < size_modulus →
  ∃ s' segs',
    range_ctor NodeMaxSize fuel xs (new_list fs) = Ret true s' ∧
    from_list NodeMaxSize xs (new_list fs) = Ret tt s' ∧
    wf NodeMaxSize s' segs' ∧
    visits NodeMaxSize s' xs ∧
    size s' = Z.of_nat (length xs) ∧
    packed NodeMaxSize segs'.
Proof.
  intros HC Hnt Hlen.
  destruct (built_from_empty NodeMaxSize xs fs HC Hnt Hlen)
    as (s' & segs' & Hfl & Hwf & _ & Hv & Hsz & _ & Hpk & _).
  destruct (range_loop_prefix xs [] (new_list fs) [] 0 (new_list_wf NodeMaxSize fs HC) Hnt Hlen)
    as (s1 & segs1 & k1 & Hfl1 & _ & _ & _ & _ & _ & Hrun).
  { intros t nd Ht. done. }
  rewrite Hfl in Hfl1. injection Hfl1 as <-.
  exists s', segs'. split_and!; try done.
  unfold range_ctor. apply run_try.
  eapply run_bind; [|reflexivity].
  rewrite app_nil_r in Hrun. cbn [new_list tail_] in Hrun. rewrite Hrun. done.
Qed.

(** The range constructor when the construction of the element at
    position [j] throws: [clear()] releases every node allocated so far, the
    one just linked for that element included, and the exception leaves an
    empty container and an empty heap. *)
Theorem range_ctor_rollback (fuel j : nat) xs fs' :
  0 < NodeMaxSize < size_modulus → (j < length xs)%nat →
  Z.of_nat (length xs) < size_modulus → (length xs ≤ fuel)%nat →
  range_ctor NodeMaxSize fuel xs (new_list (replicate j false ++ true :: fs')) =
  Throw (new_list fs').
Proof.
  intros HC Hj Hlen Hfuel.
  destruct (lookup_lt_is_Some_2 xs j Hj) as [x Hx].
  pose proof (take_drop_middle xs j x Hx) as Hxs.
  set (fs := replicate j false ++ true :: fs').
  assert (length (take j xs) = j) as Hlj by (rewrite length_take; lia).
  destruct (range_loop_prefix (take j xs) (x :: drop (S j) xs) (new_list fs) [] 0
              (new_list_wf NodeMaxSize fs HC))
    as (s1 & segs1 & k1 & Hfl1 & Hwf1 & Hflat1 & Hf1 & Hdom1 & Hk1 & Hrun).
  { rewrite Hlj. cbn [new_list faults]. unfold fs.
    rewrite take_app_length' by (by rewrite length_replicate).
    apply Forall_replicate. done. }
  { rewrite Hlj. cbn. lia. }
  { intros t nd Ht. done. }
  rewrite Hxs in Hrun. cbn [new_list tail_] in Hrun.
  specialize (Hdom1 ltac:(cbn; by rewrite dom_empty_L)).
  assert (faults s1 = true :: fs') as Hf1'.
  { rewrite Hf1, Hlj. cbn [new_list faults]. unfold fs.
    by rewrite drop_app_length' by (by rewrite length_replicate). }
  destruct (range_step_throw s1 segs1 x (drop (S j) xs) k1 fs' Hwf1 Hf1' Hk1)
    as (s_t & ps & Hthrow & Hft & Hch & Hnd & Hlen_ps & Hdomt & Hsub).
  unfold range_ctor. eapply run_catch.
  { apply run_bind_throw. cbn [new_list] in *. rewrite Hrun. exact Hthrow. }
  eapply run_bind.
  { apply (clear_run NodeMaxSize fuel ps); [done|done|].
    pose proof (wf_nodes_le _ _ Hwf1) as Hle.
    rewrite Hflat1 in Hle. cbn [flat fmap list_fmap concat app] in Hle. lia. }
  unfold rethrow, new_list. f_equal. f_equal; [|done].
  apply dom_empty_iff_L. rewrite dom_release, Hdomt, Hdom1.
  apply set_eq. intros p. rewrite elem_of_difference, elem_of_union, !elem_of_list_to_set.
  split; [|by intros ?%not_elem_of_empty].
  intros [[Hp|Hp] Hnp]; [|done]. destruct Hnp. by apply Hsub.
Qed.

End RangeCtor.

(** ** The copy constructor and copy assignment *)

Section Copy.

Context {T : Type}.
Variable NodeMaxSize : Z.

Implicit Types (h : gmap ptr (@Node T)) (nd : @Node T) (xs ys : list T).
Implicit Types (s : @state T) (st : list (option T)).
Implicit Types (segs : list (ptr * list T)) (ps : list ptr).

(** A cursor's position depends on the chain, not on the rest of the heap. *)
Lemma advance_same_chain h h' cur segs (k : nat) :
  NodeMaxSize < size_modulus →
  fseg NodeMaxSize h cur segs None → fseg NodeMaxSize h' cur segs None →
  (k ≤ length (flat segs))%nat →
  advance h (mkIter cur 0) k = advance h' (mkIter cur 0) k.
Proof.
  intros HC Hf Hf' Hk.
  destruct (decide (k = length (flat segs))) as [->|Hne].
  - by rewrite !(advance_fseg_end NodeMaxSize HC _ _ segs None).
  - destruct (flat_position segs k) as (segs1 & p & xs & segs2 & i & -> & -> & Hi); [lia|].
    by rewrite !(advance_fseg NodeMaxSize HC _ _ segs1 p xs segs2 None i).
Qed.

Lemma push_back_packed s segs segs' (v : T) :
  wf NodeMaxSize s segs →
  match last segs with
  | Some (t, xs) =>
      if decide (Z.of_nat (length xs) < NodeMaxSize)
      then segs' = removelast segs ++ [(t, xs ++ [v])]
      else ∃ q, segs' = segs ++ [(q, [v])]
  | None => ∃ q, segs' = [(q, [v])]
  end →
  packed NodeMaxSize segs → packed NodeMaxSize segs'.
Proof.
  intros Hwf Hshape Hpk.
  destruct segs as [|[t xs] segs _] using rev_ind.
  - cbn in Hshape. destruct Hshape as [q ->]. apply (packed_snoc NodeMaxSize []).
    intros ?? Hin. by apply elem_of_nil in Hin.
  - rewrite last_snoc in Hshape. destruct (decide _) as [Hroom|Hfull].
    + rewrite removelast_last in Hshape. subst segs'.
      apply packed_snoc. exact (proj1 (packed_snoc _ _ _ _) Hpk).
    + destruct Hshape as [q ->]. apply packed_snoc.
      intros q' ys [Hin|Hin]%elem_of_app.
      * by apply (proj1 (packed_snoc _ _ _ _) Hpk q' ys).
      * apply list_elem_of_singleton in Hin. injection Hin as -> ->.
        destruct Hwf as (HC & Hd & _).
        apply dseg_app in Hd as (ml & m & _ & Hd).
        cbn [dseg] in Hd. destruct Hd as (_ & nd & _ & _ & Hh & _).
        destruct Hh as (_ & _ & Hn & _). lia.
Qed.

Lemma push_back_keeps_nodes segs segs' (v : T) :
  match last segs with
  | Some (t, xs) =>
      if decide (Z.of_nat (length xs) < NodeMaxSize)
      then segs' = removelast segs ++ [(t, xs ++ [v])]
      else ∃ q, segs' = segs ++ [(q, [v])]
  | None => ∃ q, segs' = [(q, [v])]
  end →
  ∀ p, p ∈ segs.*1 → p ∈ segs'.*1.
Proof.
  intros Hshape.
  destruct (last segs) as [[t xs]|] eqn:Hlast.
  - apply last_Some in Hlast as [l' ->].
    destruct (decide _).
    + subst segs'. by rewrite removelast_last, !fmap_app.
    + destruct Hshape as [q ->]. rewrite (fmap_app _ (_ ++ _)).
      intros p Hp. apply elem_of_app. by left.
  - apply last_None in Hlast as ->. intros y Hy. by apply elem_of_nil in Hy.
Qed.

Lemma copy_loop_run (ho to : option ptr) segs (fuel k : nat) s segs_t it :
  dseg NodeMaxSize (mem s) None ho segs to None →
  wf NodeMaxSize s segs_t →
  (∀ p, p ∈ segs_t.*1 → p ∉ segs.*1) →
  flat segs_t = take k (flat segs) → (k ≤ length (flat segs))%nat →
  advance (mem s) (mkIter ho 0) k = Some it →
  no_throw (take (length (flat segs) - k) (faults s)) →
  Z.of_nat (length (flat segs)) < size_modulus →
  (length (flat segs) - k < fuel)%nat →
  ∃ s' segs',
    copy_loop NodeMaxSize fuel it s = Ret true s' ∧
    wf NodeMaxSize s' segs' ∧
    flat segs' = flat segs ∧
    (∀ p, p ∈ segs'.*1 → p ∉ segs.*1) ∧
    dseg NodeMaxSize (mem s') None ho segs to None ∧
    (packed NodeMaxSize segs_t → packed NodeMaxSize segs') ∧
    faults s' = drop (length (flat segs) - k) (faults s) ∧
    (∀ p, p ∈ segs_t.*1 → p ∈ segs'.*1) ∧
    dom (mem s') = dom (mem s) ∪ list_to_set (segs'.*1).
Proof.
  revert k s segs_t it.
  induction fuel as [|fuel IH]; intros k s segs_t it Hdo Hwf Hdisj Hflat Hk Hadv Hnt Hlen Hfuel;
    [lia|].
  pose proof Hwf as (HC & _ & _ & Hsz & _).
  pose proof (fseg_enumerates NodeMaxSize (proj2 HC) _ _ _ (dseg_fseg _ _ _ _ _ _ _ Hdo)) as Hen.
  destruct (Hen k Hk) as (it0 & Hadv0 & Hlt & Heq).
  rewrite Hadv in Hadv0. injection Hadv0 as <-.
  destruct (decide (k = length (flat segs))) as [->|Hne].
  - rewrite (Heq eq_refl). exists s, segs_t. split_and!; try done.
    + by rewrite Hflat, firstn_all.
    + by rewrite Nat.sub_diag.
    + destruct Hwf as (_ & Hdt & _). pose proof (dseg_in_dom _ _ _ _ _ _ _ Hdt). set_solver.
  - destruct Hlt as [Hnend Hderef]; [lia|].
    destruct (lookup_lt_is_Some_2 (flat segs) k) as [x Hx]; [lia|].
    rewrite Hx in Hderef.
    assert (Z.of_nat (length (flat segs_t)) = Z.of_nat k) as Hlenk.
    { rewrite Hflat, length_take. lia. }
    destruct (push_back_run NodeMaxSize s segs_t x Hwf
                (no_throw_take_le 1 _ _ Hnt ltac:(lia)) ltac:(lia))
      as (s1 & segs1 & Hpb & Hwf1 & Hflat1 & _ & _ & Hf1 & Hdom1 & Hframe & Hfresh & Hshape).
    pose proof (push_back_keeps_nodes _ _ _ Hshape) as Hkeep1.
    assert (dseg NodeMaxSize (mem s1) None ho segs to None) as Hdo1.
    { eapply dseg_frame; [|exact Hdo]. intros p Hp. apply Hframe.
      - intros Hin. by apply (Hdisj p).
      - by eapply dseg_in_heap. }
    pose proof (fseg_enumerates NodeMaxSize (proj2 HC) _ _ _ (dseg_fseg _ _ _ _ _ _ _ Hdo1))
      as Hen1.
    destruct (Hen1 (S k)) as (it2 & Hadv2 & _); [lia|].
    assert (iter_inc (mem s1) it = Some it2) as Hinc.
    { rewrite advance_succ in Hadv2.
      rewrite <- (advance_same_chain (mem s) (mem s1) ho segs k) in Hadv2;
        [|apply HC|by eapply dseg_fseg|by eapply dseg_fseg|lia].
      by rewrite Hadv in Hadv2. }
    destruct (IH (S k) s1 segs1 it2)
      as (s' & segs' & Hrun & Hwf' & Hflat' & Hdisj' & Hdo' & Hpk' & Hf' & Hkeep' & Hdom');
      try done.
    { intros p Hp Hin. destruct (Hfresh p Hp) as [Hold|Hnone].
      - by apply (Hdisj p).
      - destruct (dseg_in_heap _ _ _ _ _ _ _ _ Hdo Hin) as [? ?]. congruence. }
    { rewrite Hflat1, Hflat. by rewrite (take_S_r _ _ _ Hx). }
    { lia. }
    { rewrite Hf1. apply (no_throw_take_drop 1).
      replace (1 + (length (flat segs) - S k))%nat with (length (flat segs) - k)%nat by lia.
      done. }
    { lia. }
    exists s', segs'. split_and!; try done.
    + cbn [copy_loop]. rewrite Hnend.
      eapply run_bind; [unfold read_iter; by rewrite Hderef|].
      eapply run_bind; [exact Hpb|].
      eapply run_bind; [unfold step_iter; by rewrite Hinc|]. exact Hrun.
    + intros Hpk. apply Hpk'. exact (push_back_packed s segs_t segs1 x Hwf Hshape Hpk).
    + rewrite Hf', Hf1, drop_drop. f_equal. lia.
    + intros p Hp. by apply Hkeep', Hkeep1.
    + rewrite Hdom', Hdom1. apply set_eq. intros p.
      rewrite !elem_of_union, !elem_of_list_to_set. specialize (Hkeep' p). tauto.
Qed.

Lemma copy_ctor_run other segs fs :
  wf NodeMaxSize other segs →
  no_throw (take (length (flat segs)) fs) →
  ∃ n : nat, ∀ fuel : nat, (n ≤ fuel)%nat →
  ∃ s' segs',
    copy_ctor NodeMaxSize fuel other (mkState None None 0 (mem other) fs) = Ret true s' ∧
    wf NodeMaxSize s' segs' ∧
    flat segs' = flat segs ∧
    visits NodeMaxSize s' (flat segs) ∧
    size s' = size other ∧
    packed NodeMaxSize segs' ∧
    (∀ p, p ∈ segs'.*1 → p ∉ segs.*1) ∧
    dom (mem s') = dom (mem other) ∪ list_to_set (segs'.*1) ∧
    wf NodeMaxSize
      (mkState (head_ other) (tail_ other) (size_ other) (mem s') (faults other)) segs.
Proof.
  intros Hwf Hnt. pose proof Hwf as (HC & Hd & Hnd & Hsz & Hszlt).
  exists (S (length (flat segs))). intros fuel Hfuel.
  destruct (copy_loop_run (head_ other) (tail_ other) segs fuel 0
              (mkState None None 0 (mem other) fs) [] (cbegin other))
    as (s' & segs' & Hrun & Hwf' & Hflat' & Hdisj' & Hdo' & Hpk' & Hf' & _ & Hdom'); try done.
  - split; [done|]. split; [done|]. split; [constructor|]. split; [done|].
    cbn. unfold size_modulus. lia.
  - intros p Hp. by apply elem_of_nil in Hp.
  - lia.
  - cbn [advance]. by rewrite cbegin_head.
  - by rewrite Nat.sub_0_r.
  - lia.
  - lia.
  - exists s', segs'. split_and!; try done.
    + rewrite <- Hflat'. by apply wf_visits.
    + destruct Hwf' as (_ & _ & _ & Hsz' & _). unfold size. by rewrite Hsz', Hflat', Hsz.
    + apply Hpk', packed_nil.
Qed.

(** The copy constructor, when none of its constructions throws: the new
    container is well formed and holds the elements of [other] in order, in
    nodes of its own, every one but the last full; the chain of [other] is
    left as it was. *)
Theorem copy_ctor_spec other segs fs :
  wf NodeMaxSize other segs →
  no_throw (take (length (flat segs)) fs) →
  ∃ n : nat, ∀ fuel : nat, (n ≤ fuel)%nat →
  ∃ s' segs',
    copy_ctor NodeMaxSize fuel other (mkState None None 0 (mem other) fs) = Ret true s' ∧
    wf NodeMaxSize s' segs' ∧
    flat segs' = flat segs ∧
    visits NodeMaxSize s' (flat segs) ∧
    size s' = size other ∧
    packed NodeMaxSize segs' ∧
    (∀ p, p ∈ segs'.*1 → p ∉ segs.*1) ∧
    dom (mem s') = dom (mem other) ∪ list_to_set (segs'.*1) ∧
    wf NodeMaxSize
      (mkState (head_ other) (tail_ other) (size_ other) (mem s') (faults other)) segs.
Proof. apply copy_ctor_run. Qed.


(** Copy assignment from another container ([this != &other]), when none
    of its constructions throws: the old nodes of [this] are released, and
    [this] then holds the elements of [other] in order, in nodes of its own;
    the chain of [other] is left as it was. *)
Theorem copy_assign_spec s segs_t other segs :
  wf NodeMaxSize s segs_t →
  wf NodeMaxSize other segs → mem other = mem s →
  (∀ p, p ∈ segs_t.*1 → p ∉ segs.*1) →
  no_throw (take (length (flat segs)) (faults s)) →
  ∃ n : nat, ∀ fuel : nat, (n ≤ fuel)%nat →
  ∃ s' segs',
    copy_assign NodeMaxSize fuel other s = Ret true s' ∧
    wf NodeMaxSize s' segs' ∧
    flat segs' = flat segs ∧
    visits NodeMaxSize s' (flat segs) ∧
    size s' = size other ∧
    packed NodeMaxSize segs' ∧
    (∀ p, p ∈ segs'.*1 → p ∉ segs.*1) ∧
    dom (mem s') = (dom (mem s) ∖ list_to_set (segs_t.*1)) ∪ list_to_set (segs'.*1) ∧
    wf NodeMaxSize
      (mkState (head_ other) (tail_ other) (size_ other) (mem s') (faults other)) segs.
Proof.
  intros Hwft Hwf Hmem Hdisj Hnt. pose proof Hwf as (HC & Hd & Hnd & Hsz & Hszlt).
  exists (length segs_t `max` S (length (flat segs)))%nat. intros fuel Hfuel.
  pose proof (wf_fseg _ _ _ Hwft) as Hfst.
  pose proof Hwft as (_ & _ & Hndt & _).
  pose proof (clear_run NodeMaxSize fuel (segs_t.*1) s (fseg_chain _ _ _ _ Hfst) Hndt
                ltac:(rewrite length_fmap; lia)) as Hclear.
  set (h1 := foldl (λ h' p, delete p h') (mem s) segs_t.*1) in *.
  destruct (copy_loop_run (head_ other) (tail_ other) segs fuel 0
              (mkState None None 0 h1 (faults s)) [] (cbegin other))
    as (s' & segs' & Hrun & Hwf' & Hflat' & Hdisj' & Hdo' & Hpk' & Hf' & _ & Hdom'); try done.
  - cbn [mem]. eapply dseg_frame; [|exact Hd].
    intros p Hp. rewrite Hmem. unfold h1. rewrite lookup_release.
    rewrite decide_False; [done|]. intros Hin. by apply (Hdisj p).
  - split; [done|]. split; [done|]. split; [constructor|]. split; [done|].
    cbn. unfold size_modulus. lia.
  - intros p Hp. by apply elem_of_nil in Hp.
  - lia.
  - cbn [advance]. by rewrite cbegin_head.
  - by rewrite Nat.sub_0_r.
  - lia.
  - lia.
  - exists s', segs'. split_and!; try done.
    + unfold copy_assign. eapply run_bind; [exact Hclear|]. exact Hrun.
    + rewrite <- Hflat'. by apply wf_visits.
    + destruct Hwf' as (_ & _ & _ & Hsz' & _). unfold size. by rewrite Hsz', Hflat', Hsz.
    + apply Hpk', packed_nil.
    + rewrite Hdom'. cbn [mem]. unfold h1. by rewrite dom_release.
Qed.

End Copy.

(** ** Increment and decrement *)

Section RoundTrip.

Context {T : Type}.
Variable NodeMaxSize : Z.

Implicit Types (h : gmap ptr (@Node T)) (nd : @Node T) (xs ys : list T).
Implicit Types (s : @state T) (st : list (option T)).
Implicit Types (segs : list (ptr * list T)) (ps : list ptr).

(** Incrementing an element cursor and decrementing the result gives the
    cursor back, across node boundaries too, unless the increment reached
    [end()]: decrementing [end()] gives [end()], not the last element. *)
Theorem inc_dec_round_trip s segs (k : nat) it :
  wf NodeMaxSize s segs → (k < length (flat segs))%nat →
  advance (mem s) (cbegin s) k = Some it →
  ∃ it',
    iter_inc (mem s) it = Some it' ∧
    iter_dec (mem s) it' = Some (if decide (S k < length (flat segs))%nat then it else cend).
Proof.
  intros Hwf Hk Hadv. pose proof (wf_fseg _ _ _ Hwf) as Hfs.
  destruct Hwf as (HC & Hd & _).
  destruct (flat_position segs k Hk) as (segs1 & p & xs & segs2 & i & -> & -> & Hi).
  rewrite cbegin_head in Hadv.
  rewrite (advance_fseg NodeMaxSize (proj2 HC) _ _ segs1 p xs segs2 None i Hfs Hi) in Hadv.
  injection Hadv as <-.
  apply dseg_app in Hd as (ml & m & Hd1 & Hd2).
  cbn [dseg] in Hd2. destruct Hd2 as (-> & nd & Hp & Hpv & Hh & Hd2).
  pose proof Hh as (Hc & Hl & Hn & Hs).
  rewrite flat_app, flat_cons, !length_app.
  destruct (decide (S i < length xs)%nat) as [Hin|Hout].
  - exists (mkIter (Some p) (Z.of_nat (S i))).
    split; [by apply (inc_in_node NodeMaxSize (proj2 HC) _ _ nd xs)|].
    rewrite decide_True by lia.
    unfold iter_dec. cbn [node_ index_]. rewrite decide_False by lia.
    rewrite wrap_small by lia. do 3 f_equal. lia.
  - exists (mkIter (next nd) 0).
    split; [apply (inc_leaves_node NodeMaxSize (proj2 HC) _ _ nd xs); (done || lia)|].
    destruct segs2 as [|[p2 ys] segs2].
    + cbn [dseg] in Hd2. destruct Hd2 as [-> _].
      cbn [flat fmap list_fmap concat length]. rewrite decide_False by lia. done.
    + cbn [dseg] in Hd2. destruct Hd2 as (-> & nd2 & Hp2 & Hpv2 & Hh2 & _).
      pose proof Hh2 as (_ & _ & Hn2 & _).
      rewrite flat_cons, length_app. rewrite decide_True by lia.
      unfold iter_dec. cbn [node_ index_]. rewrite decide_True by done.
      rewrite Hp2. cbn [mbind option_bind]. rewrite Hpv2, Hp. cbn [mbind option_bind].
      rewrite Hc, wrap_small by lia. do 3 f_equal. lia.
Qed.

End RoundTrip.

(** ** erase keeps the chain; erase of a range up to the end *)

Section EraseChain.

Context {T : Type}.
Variable NodeMaxSize : Z.

Implicit Types (h : gmap ptr (@Node T)) (nd : @Node T) (xs ys : list T).
Implicit Types (s : @state T) (st : list (option T)).
Implicit Types (segs : list (ptr * list T)) (ps : list ptr).

(** [erase] keeps the chain well formed, unless it removes the only
    element of the container. *)
Lemma erase_at_wf s segs1 p xs segs2 (i : nat) :
  wf NodeMaxSize s (segs1 ++ (p, xs) :: segs2) → (i < length xs)%nat →
  (1 < length (flat (segs1 ++ (p, xs) :: segs2)))%nat →
  ∃ it' s',
    erase NodeMaxSize (mkIter (Some p) (Z.of_nat i)) s = Ret it' s' ∧
    wf NodeMaxSize s'
      (if decide (length xs = 1%nat) then segs1 ++ segs2
       else segs1 ++ (p, delete i xs) :: segs2) ∧
    faults s' = faults s ∧
    dom (mem s') = (if decide (length xs = 1%nat) then dom (mem s) ∖ {[p]} else dom (mem s)).
Proof.
  intros (HC & Hd & Hnd & Hsz & Hszlt) Hi Hmore.
  destruct s as [hd tl sz h fs]. cbn [mem head_ tail_ size_ faults] in *.
  pose proof Hnd as Hndall.
  apply dseg_app in Hd as (ml & m & Hd1 & Hd2).
  cbn [dseg] in Hd2. destruct Hd2 as (-> & nd & Hp & Hpv & Hh & Hd2).
  destruct nd as [pv nx c st]. cbn [prev next] in *.
  pose proof Hh as (Hc & Hl & Hn & Hs). cbn [count storage] in Hc, Hl. subst c.
  rewrite fmap_app, fmap_cons in Hnd. cbn [fst] in Hnd.
  apply NoDup_app in Hnd as (Hnd1 & Hdisj & Hnd2).
  apply NoDup_cons in Hnd2 as [Hp2 Hnd2].
  assert (p ∉ segs1.*1) as Hp1.
  { intros Hin. apply (Hdisj _ Hin). apply elem_of_cons. by left. }
  assert (NoDup (segs1 ++ segs2).*1) as Hndrest.
  { rewrite fmap_app. apply NoDup_app. split; [done|]. split; [|done].
    intros y Hy1 Hy2. apply (Hdisj _ Hy1). apply elem_of_cons. by right. }
  assert (p ∈ dom h) as Hpdom by (eapply elem_of_dom_2; eassumption).
  rewrite flat_app, flat_cons, !length_app in Hsz, Hmore.
  unfold erase. cbn [node_ index_].
  erewrite run_erase_prefix; [|lia|done|done|done|cbn [size_]; lia].
  cbn [mem head_ tail_ size_ faults].
  set (st' := shift_left_slots (<[i:=None]> st) (S i) (length xs - S i)).
  destruct (decide (length xs = 1%nat)) as [Hone|Hmany].
  - (* the node becomes empty and is unlinked *)
    rewrite Hone in *. change (Z.of_nat 1 - 1) with 0.
    assert (i = 0%nat) as -> by lia.
    destruct segs1 as [|[q ys] segs1 _] using rev_ind;
      [|destruct segs2 as [|[r zs] segs2]].
    + (* head node *)
      cbn [dseg] in Hd1. destruct Hd1 as [-> ->]. subst pv.
      destruct segs2 as [|[r zs] segs2]; [cbn in Hmore; lia|].
      cbn [dseg] in Hd2. destruct Hd2 as (-> & ndr & Hr & Hrp & Hrh & Hd2).
      assert (r ≠ p) as Hrp'.
      { intros ->. apply Hp2. cbn. apply elem_of_cons. by left. }
      assert (r ∈ dom h) as Hrdom by (eapply elem_of_dom_2; eassumption).
      cbn [fmap list_fmap fst] in Hnd2. apply NoDup_cons in Hnd2 as [Hr2 Hnd2].
      assert (tl ≠ Some p) as Htl.
      { destruct (dseg_last_in NodeMaxSize h (Some p) (Some r) ((r, zs) :: segs2) tl None)
          as (x & -> & Hx).
        - cbn [dseg]. split; [done|]. eauto 8.
        - done.
        - intros [= ->]. done. }
      eexists _, _. split.
      { do 3 exec_step.
        rewrite decide_False by (intros (_ & ? & _); done).
        rewrite decide_True by done.
        do 3 exec_step. reflexivity. }
      cbn [mem head_ tail_ size_ faults app].
      split.
      { split; [done|]. cbn [mem head_ tail_ size_]. split.
        { cbn [dseg]. split; [done|]. eexists. split; [solve_lookup|].
          split; [done|]. split; [by apply holds_relink|]. cbn [next].
          apply dseg_delete_other.
          { intros Hin. apply Hp2. cbn. apply elem_of_cons. by right. }
          apply dseg_insert_other; [done|].
          apply dseg_insert_other.
          { intros Hin. apply Hp2. cbn. apply elem_of_cons. by right. }
          done. }
        split; [done|]. rewrite flat_cons, length_app in *. cbn [flat fmap list_fmap concat length] in *.
        lia. }
      split; [done|].
      rewrite dom_delete_L, !dom_insert_L. set_solver.
    + (* tail node, not the head *)
      apply dseg_app in Hd1 as (ml' & m' & Hd1 & Hdq).
      cbn [dseg] in Hdq. destruct Hdq as (-> & ndq & Hq & Hqp & Hqh & Hqn & ->). subst pv.
      cbn [dseg] in Hd2. destruct Hd2 as [-> ->].
      assert (q ≠ p) as Hqp'.
      { intros ->. apply Hp1. rewrite fmap_app. apply elem_of_app. right.
        cbn. apply elem_of_cons. by left. }
      assert (q ∈ dom h) as Hqdom by (eapply elem_of_dom_2; eassumption).
      assert (hd ≠ Some p) as Hhd.
      { destruct (dseg_cur_in NodeMaxSize h None hd (segs1 ++ [(q, ys)]) (Some q) (Some p))
          as (x & -> & Hx).
        - apply dseg_app. exists ml', (Some q). split; [done|]. cbn [dseg]. eauto 8.
        - by destruct segs1.
        - intros [= ->]. done. }
      rewrite fmap_app in Hnd1. apply NoDup_app in Hnd1 as (Hnd1 & Hdisj1 & _).
      assert (q ∉ segs1.*1) as Hq1.
      { intros Hin. apply (Hdisj1 _ Hin). cbn. apply elem_of_cons. by left. }
      eexists _, _. split.
      { do 3 exec_step.
        rewrite decide_False by (intros (_ & _ & ?); done).
        rewrite decide_False by (intros (_ & ?); congruence).
        rewrite decide_True by done.
        do 3 exec_step. reflexivity. }
      cbn [mem head_ tail_ size_ faults]. rewrite app_nil_r in *.
      split.
      { split; [done|]. cbn [mem head_ tail_ size_]. split.
        { apply dseg_app. exists ml', (Some q). split.
          - apply dseg_delete_other.
            { intros Hin. apply Hp1. rewrite fmap_app. apply elem_of_app. by left. }
            apply dseg_insert_other; [done|].
            apply dseg_insert_other.
            { intros Hin. apply Hp1. rewrite fmap_app. apply elem_of_app. by left. }
            done.
          - cbn [dseg]. split; [done|]. eexists. split; [solve_lookup|].
            split; [done|]. split; [by apply holds_relink|]. done. }
        split; [done|]. cbn [flat fmap list_fmap concat length] in *. lia. }
      split; [done|].
      rewrite dom_delete_L, !dom_insert_L. set_solver.
    + (* interior node *)
      apply dseg_app in Hd1 as (ml' & m' & Hd1 & Hdq).
      cbn [dseg] in Hdq. destruct Hdq as (-> & ndq & Hq & Hqp & Hqh & Hqn & ->). subst pv.
      cbn [dseg] in Hd2. destruct Hd2 as (-> & ndr & Hr & Hrp & Hrh & Hd2).
      assert (q ≠ p) as Hqp'.
      { intros ->. apply Hp1. rewrite fmap_app. apply elem_of_app. right.
        cbn. apply elem_of_cons. by left. }
      assert (r ≠ p) as Hrp'.
      { intros ->. apply Hp2. cbn. apply elem_of_cons. by left. }
      assert (q ≠ r) as Hqr.
      { intros ->. eapply Hdisj.
        - rewrite fmap_app. apply elem_of_app. right. cbn. apply elem_of_cons. by left.
        - cbn. apply elem_of_cons. right. apply elem_of_cons. by left. }
      assert (q ∈ dom h) as Hqdom by (eapply elem_of_dom_2; eassumption).
      assert (r ∈ dom h) as Hrdom by (eapply elem_of_dom_2; eassumption).
      assert (hd ≠ Some p) as Hhd.
      { destruct (dseg_cur_in NodeMaxSize h None hd (segs1 ++ [(q, ys)]) (Some q) (Some p))
          as (x & -> & Hx).
        - apply dseg_app. exists ml', (Some q). split; [done|]. cbn [dseg]. eauto 8.
        - by destruct segs1.
        - intros [= ->]. done. }
      assert (tl ≠ Some p) as Htl.
      { destruct (dseg_last_in NodeMaxSize h (Some p) (Some r) ((r, zs) :: segs2) tl None)
          as (x & -> & Hx).
        - cbn [dseg]. split; [done|]. eauto 8.
        - done.
        - intros [= ->]. done. }
      cbn [fmap list_fmap fst] in Hnd2. apply NoDup_cons in Hnd2 as [Hr2 Hnd2].
      rewrite fmap_app in Hnd1. apply NoDup_app in Hnd1 as (Hnd1 & Hdisj1 & _).
      assert (q ∉ segs1.*1) as Hq1.
      { intros Hin. apply (Hdisj1 _ Hin). cbn. apply elem_of_cons. by left. }
      eexists _, _. split.
      { do 3 exec_step.
        rewrite decide_True by (split; [done|split; congruence]).
        do 3 exec_step. reflexivity. }
      cbn [mem head_ tail_ size_ faults].
      split.
      { split; [done|]. cbn [mem head_ tail_ size_]. split.
        { apply dseg_app. exists (Some q), (Some r). split.
          - apply dseg_app. exists ml', (Some q). split.
            + apply dseg_delete_other.
              { intros Hin. apply Hp1. rewrite fmap_app. apply elem_of_app. by left. }
              apply dseg_insert_other.
              { intros Hin. eapply Hdisj.
                - rewrite fmap_app. apply elem_of_app. left. done.
                - cbn. apply elem_of_cons. right. apply elem_of_cons. by left. }
              apply dseg_insert_other; [done|].
              apply dseg_insert_other.
              { intros Hin. apply Hp1. rewrite fmap_app. apply elem_of_app. by left. }
              done.
            + cbn [dseg]. split; [done|]. eexists. split; [solve_lookup|].
              split; [done|]. split; [by apply holds_relink|]. done.
          - cbn [dseg]. split; [done|]. eexists. split; [solve_lookup|].
            split; [done|]. split; [by apply holds_relink|]. cbn [next].
            apply dseg_delete_other.
            { intros Hin. apply Hp2. cbn. apply elem_of_cons. by right. }
            apply dseg_insert_other; [done|].
            apply dseg_insert_other.
            { intros Hin. eapply Hdisj.
              - rewrite fmap_app. apply elem_of_app. right. cbn. apply elem_of_cons. by left.
              - cbn. apply elem_of_cons. right. apply elem_of_cons. by right. }
            apply dseg_insert_other.
            { intros Hin. apply Hp2. cbn. apply elem_of_cons. by right. }
            done. }
        split; [done|].
        rewrite !flat_app, !flat_cons, !length_app in *.
        cbn [flat fmap list_fmap concat length] in *. lia. }
      split; [done|].
      rewrite dom_delete_L, !dom_insert_L. set_solver.
  - (* the node keeps at least one element *)
    assert (length (delete i xs) = (length xs - 1)%nat) as Hdel.
    { pose proof (length_delete xs i (lookup_lt_is_Some_2 _ _ Hi)). lia. }
    assert (wf NodeMaxSize
              (mkState hd tl (sz - 1)
                 (<[p:=mkNode pv nx (Z.of_nat (length xs) - 1) st']> h) fs)
              (segs1 ++ (p, delete i xs) :: segs2)) as Hwf'.
    { split; [done|]. cbn [mem head_ tail_ size_]. split.
      { apply dseg_app. exists ml, (Some p). split.
        - by apply dseg_insert_other.
        - cbn [dseg]. split; [done|]. eexists. split; [solve_lookup|].
          split; [done|].
          split; [apply (holds_erase NodeMaxSize pv nx (Z.of_nat (length xs)) st xs i); (done || lia)|].
          cbn [next]. by apply dseg_insert_other. }
      split; [rewrite fmap_app, fmap_cons in Hndall |- *; exact Hndall|].
      rewrite flat_app, flat_cons, !length_app, Hdel. lia. }
    assert (dom (<[p:=mkNode pv nx (Z.of_nat (length xs) - 1) st']> h) = dom h) as Hdom'.
    { rewrite dom_insert_L. set_solver. }
    destruct (decide (i = (length xs - 1)%nat)) as [Hlast|Hmid].
    + destruct segs2 as [|[r zs] segs2].
      * cbn [dseg] in Hd2. destruct Hd2 as [-> ->].
        eexists _, _. split.
        { do 3 exec_step.
          do 3 (rewrite decide_False by (intros (? & _); lia)).
          exec_step. rewrite decide_False by lia.
          rewrite decide_True by lia. reflexivity. }
        cbn [mem head_ tail_ size_ faults]. done.
      * cbn [dseg] in Hd2. destruct Hd2 as (-> & ndr & Hr & Hrp & Hrh & Hd2).
        eexists _, _. split.
        { do 3 exec_step.
          do 3 (rewrite decide_False by (intros (? & _); lia)).
          exec_step. rewrite decide_False by lia.
          rewrite decide_True by lia. reflexivity. }
        cbn [mem head_ tail_ size_ faults]. done.
    + eexists _, _. split.
      { do 3 exec_step.
        do 3 (rewrite decide_False by (intros (? & _); lia)).
        exec_step. rewrite decide_False by lia.
        rewrite decide_False by lia. reflexivity. }
      cbn [mem head_ tail_ size_ faults]. done.
Qed.


Lemma erase_run s segs (k : nat) :
  wf NodeMaxSize s segs → (k < length (flat segs))%nat →
  ∃ pos it' s',
    advance (mem s) (cbegin s) k = Some pos ∧
    iter_eq pos cend = false ∧
    erase NodeMaxSize pos s = Ret it' s' ∧
    size_ s' = size_ s - 1 ∧
    advance (mem s') (cbegin s') k = Some it' ∧
    ((1 < length (flat segs))%nat →
     ∃ segs', wf NodeMaxSize s' segs' ∧ flat segs' = delete k (flat segs) ∧
              faults s' = faults s ∧ dom (mem s') ⊆ dom (mem s)) ∧
    (length (flat segs) = 1%nat → head_ s' = None).
Proof.
  intros Hwf Hk. pose proof (wf_fseg _ _ _ Hwf) as Hfs.
  pose proof Hwf as (HC & _).
  destruct (flat_position segs k Hk) as (segs1 & p & xs & segs2 & i & -> & -> & Hi).
  destruct (erase_at NodeMaxSize s segs1 p xs segs2 i Hwf Hi)
    as (it' & s' & Hrun & Hsz' & Hfs' & Hadv' & _ & _).
  exists (mkIter (Some p) (Z.of_nat i)), it', s'. split_and!; try done.
  - rewrite cbegin_head. by apply (advance_fseg NodeMaxSize (proj2 HC) _ _ segs1 p xs segs2 None).
  - intros Hmore.
    destruct (erase_at_wf s segs1 p xs segs2 i Hwf Hi Hmore)
      as (it2 & s2 & Hrun2 & Hwf2 & Hf2 & Hdom2).
    rewrite Hrun in Hrun2. injection Hrun2 as <- <-.
    eexists. split; [exact Hwf2|]. split; [by rewrite flat_delete|]. split; [done|].
    rewrite Hdom2. destruct (decide _); set_solver.
  - intros Hone. pose proof (wf_nodes_le _ _ _ Hwf) as Hle.
    rewrite Hone, length_app in Hle. cbn [length] in Hle.
    destruct segs1; [|cbn in Hle; lia]. destruct segs2; [|cbn in Hle; lia].
    cbn [app] in Hone. rewrite flat_cons, length_app in Hone. cbn in Hone.
    rewrite decide_True in Hfs' by lia. cbn [app fseg] in Hfs'. done.
Qed.

Lemma take_delete_same {A} (l : list A) (k : nat) :
  (k ≤ length l)%nat → take k (delete k l) = take k l.
Proof.
  intros Hk. rewrite delete_take_drop.
  rewrite take_app_le by (rewrite length_take; lia).
  rewrite take_take. f_equal. lia.
Qed.

Lemma erase_tail_run (n : nat) s segs (k : nat) pos (fuel : nat) :
  wf NodeMaxSize s segs → length (flat segs) = (k + n)%nat →
  advance (mem s) (cbegin s) k = Some pos → (n < fuel)%nat →
  ∃ s',
    erase_range NodeMaxSize fuel pos cend s = Ret (Some cend) s' ∧
    visits NodeMaxSize s' (take k (flat segs)) ∧
    size s' = Z.of_nat k ∧
    ((0 < k)%nat →
     ∃ segs', wf NodeMaxSize s' segs' ∧ flat segs' = take k (flat segs) ∧
              faults s' = faults s ∧ dom (mem s') ⊆ dom (mem s)).
Proof.
  revert s segs pos fuel. induction n as [|n IH]; intros s segs pos fuel Hwf Hlen Hadv Hfuel.
  - destruct fuel as [|fuel]; [lia|].
    destruct (wf_enumerates _ _ _ Hwf k ltac:(lia)) as (it & Hadv0 & _ & Hend).
    rewrite Hadv in Hadv0. injection Hadv0 as <-.
    rewrite (Hend ltac:(lia)). exists s. split; [done|].
    rewrite take_ge by lia.
    split; [by apply wf_visits|].
    split; [destruct Hwf as (_ & _ & _ & Hsz & _); unfold size; rewrite Hsz; lia|].
    intros _. exists segs. split; [done|]. split; [done|]. done.
  - destruct fuel as [|fuel]; [lia|].
    destruct (erase_run s segs k Hwf ltac:(lia))
      as (pos' & it' & s1 & Hadv1 & Hnend & Hrun & Hsz1 & Hadv' & Hmore & Hone).
    rewrite Hadv in Hadv1. injection Hadv1 as <-.
    cbn [erase_range]. rewrite Hnend.
    destruct (decide (length (flat segs) = 1%nat)) as [H1|Hn1].
    + assert (k = 0%nat) as -> by lia. assert (n = 0%nat) as -> by lia.
      specialize (Hone H1).
      cbn [advance] in Hadv'. injection Hadv' as <-.
      assert (cbegin s1 = cend) as Hcb by (rewrite cbegin_head, Hone; done).
      exists s1. split.
      { eapply run_bind; [exact Hrun|]. rewrite Hcb.
        destruct fuel as [|fuel]; [lia|]. done. }
      split.
      { exists 1%nat. intros [|f] Hf; [lia|]. rewrite Hcb. done. }
      split; [|lia].
      destruct Hwf as (_ & _ & _ & Hsz & _). unfold size. rewrite Hsz1, Hsz, H1. done.
    + destruct Hmore as (segs1 & Hwf1 & Hflat1 & Hf1 & Hdom1); [lia|].
      destruct (IH s1 segs1 it' fuel Hwf1) as (s' & Hrun' & Hv' & Hsz' & Hpos'); try done.
      { rewrite Hflat1, length_delete by (apply lookup_lt_is_Some_2; lia). lia. }
      { lia. }
      rewrite Hflat1, take_delete_same in * by lia.
      exists s'. split; [eapply run_bind; [exact Hrun|exact Hrun']|].
      split; [done|]. split; [done|].
      intros Hk. destruct (Hpos' Hk) as (segs' & Hwf' & Hflat' & Hf' & Hdom').
      exists segs'. split; [done|]. split; [done|]. split; [congruence|]. set_solver.
Qed.

(** [erase] keeps the container well formed whenever an element is left:
    the chain loses the element under the cursor and nothing else, no node
    is allocated, and the returned cursor is the one at the same
    position. *)
Theorem erase_keeps_wf s segs (k : nat) :
  wf NodeMaxSize s segs → (k < length (flat segs))%nat →
  (1 < length (flat segs))%nat →
  ∃ pos it' s' segs',
    advance (mem s) (cbegin s) k = Some pos ∧
    erase NodeMaxSize pos s = Ret it' s' ∧
    wf NodeMaxSize s' segs' ∧
    flat segs' = delete k (flat segs) ∧
    advance (mem s') (cbegin s') k = Some it' ∧
    dom (mem s') ⊆ dom (mem s).
Proof.
  intros Hwf Hk Hmore.
  destruct (erase_run s segs k Hwf Hk)
    as (pos & it' & s' & Hadv & _ & Hrun & _ & Hadv' & Hwf' & _).
  destruct (Hwf' Hmore) as (segs' & ? & ? & _ & ?).
  by exists pos, it', s', segs'.
Qed.

(** [erase(first, end())] with [first] at position [k]: the loop ends,
    returns [end()], and leaves exactly the first [k] elements; the
    container stays well formed when [k > 0]. *)
Theorem erase_range_to_end_spec s segs (k : nat) :
  wf NodeMaxSize s segs → (k ≤ length (flat segs))%nat →
  ∃ pos (n : nat),
    advance (mem s) (cbegin s) k = Some pos ∧
    ∀ fuel : nat, (n ≤ fuel)%nat →
    ∃ s',
      erase_range NodeMaxSize fuel pos cend s = Ret (Some cend) s' ∧
      visits NodeMaxSize s' (take k (flat segs)) ∧
      size s' = Z.of_nat k ∧
      ((0 < k)%nat →
       ∃ segs', wf NodeMaxSize s' segs' ∧ flat segs' = take k (flat segs) ∧
                faults s' = faults s ∧ dom (mem s') ⊆ dom (mem s)).
Proof.
  intros Hwf Hk.
  destruct (wf_enumerates _ _ _ Hwf k Hk) as (pos & Hadv & _).
  exists pos, (S (length (flat segs) - k)). split; [done|].
  intros fuel Hfuel.
  apply (erase_tail_run (length (flat segs) - k) s segs k pos fuel); (done || lia).
Qed.

(** The node that keeps an element after [erase]: the victim is
    destroyed, the elements behind it have moved one slot to the left, and
    nothing else has changed in the heap or in [head_] and [tail_]. *)
Lemma erase_at_kept s segs1 p xs segs2 (i : nat) nd :
  wf NodeMaxSize s (segs1 ++ (p, xs) :: segs2) → (i < length xs)%nat →
  length xs ≠ 1%nat → mem s !! p = Some nd →
  ∃ it' s',
    erase NodeMaxSize (mkIter (Some p) (Z.of_nat i)) s = Ret it' s' ∧
    head_ s' = head_ s ∧ tail_ s' = tail_ s ∧
    mem s' =
      <[p := mkNode (prev nd) (next nd) (count nd - 1)
               (shift_left_slots (<[i := None]> (storage nd)) (S i) (length xs - S i))]>
        (mem s).
Proof.
  intros (HC & Hd & Hnd & Hsz & Hszlt) Hi Hmany Hnd0.
  destruct s as [hd tl sz h fs]. cbn [mem head_ tail_ size_ faults] in *.
  apply dseg_app in Hd as (ml & m & Hd1 & Hd2).
  cbn [dseg] in Hd2. destruct Hd2 as (-> & nd1 & Hp & Hpv & Hh & Hd2).
  rewrite Hnd0 in Hp. injection Hp as <-.
  destruct nd as [pv nx c st]. cbn [prev next count storage] in *.
  pose proof Hh as (Hc & Hl & Hn & Hs). cbn [count storage] in Hc, Hl. subst c.
  rewrite flat_app, flat_cons, !length_app in Hsz.
  unfold erase. cbn [node_ index_].
  erewrite run_erase_prefix; [|lia|done|done|done|cbn [size_]; lia].
  cbn [mem head_ tail_ size_ faults].
  destruct (decide (Z.of_nat (length xs) - 1 ≤ Z.of_nat i)) as [Hle|Hgt];
    [destruct nx as [nxt|]|];
    (eexists _, _; split;
     [do 3 exec_step;
      do 3 (rewrite decide_False by (intros (? & _); lia));
      exec_step; rewrite decide_False by lia;
      first [rewrite decide_True by lia|rewrite decide_False by lia]; reflexivity
     |done]).
Qed.

(** [erase] of the only element: the head branch releases the node and
    returns; [tail_] is not assigned. *)
Lemma erase_sole s p xs :
  wf NodeMaxSize s [(p, xs)] → length xs = 1%nat →
  ∃ s',
    erase NodeMaxSize (mkIter (Some p) 0) s = Ret cend s' ∧
    head_ s' = None ∧ tail_ s' = tail_ s ∧
    dom (mem s') = dom (mem s) ∖ {[p]}.
Proof.
  intros (HC & Hd & Hnd & Hsz & Hszlt) Hone.
  destruct s as [hd tl sz h fs]. cbn [mem head_ tail_ size_ faults] in *.
  cbn [dseg] in Hd. destruct Hd as (-> & nd & Hp & Hpv & Hh & Htl & Hnx).
  destruct nd as [pv nx c st]. cbn [prev next count storage] in *. subst pv nx tl.
  pose proof Hh as (Hc & Hl & Hn & Hs). cbn [count storage] in Hc, Hl. subst c.
  rewrite flat_cons, length_app in Hsz. cbn [flat fmap list_fmap concat length] in Hsz.
  change (mkIter (Some p) 0) with (mkIter (Some p) (Z.of_nat 0)).
  unfold erase. cbn [node_ index_].
  erewrite run_erase_prefix; [|lia|done|done|lia|cbn [size_]; lia].
  cbn [mem head_ tail_ size_ faults].
  rewrite Hone. change (Z.of_nat 1 - 1) with 0.
  eexists. split.
  { do 3 exec_step.
    rewrite decide_False by (intros (_ & ? & _); done).
    rewrite decide_True by done.
    do 3 exec_step. reflexivity. }
  cbn [mem head_ tail_ size_ faults].
  split; [done|]. split; [done|].
  rewrite dom_delete_L, dom_insert_L.
  assert (p ∈ dom h) by (eapply elem_of_dom_2; eassumption). set_solver.
Qed.

(** C4: erasing at a valid element cursor, the [k]-th position of a
    well-formed container, returns normally; the visited sequence loses
    exactly its [k]-th element, [size()] drops by one, and the returned
    cursor is the one [k] steps after [begin()]: it shows the element that
    followed the erased one, or is the end sentinel.  The node is released
    when that was its only element, and no other node is; otherwise it
    keeps one element less, the slot behind its last element holds no
    object any more, and its spare slots are as they were.  While an
    element is left the container stays well formed: [head_], [tail_] and
    the [prev] and [next] links are those of the chain without the
    element.  When the only element goes, [head_] becomes null and
    [tail_] is left as it was. *)
Theorem erase_spec s segs xs (k : nat) :
  wf NodeMaxSize s segs → visits NodeMaxSize s xs → (k < length xs)%nat →
  ∃ pos it' s',
    advance (mem s) (cbegin s) k = Some pos ∧
    erase NodeMaxSize pos s = Ret it' s' ∧
    visits NodeMaxSize s' (delete k xs) ∧
    size s' = size s - 1 ∧
    advance (mem s') (cbegin s') k = Some it' ∧
    iter_deref NodeMaxSize (mem s') it' = xs !! S k ∧
    (S k = length xs → it' = cend) ∧
    (∀ p nd, node_ pos = Some p → mem s !! p = Some nd →
       if decide (count nd = 1) then
         mem s' !! p = None ∧ dom (mem s') = dom (mem s) ∖ {[p]}
       else
         ∃ nd', mem s' !! p = Some nd' ∧ count nd' = count nd - 1 ∧
                storage nd' !! Z.to_nat (count nd') = Some None ∧
                (vacant NodeMaxSize nd → vacant NodeMaxSize nd') ∧
                dom (mem s') = dom (mem s)) ∧
    ((1 < length xs)%nat →
     ∃ segs', wf NodeMaxSize s' segs' ∧ flat segs' = delete k xs) ∧
    (length xs = 1%nat → head_ s' = None ∧ tail_ s' = tail_ s).
Proof.
  intros Hwf Hv Hk.
  rewrite (visits_inj _ _ _ _ Hv (wf_visits _ _ _ Hwf)) in *. clear Hv.
  pose proof Hwf as (HC & _).
  destruct (flat_position segs k Hk) as (segs1 & p & ys & segs2 & i & -> & -> & Hi).
  pose proof (wf_fseg _ _ _ Hwf) as Hf.
  destruct (erase_at NodeMaxSize s segs1 p ys segs2 i Hwf Hi)
    as (it' & s' & Hrun & Hsize & Hf' & Hadv & Hgone & Hkept).
  destruct (fseg_lookup _ _ _ _ _ _ _ _ Hf) as (nd0 & Hnd0 & Hh0).
  assert (length ys = 1%nat → length (flat (segs1 ++ (p, ys) :: segs2)) = 1%nat →
          head_ s' = None ∧ tail_ s' = tail_ s ∧ dom (mem s') = dom (mem s) ∖ {[p]}) as Hsole.
  { intros Hone Hall. pose proof (wf_nodes_le _ _ _ Hwf) as Hle.
    rewrite Hall, length_app in Hle. cbn [length] in Hle.
    destruct segs1; [|cbn in Hle; lia]. destruct segs2; [|cbn in Hle; lia].
    cbn [app] in *. assert (i = 0%nat) as -> by lia.
    destruct (erase_sole s p ys Hwf Hone) as (s2 & Hrun2 & ?).
    change (Z.of_nat 0) with 0 in Hrun. rewrite Hrun in Hrun2. by injection Hrun2 as _ <-. }
  exists (mkIter (Some p) (Z.of_nat i)), it', s'.
  split. { rewrite cbegin_head. by apply (advance_fseg NodeMaxSize ltac:(lia) _ _ _ _ _ _ _ _ Hf). }
  split; [done|].
  rewrite flat_delete by done.
  set (segs' := if decide (length ys = 1%nat) then segs1 ++ segs2
                else segs1 ++ (p, delete i ys) :: segs2) in *.
  assert (length (flat segs') = (length (flat (segs1 ++ (p, ys) :: segs2)) - 1)%nat) as Hlen'.
  { unfold segs'. rewrite <- flat_delete by done.
    pose proof (length_delete (flat (segs1 ++ (p, ys) :: segs2)) (length (flat segs1) + i)
                  (lookup_lt_is_Some_2 _ _ Hk)). lia. }
  split.
  { exists (S (length (flat segs'))). intros fuel Hfuel.
    rewrite cbegin_head. apply iterate_fseg; [lia|done|lia]. }
  split; [done|]. split; [done|].
  pose proof (fseg_enumerates NodeMaxSize ltac:(lia) _ _ _ Hf') as Henum.
  destruct (Henum (length (flat segs1) + i)%nat) as (it2 & Hadv2 & Hlt & Hend); [lia|].
  rewrite cbegin_head in Hadv. rewrite Hadv in Hadv2. injection Hadv2 as <-.
  split.
  { destruct (decide (length (flat segs1) + i < length (flat segs'))%nat) as [Hin|Hout].
    - destruct (Hlt Hin) as [_ ->]. unfold segs'. rewrite <- flat_delete by done.
      by rewrite list_lookup_delete_ge by lia.
    - rewrite Hend by lia. cbn. symmetry. apply lookup_ge_None_2. lia. }
  split. { intros HS. apply Hend. lia. }
  split.
  { intros p' nd [= <-] Hnd.
    rewrite Hnd in Hnd0. injection Hnd0 as <-.
    pose proof Hh0 as (Hc & Hl & Hn & Hs). rewrite Hc.
    case_decide as Hone.
    - split; [apply Hgone; lia|].
      destruct (decide (1 < length (flat (segs1 ++ (p, ys) :: segs2)))%nat) as [Hmore|Hless].
      + destruct (erase_at_wf s segs1 p ys segs2 i Hwf Hi Hmore)
          as (it2 & s2 & Hrun2 & _ & _ & Hdom2).
        rewrite Hrun in Hrun2. injection Hrun2 as _ <-.
        by rewrite decide_True in Hdom2 by lia.
      + apply Hsole; lia.
    - destruct (erase_at_kept s segs1 p ys segs2 i nd Hwf Hi ltac:(lia) Hnd)
        as (it2 & s2 & Hrun2 & _ & _ & Hmem2).
      rewrite Hrun in Hrun2. injection Hrun2 as _ <-.
      eexists. split; [rewrite Hmem2; apply lookup_insert_eq|].
      cbn [count storage]. split; [lia|].
      assert (shift_left_slots (<[i:=None]> (storage nd)) (S i) (length ys - S i)
                !! (length ys - 1)%nat = Some None) as Hvac.
      { replace (length ys - 1)%nat with (pred (S i) + (length ys - S i))%nat by lia.
        apply shift_left_slots_vacated; [lia|rewrite length_insert; lia|].
        cbn [pred]. apply list_lookup_insert_eq. lia. }
      split.
      { rewrite Hc. replace (Z.to_nat (Z.of_nat (length ys) - 1)) with (length ys - 1)%nat by lia.
        exact Hvac. }
      split.
      { intros Hvn j Hj. cbn [count storage] in *.
        destruct (decide (j = (length ys - 1)%nat)) as [->|Hne]; [exact Hvac|].
        rewrite shift_left_slots_after by lia.
        rewrite list_lookup_insert_ne by lia.
        apply Hvn. lia. }
      rewrite Hmem2, dom_insert_L.
      assert (p ∈ dom (mem s)) by (eapply elem_of_dom_2; eassumption). set_solver. }
  split.
  { intros Hmore.
    destruct (erase_at_wf s segs1 p ys segs2 i Hwf Hi Hmore)
      as (it2 & s2 & Hrun2 & Hwf2 & _ & _).
    rewrite Hrun in Hrun2. injection Hrun2 as _ <-.
    by exists segs'. }
  intros Hall.
  assert (length ys = 1%nat) as Hone.
  { destruct Hh0 as (_ & _ & ? & _).
    rewrite flat_app, flat_cons, !length_app in Hall. lia. }
  by destruct (Hsole Hone Hall) as (? & ? & _).
Qed.

End EraseChain.

(** ** Round trips and rollbacks *)

Section RoundTrips.

Context {T : Type}.
Variable NodeMaxSize : Z.

Implicit Types (h : gmap ptr (@Node T)) (nd : @Node T) (xs ys : list T).
Implicit Types (s : @state T) (st : list (option T)).
Implicit Types (segs : list (ptr * list T)) (ps : list ptr).

(** The strong guarantee of [push_front] where the code provides it: with
    a full head node, a construction that throws leaves every member and the
    heap as they were. *)
Theorem push_front_full_throw_restores s p nd v fs :
  head_ s = Some p → mem s !! p = Some nd → faults s = true :: fs →
  ¬ count nd < NodeMaxSize →
  push_front NodeMaxSize v s = Throw (with_faults fs s).
Proof.
  intros Hhd Hnd Hf Hfull.
  destruct s as [hd tl sz h fs0]. cbn [mem head_ tail_ size_ faults] in *. subst hd fs0.
  unfold push_front.
  eapply run_bind; [reflexivity|]. cbn [head_].
  eapply run_bind; [reflexivity|].
  eapply run_bind; [reflexivity|]. cbn [head_].
  eapply run_bind; [reflexivity|].
  eapply run_bind; [by apply run_load|].
  rewrite decide_False by done.
  eapply run_bind; [apply run_create_node|].
  cbn [mem head_ tail_ size_ faults].
  assert (h !! fresh (dom h) = None) as Hfresh by (apply not_elem_of_dom, is_fresh).
  eapply run_catch.
  { apply run_bind_throw. by apply run_construct_throw. }
  unfold with_faults. cbn [mem head_ tail_ size_ faults].
  eapply run_bind.
  { eapply run_destroy_empty_node; cbn [mem]; [apply lookup_insert_eq|done]. }
  cbn [mem head_ tail_ size_ faults].
  rewrite delete_insert_id by done. done.
Qed.

(** [push_back] followed by [pop_back] gives back the same chain: the
    same nodes with the same elements, and a node allocated for the value is
    released again. *)
Theorem push_pop_back_round_trip s segs v :
  wf NodeMaxSize s segs →
  no_throw (take 1 (faults s)) →
  size_ s + 1 < size_modulus →
  ∃ s1 s2,
    push_back NodeMaxSize v s = Ret tt s1 ∧
    pop_back NodeMaxSize s1 = Ret tt s2 ∧
    wf NodeMaxSize s2 segs ∧
    size s2 = size s ∧
    dom (mem s2) = dom (mem s).
Proof.
  intros Hwf Hnt Hroom.
  destruct (push_back_run NodeMaxSize s segs v Hwf Hnt Hroom)
    as (s1 & segs1 & Hpb & Hwf1 & _ & Hsz1 & _ & _ & Hdom1 & _ & Hfresh & Hshape).
  pose proof Hwf as (_ & Hd & _).
  pose proof (dseg_in_dom _ _ _ _ _ _ _ Hd) as Hsub.
  assert (∃ segs0 t ys, segs1 = segs0 ++ [(t, ys ++ [v])] ∧
            segs = (if decide (ys = []) then segs0 else segs0 ++ [(t, ys)]) ∧
            (ys = [] → t ∉ dom (mem s))) as (segs0 & t & ys & -> & Hsegs & Hnew).
  { destruct segs as [|[t xs] segs0 _] using rev_ind.
    - cbn in Hshape. destruct Hshape as [q ->]. exists [], q, []. split; [done|].
      split; [done|]. intros _.
      destruct (Hfresh q) as [Hin|Hnone]; [cbn; apply elem_of_cons; by left| |].
      + by apply elem_of_nil in Hin.
      + by apply not_elem_of_dom.
    - rewrite last_snoc in Hshape. destruct (decide _) as [Hspare|Hfull].
      + rewrite removelast_last in Hshape. exists segs0, t, xs. split; [done|].
        apply dseg_app in Hd as (ml & m & _ & Hd).
        cbn [dseg] in Hd. destruct Hd as (_ & nd & _ & _ & (_ & _ & Hn & _) & _).
        assert (xs ≠ []) by (intros ->; cbn in Hn; lia).
        rewrite decide_False by done. done.
      + destruct Hshape as [q ->]. exists (segs0 ++ [(t, xs)]), q, [].
        split; [done|]. split; [done|]. intros _.
        destruct Hwf1 as (_ & _ & Hnd1 & _).
        rewrite fmap_app in Hnd1. cbn [fmap list_fmap fst] in Hnd1.
        apply NoDup_app in Hnd1 as (_ & Hdisj & _).
        destruct (Hfresh q) as [Hin|Hnone].
        * rewrite fmap_app. apply elem_of_app. right. cbn. apply elem_of_cons. by left.
        * exfalso. apply (Hdisj q Hin). apply elem_of_cons. by left.
        * by apply not_elem_of_dom. }
  destruct (pop_back_run NodeMaxSize s1 segs0 t ys v Hwf1) as (s2 & Hpop & Hwf2 & Hsz2 & _ & Hdom2).
  exists s1, s2. split; [done|]. split; [done|].
  split; [by rewrite Hsegs|]. split; [lia|].
  rewrite Hdom2, Hdom1. rewrite fmap_app. cbn [fmap list_fmap fst].
  destruct (decide (ys = [])) as [Hy|Hy].
  - specialize (Hnew Hy). rewrite Hsegs in Hsub.
    apply set_eq. intros p. rewrite elem_of_difference, elem_of_union, elem_of_list_to_set,
      elem_of_app, list_elem_of_singleton, elem_of_singleton.
    split.
    + intros [[?|[?|?]] ?]; try done. apply Hsub. by apply elem_of_list_to_set.
    + intros Hp. split; [by left|]. intros ->. done.
  - rewrite Hsegs, fmap_app in Hsub. cbn [fmap list_fmap fst] in Hsub. set_solver.
Qed.

(** [push_front] followed by [pop_front] gives back the same chain. *)
Theorem push_pop_front_round_trip s segs v :
  wf NodeMaxSize s segs →
  no_throw (faults s) →
  size_ s + 1 < size_modulus →
  ∃ s1 s2,
    push_front NodeMaxSize v s = Ret tt s1 ∧
    pop_front NodeMaxSize s1 = Ret tt s2 ∧
    wf NodeMaxSize s2 segs ∧
    size s2 = size s ∧
    dom (mem s2) = dom (mem s).
Proof.
  intros Hwf Hnt Hroom.
  destruct (push_front_run NodeMaxSize s segs v Hwf Hnt Hroom)
    as (s1 & segs1 & Hpf & Hwf1 & _ & Hsz1 & _ & Hshape).
  pose proof Hwf as (_ & Hd & _).
  assert (∃ p ys rest, segs1 = (p, v :: ys) :: rest ∧
            segs = (if decide (ys = []) then rest else (p, ys) :: rest) ∧
            dom (mem s1) = (if decide (ys = []) then {[p]} ∪ dom (mem s) else dom (mem s)) ∧
            (ys = [] → p ∉ dom (mem s))) as (p & ys & rest & -> & Hsegs & Hdom1 & Hnew).
  { destruct segs as [|[p xs] rest].
    - destruct Hshape as (q & Hq & -> & Hdom & _). exists q, [], []. split; [done|].
      split; [done|]. split; [done|]. intros _. by apply not_elem_of_dom.
    - destruct (decide _) as [Hspare|Hfull].
      + destruct Hshape as (-> & Hdom & _). exists p, xs, rest. split; [done|].
        cbn [dseg] in Hd. destruct Hd as (_ & nd & _ & _ & (_ & _ & Hn & _) & _).
        assert (xs ≠ []) by (intros ->; cbn in Hn; lia).
        rewrite !decide_False by done. done.
      + destruct Hshape as (q & Hq & -> & Hdom & _). exists q, [], ((p, xs) :: rest).
        split; [done|]. split; [done|]. split; [done|]. intros _. by apply not_elem_of_dom. }
  destruct (pop_front_run NodeMaxSize s1 p v ys rest Hwf1) as (s2 & Hpop & Hwf2 & Hsz2 & _ & Hdom2).
  exists s1, s2. split; [done|]. split; [done|].
  split; [by rewrite Hsegs|]. split; [lia|].
  rewrite Hdom2, Hdom1.
  destruct (decide (ys = [])) as [Hy|Hy]; [|done].
  specialize (Hnew Hy). set_solver.
Qed.


End RoundTrips.

Section CopyCompare.

Context {T : Type}.
Variable NodeMaxSize : Z.
Variable T_ne : T → T → bool.

(** A copy compares equal to its source: after the copy constructor,
    [operator==] between the new container and [other] returns [true],
    provided [T]'s comparison finds every element equal to itself. *)
Theorem copy_compares_equal other segs fs :
  wf NodeMaxSize other segs →
  no_throw (take (length (flat segs)) fs) →
  (∀ x, x ∈ flat segs → T_ne x x = false) →
  ∃ n : nat, ∀ fuel : nat, (n ≤ fuel)%nat →
  ∃ s',
    copy_ctor NodeMaxSize fuel other (mkState None None 0 (mem other) fs) = Ret true s' ∧
    op_eq NodeMaxSize T_ne fuel s'
      (mkState (head_ other) (tail_ other) (size_ other) (mem s') (faults other))
      = Some (Some true).
Proof.
  intros Hwf Hnt Hrefl.
  destruct (copy_ctor_run NodeMaxSize other segs fs Hwf Hnt) as (n & Hcopy).
  exists (n `max` S (length (flat segs)))%nat. intros fuel Hfuel.
  destruct (Hcopy fuel ltac:(lia)) as (s' & segs' & Hrun & Hwf' & Hflat' & _ & Hsz' & _ & _ & _ & Hwfo).
  exists s'. split; [done|].
  unfold op_eq. unfold size in Hsz'. cbn [size_]. rewrite decide_False by lia.
  destruct (eq_loop_enumerates NodeMaxSize T_ne (mem s') (mem s') (cbegin s')
              (cbegin (mkState (head_ other) (tail_ other) (size_ other) (mem s') (faults other)))
              (flat segs) (flat segs) fuel 0 (cbegin s')
              (cbegin (mkState (head_ other) (tail_ other) (size_ other) (mem s') (faults other))))
    as (b & Hb & Hiff); try done.
  - rewrite <- Hflat'. by apply wf_enumerates.
  - by apply (wf_enumerates _ _ _ Hwfo).
  - lia.
  - lia.
  - cbn [mem]. rewrite Hb. do 2 f_equal. apply Hiff.
    intros i a c _ Ha Hc. rewrite Ha in Hc. injection Hc as <-.
    apply Hrefl. by eapply list_elem_of_lookup_2.
Qed.

End CopyCompare.

(** ** erase of a range that ends inside a node *)

Section EraseRange.

Context {T : Type}.
Variable NodeMaxSize : Z.

Implicit Types (h : gmap ptr (@Node T)) (nd : @Node T) (xs ys : list T).
Implicit Types (s : @state T) (st : list (option T)).
Implicit Types (segs : list (ptr * list T)) (ps : list ptr).

Lemma run_ret_inv {A} (a b : A) s s' : (mret a : M A) s = Ret b s' → a = b.
Proof. by intros [= -> ->]. Qed.

Ltac step_in H :=
  first
    [ apply run_ret_inv in H
    | rewrite run_bind_cases in H;
      match type of H with
      | match ?m with _ => _ end = _ =>
          let o := fresh "o" in
          destruct m as [? ?| ?|] eqn:o; [clear o|discriminate H|discriminate H]
      end
    | match type of H with
      | (if decide ?P then _ else _) _ = _ => destruct (decide P)
      | (match ?o with Some _ => _ | None => _ end) _ = _ => destruct o
      end ].

(** Every cursor [erase] returns has the index of its argument or index 0. *)
Lemma erase_ret_index cpos s it s' :
  erase NodeMaxSize cpos s = Ret it s' →
  index_ it = index_ cpos ∨ index_ it = 0.
Proof.
  unfold erase. destruct (node_ cpos) as [nd|].
  - intros H. repeat step_in H; subst it; cbn; auto.
  - intros H%run_ret_inv. subst it. by right.
Qed.


Lemma erase_range_at_end (fuel : nat) last s :
  index_ last ≠ 0 →
  erase_range NodeMaxSize fuel cend last s = Ret None s.
Proof.
  intros Hj. induction fuel as [|fuel IH]; [done|].
  cbn [erase_range]. unfold iter_eq. cbn [cend node_ index_].
  rewrite (bool_decide_eq_false_2 (0 = index_ last)) by congruence.
  rewrite andb_false_r. exact IH.
Qed.

(** [erase(first, last)] reaches [last] only by a cursor that [erase]
    returns, and those have the index of [first] or index 0.  So when [last]
    points into the middle of a node, at an index other than the one of
    [first] (any non-empty range inside one node is such a case), the loop
    erases every element from [first] on and then never ends: whatever the
    number of rounds, it is still running. *)
Theorem erase_range_never_ends (fuel : nat) s segs (k : nat) first last :
  wf NodeMaxSize s segs → (k ≤ length (flat segs))%nat →
  advance (mem s) (cbegin s) k = Some first →
  index_ last ≠ 0 → index_ last ≠ index_ first →
  ∃ s', erase_range NodeMaxSize fuel first last s = Ret None s'.
Proof.
  revert s segs first. induction fuel as [|fuel IH]; intros s segs first Hwf Hk Hadv Hj0 Hji.
  { by exists s. }
  cbn [erase_range]. unfold iter_eq.
  rewrite (bool_decide_eq_false_2 (index_ first = index_ last)) by congruence.
  rewrite andb_false_r.
  destruct (decide (k = length (flat segs))) as [->|Hne].
  - destruct (wf_enumerates _ _ _ Hwf _ Hk) as (it & Hadv0 & _ & Hend).
    rewrite Hadv in Hadv0. injection Hadv0 as <-. rewrite (Hend eq_refl).
    exists s. eapply run_bind; [reflexivity|]. by apply erase_range_at_end.
  - destruct (erase_run NodeMaxSize s segs k Hwf ltac:(lia))
      as (pos & it' & s1 & Hadv1 & _ & Hrun & _ & Hadv' & Hmore & Hone).
    rewrite Hadv in Hadv1. injection Hadv1 as <-.
    pose proof (erase_ret_index _ _ _ _ Hrun) as Hidx.
    destruct (decide (length (flat segs) = 1%nat)) as [H1|Hn1].
    + assert (k = 0%nat) as -> by lia.
      cbn [advance] in Hadv'. injection Hadv' as <-.
      rewrite cbegin_head, (Hone H1) in Hrun.
      exists s1. eapply run_bind; [exact Hrun|]. by apply erase_range_at_end.
    + destruct Hmore as (segs1 & Hwf1 & Hflat1 & _); [lia|].
      destruct (IH s1 segs1 it' Hwf1) as [s' Hrun']; try done.
      { rewrite Hflat1, length_delete by (apply lookup_lt_is_Some_2; lia). lia. }
      { destruct Hidx as [-> | ->]; congruence. }
      exists s'. eapply run_bind; [exact Hrun|exact Hrun'].
Qed.

End EraseRange.

(** ** Exceptions in the loops of push_back *)

Section ThrowingPush.

Context {T : Type}.
Variable NodeMaxSize : Z.

Implicit Types (h : gmap ptr (@Node T)) (nd : @Node T) (xs ys : list T).
Implicit Types (s : @state T) (st : list (option T)).
Implicit Types (segs : list (ptr * list T)) (ps : list ptr).

(** The tail node of a well-formed chain. *)
Lemma wf_tail_node s segs t xs :
  wf NodeMaxSize s (segs ++ [(t, xs)]) →
  tail_ s = Some t ∧ ∃ nd, mem s !! t = Some nd ∧ holds NodeMaxSize nd xs.
Proof.
  intros (_ & Hd & _).
  apply dseg_app in Hd as (ml & m & _ & Hd2).
  cbn [dseg] in Hd2. destruct Hd2 as (-> & nd & Ht & _ & Hh & _ & Htl).
  split; [done|]. by exists nd.
Qed.

Lemma wf_with_faults s segs fs :
  wf NodeMaxSize s segs → wf NodeMaxSize (with_faults fs s) segs.
Proof. intros Hwf. exact Hwf. Qed.

(** A packed chain whose length is a multiple of the node capacity ends
    in a full node. *)
Lemma packed_full_tail s segs (m : nat) :
  wf NodeMaxSize s segs → packed NodeMaxSize segs → segs ≠ [] →
  Z.of_nat (length (flat segs)) = Z.of_nat m * NodeMaxSize →
  ∃ segs0 t xs, segs = segs0 ++ [(t, xs)] ∧ Z.of_nat (length xs) = NodeMaxSize.
Proof.
  intros Hwf Hpk Hne Hlen.
  destruct segs as [|[t xs] segs0 _] using rev_ind; [done|].
  exists segs0, t, xs. split; [done|].
  destruct (wf_tail_node _ _ _ _ Hwf) as (_ & nd & _ & (_ & _ & Hn & _)).
  destruct Hwf as (HC & _).
  rewrite (packed_length _ _ _ _ Hpk) in Hlen.
  assert (0 < Z.of_nat (length xs) ≤ NodeMaxSize) as Hl by lia.
  assert (Z.of_nat m - Z.of_nat (length segs0) = 1) as Hone by nia.
  nia.
Qed.

Lemma push_back_full_throw_run s segs t xs v fs :
  wf NodeMaxSize s (segs ++ [(t, xs)]) → Z.of_nat (length xs) = NodeMaxSize →
  faults s = true :: fs →
  push_back NodeMaxSize v s = Throw (with_faults fs s).
Proof.
  intros Hwf Hfull Hf.
  destruct (wf_tail_node _ _ _ _ Hwf) as (Ht & nd & Hnd & (Hc & _)).
  eapply push_back_full_throw; [done..|]. lia.
Qed.

(** [push_back] on a well-formed container whose tail node is full, when
    the construction of the value throws: the exception propagates and the
    container is as before the call, the chain with its nodes and
    elements, the members and the heap; only the schedule has moved on. *)
Theorem push_back_throw_keeps_chain s segs t xs v fs :
  wf NodeMaxSize s (segs ++ [(t, xs)]) → Z.of_nat (length xs) = NodeMaxSize →
  faults s = true :: fs →
  ∃ s',
    push_back NodeMaxSize v s = Throw s' ∧
    wf NodeMaxSize s' (segs ++ [(t, xs)]) ∧
    head_ s' = head_ s ∧ tail_ s' = tail_ s ∧ size s' = size s ∧
    mem s' = mem s ∧
    faults s' = fs.
Proof.
  intros Hwf Hfull Hf. exists (with_faults fs s).
  split; [by eapply push_back_full_throw_run|]. done.
Qed.

(** The loop of [push_back] in the fill and initializer-list constructors
    has no handler.  When the construction of the element at position [j]
    throws and [j > 0] is a multiple of the node capacity, the tail node is
    full at that moment: the exception leaves the loop with the first [j]
    elements in place, in a well-formed chain whose nodes are all still
    allocated; [clear()], which the destructor runs, then releases every one
    of them. *)
Theorem ctor_throw_keeps_nodes il (j m : nat) fs' :
  0 < NodeMaxSize < size_modulus → (0 < j < length il)%nat →
  Z.of_nat j = Z.of_nat m * NodeMaxSize →
  Z.of_nat (length il) < size_modulus →
  ∃ s' segs',
    from_list NodeMaxSize il (new_list (replicate j false ++ true :: fs')) = Throw s' ∧
    wf NodeMaxSize s' segs' ∧
    flat segs' = take j il ∧
    size s' = Z.of_nat j ∧
    faults s' = fs' ∧
    Z.of_nat (length segs') = Z.of_nat m ∧
    dom (mem s') = list_to_set (segs'.*1) ∧
    ∀ fuel : nat, (length segs' ≤ fuel)%nat →
      clear NodeMaxSize fuel s' = Ret true (new_list fs').
Proof.
  intros HC Hj Hm Hlen.
  destruct (lookup_lt_is_Some_2 il j) as [x Hx]; [lia|].
  pose proof (take_drop_middle il j x Hx) as Hil.
  set (fs := replicate j false ++ true :: fs').
  assert (length (take j il) = j) as Hlj by (rewrite length_take; lia).
  destruct (push_back_many NodeMaxSize (new_list fs) [] (take j il) (new_list_wf NodeMaxSize fs HC))
    as (s1 & segs1 & Hrun1 & Hwf1 & Hflat1 & Hf1 & Hpk1 & Hdom1).
  { rewrite Hlj. cbn [new_list faults]. unfold fs.
    rewrite take_app_length' by (by rewrite length_replicate).
    apply Forall_replicate. done. }
  { rewrite Hlj. cbn. lia. }
  specialize (Hdom1 ltac:(cbn; by rewrite dom_empty_L)).
  specialize (Hpk1 (packed_nil NodeMaxSize)).
  cbn [flat fmap list_fmap concat app] in Hflat1.
  assert (faults s1 = true :: fs') as Hf1'.
  { rewrite Hf1, Hlj. cbn [new_list faults]. unfold fs.
    by rewrite drop_app_length' by (by rewrite length_replicate). }
  assert (segs1 ≠ []) as Hne.
  { intros ->. cbn in Hflat1. apply (f_equal length) in Hflat1. rewrite Hlj in Hflat1.
    cbn in Hflat1. lia. }
  destruct (packed_full_tail s1 segs1 m Hwf1 Hpk1 Hne) as (segs0 & t & xs & -> & Hfull).
  { by rewrite Hflat1, Hlj. }
  pose proof (push_back_full_throw_run s1 segs0 t xs x fs' Hwf1 Hfull Hf1') as Hthrow.
  exists (with_faults fs' s1), (segs0 ++ [(t, xs)]). split_and!; try done.
  - rewrite <- Hil.
    assert (∀ xs ys (s0 s0' : @state T),
              from_list NodeMaxSize xs s0 = Ret tt s0' →
              from_list NodeMaxSize (xs ++ ys) s0 = from_list NodeMaxSize ys s0') as Happ.
    { induction xs0 as [|a xs0 IH]; intros ys s0 s0'; cbn [from_list app].
      - by intros [= ->].
      - rewrite !run_bind_cases. destruct (push_back NodeMaxSize a s0); try done. apply IH. }
    rewrite (Happ _ _ _ _ Hrun1). cbn [from_list].
    apply run_bind_throw. exact Hthrow.
  - destruct Hwf1 as (_ & _ & _ & Hs1 & _). unfold size, with_faults. cbn [size_].
    rewrite Hs1, Hflat1, Hlj. done.
  - pose proof (packed_length _ _ _ _ Hpk1) as Hpl.
    rewrite Hflat1, Hlj in Hpl. rewrite length_app. cbn [length]. nia.
  - intros fuel Hfuel.
    pose proof (wf_with_faults s1 _ fs' Hwf1) as Hwf'.
    pose proof Hwf' as (_ & _ & Hnd' & _).
    rewrite (clear_run NodeMaxSize fuel ((segs0 ++ [(t, xs)]).*1) (with_faults fs' s1)
               (fseg_chain _ _ _ _ (wf_fseg _ _ _ Hwf')) Hnd')
      by (by rewrite length_fmap).
    unfold new_list, with_faults. cbn [head_ tail_ size_ mem faults]. do 2 f_equal.
    apply dom_empty_iff_L. rewrite dom_release, Hdom1. set_solver.
Qed.

(** The loop of the copy constructor up to position [m]. *)
Lemma copy_loop_prefix (ho to : option ptr) segs (n fuel k : nat) s segs_t it :
  dseg NodeMaxSize (mem s) None ho segs to None →
  wf NodeMaxSize s segs_t →
  (∀ p, p ∈ segs_t.*1 → p ∉ segs.*1) →
  flat segs_t = take k (flat segs) → (k + n ≤ length (flat segs))%nat →
  advance (mem s) (mkIter ho 0) k = Some it →
  no_throw (take n (faults s)) →
  Z.of_nat (length (flat segs)) < size_modulus →
  (n ≤ fuel)%nat →
  ∃ s' segs' it',
    copy_loop NodeMaxSize fuel it s = copy_loop NodeMaxSize (fuel - n) it' s' ∧
    wf NodeMaxSize s' segs' ∧
    flat segs' = take (k + n) (flat segs) ∧
    (∀ p, p ∈ segs'.*1 → p ∉ segs.*1) ∧
    dseg NodeMaxSize (mem s') None ho segs to None ∧
    advance (mem s') (mkIter ho 0) (k + n) = Some it' ∧
    faults s' = drop n (faults s) ∧
    (∀ p, p ∈ segs_t.*1 → p ∈ segs'.*1) ∧
    dom (mem s') = dom (mem s) ∪ list_to_set (segs'.*1) ∧
    (packed NodeMaxSize segs_t → packed NodeMaxSize segs').
Proof.
  revert fuel k s segs_t it.
  induction n as [|n IH]; intros fuel k s segs_t it Hdo Hwf Hdisj Hflat Hk Hadv Hnt Hlen Hfuel.
  - exists s, segs_t, it. rewrite Nat.sub_0_r, Nat.add_0_r, drop_0. split_and!; try done.
    destruct Hwf as (_ & Hdt & _). pose proof (dseg_in_dom _ _ _ _ _ _ _ Hdt). set_solver.
  - destruct fuel as [|fuel]; [lia|].
    pose proof Hwf as (HC & _ & _ & Hsz & _).
    pose proof (fseg_enumerates NodeMaxSize (proj2 HC) _ _ _ (dseg_fseg _ _ _ _ _ _ _ Hdo)) as Hen.
    destruct (Hen k ltac:(lia)) as (it0 & Hadv0 & Hlt & _).
    rewrite Hadv in Hadv0. injection Hadv0 as <-.
    destruct Hlt as [Hnend Hderef]; [lia|].
    destruct (lookup_lt_is_Some_2 (flat segs) k) as [x Hx]; [lia|].
    rewrite Hx in Hderef.
    assert (Z.of_nat (length (flat segs_t)) = Z.of_nat k) as Hlenk.
    { rewrite Hflat, length_take. lia. }
    destruct (push_back_run NodeMaxSize s segs_t x Hwf
                (no_throw_take_le 1 _ _ Hnt ltac:(lia)) ltac:(lia))
      as (s1 & segs1 & Hpb & Hwf1 & Hflat1 & _ & _ & Hf1 & Hdom1 & Hframe & Hfresh & Hshape).
    pose proof (push_back_keeps_nodes _ _ _ _ Hshape) as Hkeep1.
    pose proof (push_back_packed NodeMaxSize s segs_t segs1 x Hwf Hshape) as Hpk1.
    assert (dseg NodeMaxSize (mem s1) None ho segs to None) as Hdo1.
    { eapply dseg_frame; [|exact Hdo]. intros p Hp. apply Hframe.
      - intros Hin. by apply (Hdisj p).
      - by eapply dseg_in_heap. }
    pose proof (fseg_enumerates NodeMaxSize (proj2 HC) _ _ _ (dseg_fseg _ _ _ _ _ _ _ Hdo1))
      as Hen1.
    destruct (Hen1 (S k)) as (it2 & Hadv2 & _); [lia|].
    assert (iter_inc (mem s1) it = Some it2) as Hinc.
    { pose proof Hadv2 as Hadv2'. rewrite advance_succ in Hadv2'.
      rewrite <- (advance_same_chain NodeMaxSize (mem s) (mem s1) ho segs k) in Hadv2';
        [|apply HC|by eapply dseg_fseg|by eapply dseg_fseg|lia].
      by rewrite Hadv in Hadv2'. }
    destruct (IH fuel (S k) s1 segs1 it2)
      as (s' & segs' & it' & Hrun & Hwf' & Hflat' & Hdisj' & Hdo' & Hadv' & Hf' & Hkeep' & Hdom'
          & Hpk');
      try done.
    { intros p Hp Hin. destruct (Hfresh p Hp) as [Hold|Hnone].
      - by apply (Hdisj p).
      - destruct (dseg_in_heap _ _ _ _ _ _ _ _ Hdo Hin) as [? ?]. congruence. }
    { rewrite Hflat1, Hflat. by rewrite (take_S_r _ _ _ Hx). }
    { lia. }
    { rewrite Hf1. by apply (no_throw_take_drop 1). }
    { lia. }
    exists s', segs', it'.
    replace (k + S n)%nat with (S k + n)%nat by lia.
    split_and!; try done.
    + cbn [copy_loop Nat.sub]. rewrite Hnend.
      eapply run_bind; [unfold read_iter; by rewrite Hderef|].
      eapply run_bind; [exact Hpb|].
      eapply run_bind; [unfold step_iter; by rewrite Hinc|]. exact Hrun.
    + rewrite Hf', Hf1, drop_drop. done.
    + intros p Hp. by apply Hkeep', Hkeep1.
    + rewrite Hdom', Hdom1. apply set_eq. intros p.
      rewrite !elem_of_union, !elem_of_list_to_set. specialize (Hkeep' p). tauto.
    + intros Hpk. by apply Hpk', Hpk1.
Qed.

(** The copy constructor has no handler and does not delegate, so no
    destructor runs when it exits by an exception.  When the construction
    of the element at position [j] throws and [j > 0] is a multiple of the
    node capacity, the tail node of the copy is full at that moment: the
    exception leaves the constructor with the first [j] elements copied,
    in nodes that stay allocated beside the untouched chain of [other]. *)
Theorem copy_ctor_throw_keeps_nodes other segs (j m : nat) fs' (fuel : nat) :
  wf NodeMaxSize other segs → (0 < j < length (flat segs))%nat →
  Z.of_nat j = Z.of_nat m * NodeMaxSize → (j < fuel)%nat →
  ∃ s' segs',
    copy_ctor NodeMaxSize fuel other
      (mkState None None 0 (mem other) (replicate j false ++ true :: fs')) = Throw s' ∧
    wf NodeMaxSize s' segs' ∧
    flat segs' = take j (flat segs) ∧
    faults s' = fs' ∧
    Z.of_nat (length segs') = Z.of_nat m ∧
    (∀ p, p ∈ segs'.*1 → p ∉ segs.*1) ∧
    dom (mem s') = dom (mem other) ∪ list_to_set (segs'.*1) ∧
    wf NodeMaxSize
      (mkState (head_ other) (tail_ other) (size_ other) (mem s') (faults other)) segs.
Proof.
  intros Hwf Hj Hm Hfuel. pose proof Hwf as (HC & Hd & Hnd & Hsz & Hszlt).
  set (fs := replicate j false ++ true :: fs').
  destruct (copy_loop_prefix (head_ other) (tail_ other) segs j fuel 0
              (mkState None None 0 (mem other) fs) [] (cbegin other))
    as (s1 & segs1 & it1 & Hrun & Hwf1 & Hflat1 & Hdisj1 & Hdo1 & Hadv1 & Hf1 & _ & Hdom1
        & Hpk1);
    try done.
  - split; [done|]. split; [done|]. split; [constructor|]. split; [done|].
    cbn. unfold size_modulus. lia.
  - intros p Hp. by apply elem_of_nil in Hp.
  - lia.
  - cbn [advance]. by rewrite cbegin_head.
  - cbn [faults]. unfold fs. rewrite take_app_length' by (by rewrite length_replicate).
    by apply Forall_replicate.
  - lia.
  - lia.
  - cbn [Nat.add mem faults] in *.
    specialize (Hpk1 (packed_nil NodeMaxSize)).
    assert (faults s1 = true :: fs') as Hf1'.
    { rewrite Hf1. unfold fs. by rewrite drop_app_length' by (by rewrite length_replicate). }
    assert (length (flat segs1) = j) as Hlj.
    { rewrite Hflat1, length_take. lia. }
    assert (segs1 ≠ []) as Hne.
    { intros ->. cbn in Hlj. lia. }
    pose proof (fseg_enumerates NodeMaxSize (proj2 HC) _ _ _ (dseg_fseg _ _ _ _ _ _ _ Hdo1)) as Hen.
    destruct (Hen j ltac:(lia)) as (it0 & Hadv0 & Hlt & _).
    rewrite Hadv1 in Hadv0. injection Hadv0 as <-.
    destruct Hlt as [Hnend Hderef]; [lia|].
    destruct (lookup_lt_is_Some_2 (flat segs) j) as [x Hx]; [lia|].
    rewrite Hx in Hderef.
    destruct (packed_full_tail s1 segs1 m Hwf1 Hpk1 Hne) as (segs0 & t & xs & -> & Hfull).
    { by rewrite Hlj. }
    pose proof (push_back_full_throw_run s1 segs0 t xs x fs' Hwf1 Hfull Hf1') as Hthrow.
    exists (with_faults fs' s1), (segs0 ++ [(t, xs)]). split_and!; try done.
    + unfold copy_ctor. rewrite Hrun.
      destruct (fuel - j)%nat as [|f] eqn:Hfj; [lia|].
      cbn [copy_loop]. rewrite Hnend.
      eapply run_bind; [unfold read_iter; by rewrite Hderef|].
      apply run_bind_throw. exact Hthrow.
    + pose proof (packed_length _ _ _ _ Hpk1) as Hpl.
      rewrite Hlj in Hpl. rewrite length_app. cbn [length]. nia.
Qed.

End ThrowingPush.

(** ** The example containers are what the constructor builds *)

Lemma cap4_one_built x : from_list 4 [x] (new_list []) = Ret tt (cap4_one x).
Proof. reflexivity. Qed.

Lemma cap4_123_built : from_list 4 [1; 2; 3] (new_list []) = Ret tt cap4_123.
Proof. vm_compute. reflexivity. Qed.

Lemma cap4_1234_built : from_list 4 [1; 2; 3; 4] (new_list []) = Ret tt cap4_1234.
Proof. vm_compute. reflexivity. Qed.

Lemma cap4_12345_built : from_list 4 [1; 2; 3; 4; 5] (new_list []) = Ret tt cap4_12345.
Proof. vm_compute. reflexivity. Qed.

Lemma cap1_one_built : from_list 1 [1] (new_list []) = Ret tt cap1_one.
Proof. vm_compute. reflexivity. Qed.

(** The concrete cases of section 8 of the specification. *)
Example erase_second_of_five :
  ∃ it (s' : @state Z), erase 4 (mkIter (Some 1%positive) 1) cap4_12345 = Ret it s' ∧
           size s' = 4 ∧
           iterate 4 10 (mem s') (cbegin s') = Some [1; 3; 4; 5].
Proof. eexists _, _. split; [vm_compute; reflexivity|]. split; reflexivity. Qed.

Example insert_into_empty :
  ∃ it (s' : @state Z), insert 4 (cbegin (@new_list Z [])) 10 (new_list []) = Ret it s' ∧
           size s' = 1 ∧ front 4 s' = Some 10 ∧ back 4 s' = Some 10 ∧
           iterate 4 10 (mem s') (cbegin s') = Some [10].
Proof. eexists _, _. split; [vm_compute; reflexivity|]. split_and!; reflexivity. Qed.

(** ** The end sentinel and the empty container *)

(** C9: [operator--] on the end sentinel returns the end sentinel; however
    often it is applied, the cursor stays the end sentinel, so it is never a
    cursor into a node, and a reverse traversal from [rbegin()] has no
    element to show. *)
Theorem dec_end_stays_end {T : Type} (NodeMaxSize : Z) (h : gmap ptr (@Node T)) (k : nat) :
  iter_dec h cend = Some cend ∧
  retreat h cend k = Some cend ∧
  (∀ p i, retreat h cend k ≠ Some (mkIter (Some p) i)) ∧
  rev_inc h rbegin = Some rbegin ∧
  rev_deref NodeMaxSize h rbegin = None.
Proof.
  assert (retreat h cend k = Some cend) as Hk.
  { induction k as [|k IH]; [done|]. cbn [retreat]. cbn. exact IH. }
  split; [done|]. split; [done|]. split; [|done].
  intros p i. rewrite Hk. done.
Qed.

(** On a container with elements, [--end()] is still not the cursor of the
    last element. *)
Example dec_end_of_five :
  iter_dec (mem cap4_12345) cend = Some cend ∧
  iter_deref 4 (mem cap4_12345) (mkIter (Some 2%positive) 0) = Some 5 ∧
  rev_deref 4 (mem cap4_12345) rbegin = None.
Proof. split_and!; vm_compute; reflexivity. Qed.

(** C10: on an empty container [pop_back] and [pop_front] return normally
    and leave every member and the heap as they were. *)
Theorem pop_on_empty {T : Type} (NodeMaxSize : Z) (s : @state T) :
  empty s = true →
  pop_back NodeMaxSize s = Ret tt s ∧ pop_front NodeMaxSize s = Ret tt s.
Proof. intros He. unfold pop_back, pop_front. by rewrite He. Qed.

Lemma pop_on_empty_witness :
  empty (@new_list Z []) = true ∧
  pop_back 4 (@new_list Z []) = Ret tt (new_list []) ∧
  pop_front 4 (@new_list Z []) = Ret tt (new_list []).
Proof. split; [reflexivity|]. apply (pop_on_empty 4 (@new_list Z [])). reflexivity. Defined.

(** ** Exceptions during insertion *)

(** C1 (the code does otherwise): [insert] has no handler.  In place: on
    [{1,2,3}] an [insert] at [begin()] whose second copy throws leaves slot
    [2] destroyed inside the live range.  Splitting: on the full node
    [{1,2,3,4}] it leaves slot [2] destroyed and a node that is linked
    nowhere.  Before the call iteration visits the elements; afterwards it
    runs into a slot without an object. *)
Theorem insert_throw_tears_node :
  insert 4 (cbegin cap4_123) 9 (with_faults [false; true] cap4_123) = Throw cap4_123_torn ∧
  iterate 4 10 (mem cap4_123) (cbegin cap4_123) = Some [1; 2; 3] ∧
  iterate 4 10 (mem cap4_123_torn) (cbegin cap4_123_torn) = None ∧
  insert 4 (mkIter (Some 1%positive) 3) 9 (with_faults [false; true] cap4_1234)
    = Throw cap4_1234_torn ∧
  iterate 4 10 (mem cap4_1234) (cbegin cap4_1234) = Some [1; 2; 3; 4] ∧
  iterate 4 10 (mem cap4_1234_torn) (cbegin cap4_1234_torn) = None.
Proof. split_and!; vm_compute; reflexivity. Qed.

(** C2 (the code does otherwise): a [push_back] on the empty container
    whose construction throws keeps the node it had just linked, and a
    [push_front] on [{7}] whose construction of the new value throws leaves
    [7] in slot [1] and slot [0] destroyed: the handler's loop stops one
    slot early. *)
Theorem push_throw_changes_container :
  push_back 4 5 (@new_list Z [true]) = Throw cap4_empty_node ∧
  push_front 4 5 (@new_list Z [true]) = Throw cap4_empty_node ∧
  push_front 4 5 (with_faults [false; true] (cap4_one 7)) = Throw cap4_one_torn ∧
  iterate 4 10 (mem (cap4_one 7)) (cbegin (cap4_one 7)) = Some [7] ∧
  iterate 4 10 (mem cap4_one_torn) (cbegin cap4_one_torn) = None.
Proof. split_and!; vm_compute; reflexivity. Qed.

(** Where [push_back] does keep its promise: a throw with a full tail node
    leaves the members and the heap as they were. *)
Example push_back_throw_full_tail :
  push_back 4 5 (with_faults [true] cap4_1234) = Throw cap4_1234.
Proof. vm_compute. reflexivity. Qed.

(** C3 (the code does otherwise): erasing the only element returns from
    the head branch before [tail_] is reset: [head_] is null, [tail_] still
    holds the address of the released node, although [size()] is [0] and
    [empty()] holds; the next [push_back] dereferences that address. *)
Theorem erase_last_leaves_tail :
  erase 4 (cbegin (cap4_one 1)) (cap4_one 1) = Ret cend cap4_erased_last ∧
  head_ cap4_erased_last = None ∧
  tail_ cap4_erased_last = Some 1%positive ∧
  mem cap4_erased_last !! 1%positive = None ∧
  size cap4_erased_last = 0 ∧
  empty cap4_erased_last = true ∧
  push_back 4 2 cap4_erased_last = Undef.
Proof. split_and!; vm_compute; reflexivity. Qed.

(** The sibling [pop_back] resets both ends. *)
Example pop_back_last_resets :
  pop_back 4 (cap4_one 1) = Ret tt (new_list []).
Proof. vm_compute. reflexivity. Qed.

(** C6 (the code does otherwise): after a [push_back] on the empty
    container whose construction throws, the node reachable from [head_]
    has [count = 0]; after an [insert] into the full node of an
    [unrolled_list<int, 1>] whose construction of the value throws, the
    head node has [count = 0] and is still linked before its successor. *)
Theorem throw_leaves_empty_node :
  (∃ s' nd, push_back 4 5 (@new_list Z [true]) = Throw s' ∧
            head_ s' = Some 1%positive ∧ mem s' !! 1%positive = Some nd ∧ count nd = 0) ∧
  (∃ s' nd, insert 1 (cbegin cap1_one) 9 (with_faults [false; true] cap1_one) = Throw s' ∧
            head_ s' = Some 1%positive ∧ mem s' !! 1%positive = Some nd ∧
            count nd = 0 ∧ next nd = Some 2%positive).
Proof.
  split.
  - exists cap4_empty_node. eexists. split_and!; vm_compute; reflexivity.
  - exists cap1_one_torn. eexists. split_and!; vm_compute; reflexivity.
Qed.

(** C7 (the code does otherwise): the loop of [insert(pos, n, value)]
    reuses [pos] after the first insertion has split its node.  On
    [{1,2,3,4}] with [pos] at the last element and [n = 2] the second copy
    is constructed in slot [3] of the first node, past its two live slots,
    and [count] then covers the destroyed slot [2]; inserting twice, the
    second time at the cursor the first insertion returned, gives
    [{1,2,3,9,9,4}].  With [n = 0] the result is the end sentinel. *)
Theorem bulk_insert_reuses_stale_cursor :
  insert_n 4 (mkIter (Some 1%positive) 3) 2 9 cap4_1234
    = Ret (mkIter (Some 1%positive) 3) cap4_1234_bulk ∧
  iterate 4 10 (mem cap4_1234_bulk) (cbegin cap4_1234_bulk) = None ∧
  (r ← insert 4 (mkIter (Some 1%positive) 3) 9; insert 4 r 9) cap4_1234
    = Ret (mkIter (Some 2%positive) 1) cap4_1234_twice ∧
  iterate 4 10 (mem cap4_1234_twice) (cbegin cap4_1234_twice) = Some [1; 2; 3; 9; 9; 4] ∧
  insert_n 4 (mkIter (Some 1%positive) 3) 0 9 cap4_1234 = Ret cend cap4_1234.
Proof. split_and!; vm_compute; reflexivity. Qed.

(** ** The general statements at concrete containers *)

Lemma cap4_123_wf : wf 4 cap4_123 [(1%positive, [1; 2; 3])].
Proof.
  split; [done|]. split.
  { cbn [dseg]. split; [done|]. eexists. split; [vm_compute; reflexivity|].
    split; [done|]. split; [apply holds_prefix; [reflexivity|reflexivity|cbn; lia|reflexivity]|]. done. }
  split; [apply NoDup_singleton|]. split; done.
Qed.

Lemma cap4_1234_wf : wf 4 cap4_1234 [(1%positive, [1; 2; 3; 4])].
Proof.
  split; [done|]. split.
  { cbn [dseg]. split; [done|]. eexists. split; [vm_compute; reflexivity|].
    split; [done|]. split; [apply holds_prefix; [reflexivity|reflexivity|cbn; lia|reflexivity]|]. done. }
  split; [apply NoDup_singleton|]. split; done.
Qed.

Lemma cap4_12345_wf :
  wf 4 cap4_12345 [(1%positive, [1; 2; 3; 4]); (2%positive, [5])].
Proof.
  split; [done|]. split.
  { cbn [dseg]. split; [done|]. eexists. split; [vm_compute; reflexivity|].
    split; [done|]. split; [apply holds_prefix; [reflexivity|reflexivity|cbn; lia|reflexivity]|].
    cbn [next]. split; [done|]. eexists. split; [vm_compute; reflexivity|].
    split; [done|]. split; [apply holds_prefix; [reflexivity|reflexivity|cbn; lia|reflexivity]|]. done. }
  split.
  { cbn. apply NoDup_cons. split; [|apply NoDup_singleton].
    intros Hin%list_elem_of_singleton. done. }
  split; done.
Qed.

Lemma erase_spec_witness :
  wf 4 cap4_12345 [(1%positive, [1; 2; 3; 4]); (2%positive, [5])] ∧
  visits 4 cap4_12345 [1; 2; 3; 4; 5] ∧
  ∃ pos it' s',
    advance (mem cap4_12345) (cbegin cap4_12345) 1 = Some pos ∧
    erase 4 pos cap4_12345 = Ret it' s' ∧
    visits 4 s' [1; 3; 4; 5] ∧
    size s' = 4 ∧
    iter_deref 4 (mem s') it' = Some 3 ∧
    ∃ segs', wf 4 s' segs' ∧ flat segs' = [1; 3; 4; 5].
Proof.
  split; [exact cap4_12345_wf|].
  split; [exact (wf_visits 4 _ _ cap4_12345_wf)|].
  destruct (erase_spec 4 cap4_12345 _ [1; 2; 3; 4; 5] 1 cap4_12345_wf
              (wf_visits 4 _ _ cap4_12345_wf) ltac:(cbn; lia))
    as (pos & it' & s' & Hpos & Hrun & Hv & Hsz & _ & Hd & _ & _ & Hwf & _).
  exists pos, it', s'. split; [exact Hpos|]. split; [exact Hrun|].
  split; [exact Hv|]. split; [exact Hsz|]. split; [exact Hd|].
  exact (Hwf ltac:(cbn; lia)).
Defined.


Lemma op_eq_spec_witness :
  wf 4 cap4_123 [(1%positive, [1; 2; 3])] ∧
  visits 4 cap4_123 [1; 2; 3] ∧
  ∃ (b : bool) (n : nat),
    (∀ fuel, (n ≤ fuel)%nat →
       op_eq 4 Z_ne fuel cap4_123 cap4_123 = Some (Some b) ∧
       op_ne 4 Z_ne fuel cap4_123 cap4_123 = Some (Some (negb b))) ∧
    (b = true ↔ size cap4_123 = size cap4_123 ∧
                length [1; 2; 3] = length [1; 2; 3] ∧
                pairwise_equal Z_ne [1; 2; 3] [1; 2; 3]).
Proof.
  split; [exact cap4_123_wf|].
  split; [exact (wf_visits 4 _ _ cap4_123_wf)|].
  exact (op_eq_spec 4 Z_ne cap4_123 cap4_123 _ _ [1; 2; 3] [1; 2; 3]
           cap4_123_wf cap4_123_wf
           (wf_visits 4 _ _ cap4_123_wf) (wf_visits 4 _ _ cap4_123_wf)).
Defined.

(** [operator==] at work on two small containers. *)
Example op_eq_examples :
  op_eq 4 Z_ne 10 cap4_123 cap4_123 = Some (Some true) ∧
  op_eq 4 Z_ne 10 cap4_123 cap4_123_torn = Some None ∧
  op_eq 4 Z_ne 10 cap4_123 cap4_1234 = Some (Some false) ∧
  op_ne 4 Z_ne 10 cap4_123 cap4_1234 = Some (Some true).
Proof. split_and!; vm_compute; reflexivity. Qed.

Lemma push_back_throw_outcome_witness :
  tail_ cap4_1234 = Some 1%positive ∧
  tail_ cap4_123 = Some 1%positive ∧
  push_back 4 5 (with_faults [true] cap4_1234) = Throw cap4_1234 ∧
  push_back 4 5 (with_faults [true] cap4_123) = (destroy 4 1 3;; rethrow) cap4_123 ∧
  read_slot 4 1 3 cap4_123 = Undef.
Proof.
  split; [reflexivity|]. split; [reflexivity|]. split; [|split; [|reflexivity]].
  - apply (push_back_throw_outcome 4 (with_faults [true] cap4_1234) 1%positive
             (mkNode None None 4 [Some 1; Some 2; Some 3; Some 4]) 5 []);
      [reflexivity|reflexivity|reflexivity|]. cbn. lia.
  - apply (push_back_throw_outcome 4 (with_faults [true] cap4_123) 1%positive
             (mkNode None None 3 [Some 1; Some 2; Some 3; None]) 5 []);
      [reflexivity|reflexivity|reflexivity|]. cbn. lia.
Defined.


(** ** The theorems at work on the example containers *)

Lemma cap4_7_beside_wf : wf 4 cap4_7_beside [(3%positive, [7])].
Proof.
  split; [done|]. split.
  { cbn [dseg]. split; [done|]. eexists. split; [vm_compute; reflexivity|].
    split; [done|]. split; [apply holds_prefix; [reflexivity|reflexivity|cbn; lia|reflexivity]|]. done. }
  split; [apply NoDup_singleton|]. split; done.
Qed.

Lemma cap4_12345_beside_wf :
  wf 4 cap4_12345_beside [(1%positive, [1; 2; 3; 4]); (2%positive, [5])].
Proof.
  split; [done|]. split.
  { cbn [dseg]. split; [done|]. eexists. split; [vm_compute; reflexivity|].
    split; [done|]. split; [apply holds_prefix; [reflexivity|reflexivity|cbn; lia|reflexivity]|].
    cbn [next]. split; [done|]. eexists. split; [vm_compute; reflexivity|].
    split; [done|]. split; [apply holds_prefix; [reflexivity|reflexivity|cbn; lia|reflexivity]|]. done. }
  split.
  { cbn. apply NoDup_cons. split; [|apply NoDup_singleton].
    intros Hin%list_elem_of_singleton. done. }
  split; done.
Qed.

Lemma push_back_spec_witness :
  wf 4 cap4_1234 [(1%positive, [1; 2; 3; 4])] ∧
  no_throw (take 1 (faults cap4_1234)) ∧
  ∃ s' segs',
    push_back 4 5 cap4_1234 = Ret tt s' ∧
    wf 4 s' segs' ∧
    flat segs' = [1; 2; 3; 4; 5] ∧
    back 4 s' = Some 5 ∧
    ∃ q, segs' = [(1%positive, [1; 2; 3; 4]); (q, [5])].
Proof.
  split; [exact cap4_1234_wf|]. split; [constructor|].
  destruct (push_back_spec 4 cap4_1234 _ 5 cap4_1234_wf ltac:(constructor) eq_refl)
    as (s' & segs' & Hrun & Hwf & Hflat & _ & Hback & _ & _ & _ & _ & Hshape).
  exists s', segs'. split; [exact Hrun|]. split; [exact Hwf|].
  split; [exact Hflat|]. split; [exact Hback|exact Hshape].
Defined.

Lemma front_back_spec_witness :
  wf 4 cap4_12345 [(1%positive, [1; 2; 3; 4]); (2%positive, [5])] ∧
  front 4 cap4_12345 = Some 1 ∧ back 4 cap4_12345 = Some 5.
Proof.
  split; [exact cap4_12345_wf|].
  exact (front_back_spec 4 cap4_12345 _ cap4_12345_wf).
Defined.

Lemma initializer_list_ctor_spec_witness :
  0 < 4 < size_modulus ∧
  no_throw (take (length [1; 2; 3; 4; 5]) []) ∧
  ∃ s' segs',
    from_list 4 [1; 2; 3; 4; 5] (new_list []) = Ret tt s' ∧
    wf 4 s' segs' ∧
    visits 4 s' [1; 2; 3; 4; 5] ∧
    size s' = 5 ∧
    Z.of_nat (length segs') = 2.
Proof.
  split; [done|]. split; [constructor|].
  destruct (initializer_list_ctor_spec 4 [1; 2; 3; 4; 5] [] ltac:(done) ltac:(constructor) eq_refl)
    as (s' & segs' & Hrun & Hwf & Hv & Hsz & _ & _ & Hn).
  exists s', segs'. split; [exact Hrun|]. split; [exact Hwf|].
  split; [exact Hv|]. split; [exact Hsz|exact Hn].
Defined.

Lemma fill_ctor_spec_witness :
  0 < 4 < size_modulus ∧
  no_throw (take (Z.to_nat 5) []) ∧
  ∃ s' segs',
    fill_ctor 4 5 7 (new_list []) = Ret tt s' ∧
    wf 4 s' segs' ∧
    visits 4 s' [7; 7; 7; 7; 7] ∧
    size s' = 5.
Proof.
  split; [done|]. split; [constructor|].
  destruct (fill_ctor_spec 4 5 7 [] ltac:(done) ltac:(constructor) ltac:(done))
    as (s' & segs' & Hrun & Hwf & Hv & Hsz & _).
  exists s', segs'. split; [exact Hrun|]. split; [exact Hwf|].
  split; [exact Hv|exact Hsz].
Defined.

Lemma insert_at_end_spec_witness :
  wf 4 cap4_123 [(1%positive, [1; 2; 3])] ∧
  no_throw (faults cap4_123) ∧
  ∃ s' segs' it,
    insert 4 cend 4 cap4_123 = Ret it s' ∧
    wf 4 s' segs' ∧
    flat segs' = [1; 2; 3; 4] ∧
    iter_deref 4 (mem s') it = Some 4 ∧
    iter_inc (mem s') it = Some cend.
Proof.
  split; [exact cap4_123_wf|]. split; [constructor|].
  destruct (insert_at_end_spec 4 cap4_123 _ 4 cap4_123_wf ltac:(constructor) eq_refl)
    as (s' & segs' & it & Hrun & _ & Hwf & Hflat & _ & Hd & Hi).
  exists s', segs', it. split; [exact Hrun|]. split; [exact Hwf|].
  split; [exact Hflat|]. split; [exact Hd|exact Hi].
Defined.

Lemma insert_n_at_end_spec_witness :
  wf 4 cap4_123 [(1%positive, [1; 2; 3])] ∧
  no_throw (faults cap4_123) ∧
  ∃ s' segs' it,
    insert_n 4 cend 2 9 cap4_123 = Ret it s' ∧
    wf 4 s' segs' ∧
    flat segs' = [1; 2; 3; 9; 9] ∧
    iter_deref 4 (mem s') it = Some 9.
Proof.
  split; [exact cap4_123_wf|]. split; [constructor|].
  destruct (insert_n_at_end_spec 4 2 cap4_123 _ 9 cap4_123_wf ltac:(constructor)
              ltac:(done) eq_refl)
    as (s' & segs' & it & Hrun & Hwf & Hflat & _ & Hpos).
  exists s', segs', it. split; [exact Hrun|]. split; [exact Hwf|].
  split; [exact Hflat|]. exact (proj1 (proj2 (Hpos eq_refl))).
Defined.


Lemma pop_back_spec_witness :
  wf 4 cap4_12345 [(1%positive, [1; 2; 3; 4]); (2%positive, [5])] ∧
  ∃ s',
    pop_back 4 cap4_12345 = Ret tt s' ∧
    wf 4 s' [(1%positive, [1; 2; 3; 4])] ∧
    visits 4 s' [1; 2; 3; 4] ∧
    dom (mem s') = dom (mem cap4_12345) ∖ {[2%positive]}.
Proof.
  split; [exact cap4_12345_wf|].
  destruct (pop_back_spec 4 cap4_12345 _ [1; 2; 3; 4] 5 cap4_12345_wf eq_refl)
    as (s' & segs' & Hrun & Hwf & _ & Hv & _ & _ & _ & Hshape).
  cbn in Hshape. destruct Hshape as (-> & Hdom).
  exists s'. split; [exact Hrun|]. split; [exact Hwf|]. split; [exact Hv|exact Hdom].
Defined.

Lemma pop_front_spec_witness :
  wf 4 cap4_12345 [(1%positive, [1; 2; 3; 4]); (2%positive, [5])] ∧
  ∃ s',
    pop_front 4 cap4_12345 = Ret tt s' ∧
    wf 4 s' [(1%positive, [2; 3; 4]); (2%positive, [5])] ∧
    visits 4 s' [2; 3; 4; 5].
Proof.
  split; [exact cap4_12345_wf|].
  destruct (pop_front_spec 4 cap4_12345 _ 1 [2; 3; 4; 5] cap4_12345_wf eq_refl)
    as (s' & segs' & Hrun & Hwf & _ & Hv & _ & _ & Hshape).
  cbn in Hshape. destruct Hshape as (-> & _).
  exists s'. split; [exact Hrun|]. split; [exact Hwf|exact Hv].
Defined.

Lemma clear_spec_witness :
  wf 4 cap4_12345 [(1%positive, [1; 2; 3; 4]); (2%positive, [5])] ∧
  ∃ s',
    clear 4 2 cap4_12345 = Ret true s' ∧
    wf 4 s' [] ∧
    dom (mem s') = dom (mem cap4_12345) ∖ list_to_set [1%positive; 2%positive].
Proof.
  split; [exact cap4_12345_wf|].
  destruct (clear_spec 4 2 cap4_12345 _ cap4_12345_wf ltac:(cbn; lia))
    as (s' & Hrun & Hwf & _ & _ & _ & _ & _ & _ & Hdom).
  exists s'. split; [exact Hrun|]. split; [exact Hwf|exact Hdom].
Defined.

Lemma clear_never_throws_witness :
  (base.size (dom (mem cap4_1234_torn)) < 3)%nat ∧
  ((∃ s', clear 4 3 cap4_1234_torn = Ret true s' ∧
          head_ s' = None ∧ tail_ s' = None ∧ size s' = 0 ∧
          faults s' = faults cap4_1234_torn ∧
          dom (mem s') ⊆ dom (mem cap4_1234_torn)) ∨
   clear 4 3 cap4_1234_torn = Undef).
Proof.
  assert (base.size (dom (mem cap4_1234_torn)) < 3)%nat as H by (vm_compute; lia).
  split; [exact H|].
  exact (clear_never_throws 4 3 cap4_1234_torn H).
Defined.

Lemma range_ctor_spec_witness :
  0 < 4 < size_modulus ∧
  no_throw (take (length [1; 2; 3; 4; 5]) []) ∧
  ∃ s' segs',
    range_ctor 4 0 [1; 2; 3; 4; 5] (new_list []) = Ret true s' ∧
    from_list 4 [1; 2; 3; 4; 5] (new_list []) = Ret tt s' ∧
    wf 4 s' segs' ∧
    visits 4 s' [1; 2; 3; 4; 5].
Proof.
  split; [done|]. split; [constructor|].
  destruct (range_ctor_spec 4 0 [1; 2; 3; 4; 5] [] ltac:(done) ltac:(constructor) eq_refl)
    as (s' & segs' & Hrun & Hfl & Hwf & Hv & _).
  exists s', segs'. split; [exact Hrun|]. split; [exact Hfl|].
  split; [exact Hwf|exact Hv].
Defined.

Lemma range_ctor_rollback_witness :
  0 < 4 < size_modulus ∧ (4 < length [1; 2; 3; 4; 5])%nat ∧
  range_ctor 4 5 [1; 2; 3; 4; 5] (new_list [false; false; false; false; true]) =
  Throw (new_list []).
Proof.
  split; [done|]. split; [cbn; lia|].
  exact (range_ctor_rollback 4 5 4 [1; 2; 3; 4; 5] [] ltac:(done) ltac:(cbn; lia)
           eq_refl ltac:(cbn; lia)).
Defined.

Lemma copy_ctor_spec_witness :
  wf 4 cap4_12345 [(1%positive, [1; 2; 3; 4]); (2%positive, [5])] ∧
  ∃ n : nat, ∀ fuel : nat, (n ≤ fuel)%nat →
  ∃ s' segs',
    copy_ctor 4 fuel cap4_12345 (mkState None None 0 (mem cap4_12345) []) = Ret true s' ∧
    wf 4 s' segs' ∧
    visits 4 s' [1; 2; 3; 4; 5] ∧
    (∀ p, p ∈ segs'.*1 → p ∉ [1%positive; 2%positive]).
Proof.
  split; [exact cap4_12345_wf|].
  destruct (copy_ctor_spec 4 cap4_12345 _ [] cap4_12345_wf ltac:(constructor)) as [n Hn].
  exists n. intros fuel Hfuel.
  destruct (Hn fuel Hfuel) as (s' & segs' & Hrun & Hwf & _ & Hv & _ & _ & Hdisj & _).
  exists s', segs'. split; [exact Hrun|]. split; [exact Hwf|].
  split; [exact Hv|exact Hdisj].
Defined.

Lemma copy_assign_spec_witness :
  wf 4 cap4_7_beside [(3%positive, [7])] ∧
  wf 4 cap4_12345_beside [(1%positive, [1; 2; 3; 4]); (2%positive, [5])] ∧
  ∃ n : nat, ∀ fuel : nat, (n ≤ fuel)%nat →
  ∃ s' segs',
    copy_assign 4 fuel cap4_12345_beside cap4_7_beside = Ret true s' ∧
    wf 4 s' segs' ∧
    visits 4 s' [1; 2; 3; 4; 5] ∧
    wf 4 (mkState (Some 1%positive) (Some 2%positive) 5 (mem s') [])
      [(1%positive, [1; 2; 3; 4]); (2%positive, [5])].
Proof.
  split; [exact cap4_7_beside_wf|]. split; [exact cap4_12345_beside_wf|].
  destruct (copy_assign_spec 4 cap4_7_beside _ cap4_12345_beside _
              cap4_7_beside_wf cap4_12345_beside_wf eq_refl) as [n Hn].
  { intros p Hp%list_elem_of_singleton Hin. subst p.
    apply elem_of_cons in Hin as [Hin|Hin]; [done|].
    apply list_elem_of_singleton in Hin. done. }
  { constructor. }
  exists n. intros fuel Hfuel.
  destruct (Hn fuel Hfuel) as (s' & segs' & Hrun & Hwf & _ & Hv & _ & _ & _ & _ & Hwfo).
  exists s', segs'. split; [exact Hrun|]. split; [exact Hwf|].
  split; [exact Hv|exact Hwfo].
Defined.

Lemma inc_dec_round_trip_witness :
  wf 4 cap4_12345 [(1%positive, [1; 2; 3; 4]); (2%positive, [5])] ∧
  advance (mem cap4_12345) (cbegin cap4_12345) 3 = Some (mkIter (Some 1%positive) 3) ∧
  ∃ it',
    iter_inc (mem cap4_12345) (mkIter (Some 1%positive) 3) = Some it' ∧
    iter_dec (mem cap4_12345) it' = Some (mkIter (Some 1%positive) 3).
Proof.
  split; [exact cap4_12345_wf|].
  assert (advance (mem cap4_12345) (cbegin cap4_12345) 3 = Some (mkIter (Some 1%positive) 3))
    as Hadv by (vm_compute; reflexivity).
  split; [exact Hadv|].
  exact (inc_dec_round_trip 4 cap4_12345 _ 3 _ cap4_12345_wf ltac:(cbn; lia) Hadv).
Defined.

Lemma erase_keeps_wf_witness :
  wf 4 cap4_12345 [(1%positive, [1; 2; 3; 4]); (2%positive, [5])] ∧
  ∃ pos it' s' segs',
    advance (mem cap4_12345) (cbegin cap4_12345) 4 = Some pos ∧
    erase 4 pos cap4_12345 = Ret it' s' ∧
    wf 4 s' segs' ∧
    flat segs' = [1; 2; 3; 4].
Proof.
  split; [exact cap4_12345_wf|].
  destruct (erase_keeps_wf 4 cap4_12345 _ 4 cap4_12345_wf ltac:(cbn; lia) ltac:(cbn; lia))
    as (pos & it' & s' & segs' & Hpos & Hrun & Hwf & Hflat & _).
  exists pos, it', s', segs'. split; [exact Hpos|]. split; [exact Hrun|].
  split; [exact Hwf|exact Hflat].
Defined.

Lemma erase_range_to_end_spec_witness :
  wf 4 cap4_12345 [(1%positive, [1; 2; 3; 4]); (2%positive, [5])] ∧
  ∃ pos (n : nat),
    advance (mem cap4_12345) (cbegin cap4_12345) 2 = Some pos ∧
    ∀ fuel : nat, (n ≤ fuel)%nat →
    ∃ s',
      erase_range 4 fuel pos cend cap4_12345 = Ret (Some cend) s' ∧
      visits 4 s' [1; 2] ∧
      size s' = 2.
Proof.
  split; [exact cap4_12345_wf|].
  destruct (erase_range_to_end_spec 4 cap4_12345 _ 2 cap4_12345_wf ltac:(cbn; lia))
    as (pos & n & Hpos & Hn).
  exists pos, n. split; [exact Hpos|]. intros fuel Hfuel.
  destruct (Hn fuel Hfuel) as (s' & Hrun & Hv & Hsz & _).
  exists s'. split; [exact Hrun|]. split; [exact Hv|exact Hsz].
Defined.

Lemma push_front_full_throw_restores_witness :
  head_ cap4_1234 = Some 1%positive ∧
  push_front 4 0 (with_faults [true] cap4_1234) = Throw cap4_1234.
Proof.
  split; [reflexivity|].
  apply (push_front_full_throw_restores 4 (with_faults [true] cap4_1234) 1%positive
           (mkNode None None 4 [Some 1; Some 2; Some 3; Some 4]) 0 []);
    [reflexivity|reflexivity|reflexivity|cbn; lia].
Defined.

Lemma push_pop_back_round_trip_witness :
  wf 4 cap4_1234 [(1%positive, [1; 2; 3; 4])] ∧
  ∃ s1 s2,
    push_back 4 5 cap4_1234 = Ret tt s1 ∧
    pop_back 4 s1 = Ret tt s2 ∧
    wf 4 s2 [(1%positive, [1; 2; 3; 4])] ∧
    dom (mem s2) = dom (mem cap4_1234).
Proof.
  split; [exact cap4_1234_wf|].
  destruct (push_pop_back_round_trip 4 cap4_1234 _ 5 cap4_1234_wf ltac:(constructor) eq_refl)
    as (s1 & s2 & Hpush & Hpop & Hwf & _ & Hdom).
  exists s1, s2. split; [exact Hpush|]. split; [exact Hpop|].
  split; [exact Hwf|exact Hdom].
Defined.

Lemma push_pop_front_round_trip_witness :
  wf 4 cap4_123 [(1%positive, [1; 2; 3])] ∧
  ∃ s1 s2,
    push_front 4 0 cap4_123 = Ret tt s1 ∧
    pop_front 4 s1 = Ret tt s2 ∧
    wf 4 s2 [(1%positive, [1; 2; 3])] ∧
    dom (mem s2) = dom (mem cap4_123).
Proof.
  split; [exact cap4_123_wf|].
  destruct (push_pop_front_round_trip 4 cap4_123 _ 0 cap4_123_wf ltac:(constructor) eq_refl)
    as (s1 & s2 & Hpush & Hpop & Hwf & _ & Hdom).
  exists s1, s2. split; [exact Hpush|]. split; [exact Hpop|].
  split; [exact Hwf|exact Hdom].
Defined.

Lemma copy_compares_equal_witness :
  wf 4 cap4_12345 [(1%positive, [1; 2; 3; 4]); (2%positive, [5])] ∧
  ∃ n : nat, ∀ fuel : nat, (n ≤ fuel)%nat →
  ∃ s',
    copy_ctor 4 fuel cap4_12345 (mkState None None 0 (mem cap4_12345) []) = Ret true s' ∧
    op_eq 4 Z_ne fuel s' (mkState (Some 1%positive) (Some 2%positive) 5 (mem s') [])
      = Some (Some true).
Proof.
  split; [exact cap4_12345_wf|].
  apply (copy_compares_equal 4 Z_ne cap4_12345 _ [] cap4_12345_wf ltac:(constructor)).
  intros x _. unfold Z_ne. by rewrite Z.eqb_refl.
Defined.

Lemma erase_range_never_ends_witness :
  wf 4 cap4_123 [(1%positive, [1; 2; 3])] ∧
  advance (mem cap4_123) (cbegin cap4_123) 0 = Some (mkIter (Some 1%positive) 0) ∧
  ∃ s', erase_range 4 1000 (mkIter (Some 1%positive) 0) (mkIter (Some 1%positive) 1) cap4_123
        = Ret None s'.
Proof.
  split; [exact cap4_123_wf|]. split; [reflexivity|].
  exact (erase_range_never_ends 4 1000 cap4_123 _ 0 (mkIter (Some 1%positive) 0)
           (mkIter (Some 1%positive) 1) cap4_123_wf ltac:(cbn; lia) eq_refl
           ltac:(done) ltac:(done)).
Defined.

Example erase_range_probe :
  erase_range 4 6 (mkIter (Some 1%positive) 0) (mkIter (Some 1%positive) 1) cap4_123
  = Ret None cap4_erased_last.
Proof. vm_compute. reflexivity. Qed.

Lemma push_back_throw_keeps_chain_witness :
  wf 4 cap4_1234 [(1%positive, [1; 2; 3; 4])] ∧
  ∃ s',
    push_back 4 6 (with_faults [true] cap4_1234) = Throw s' ∧
    wf 4 s' [(1%positive, [1; 2; 3; 4])] ∧
    mem s' = mem cap4_1234.
Proof.
  split; [exact cap4_1234_wf|].
  destruct (push_back_throw_keeps_chain 4 (with_faults [true] cap4_1234) [] 1%positive
              [1; 2; 3; 4] 6 [] cap4_1234_wf eq_refl eq_refl)
    as (s' & Hrun & Hwf & _ & _ & _ & Hmem & _).
  exists s'. split; [exact Hrun|]. split; [exact Hwf|exact Hmem].
Defined.

Lemma ctor_throw_keeps_nodes_witness :
  0 < 4 < size_modulus ∧ (0 < 4 < length [1; 2; 3; 4; 5])%nat ∧
  ∃ s' segs',
    from_list 4 [1; 2; 3; 4; 5] (new_list [false; false; false; false; true]) = Throw s' ∧
    wf 4 s' segs' ∧
    flat segs' = [1; 2; 3; 4] ∧
    length segs' = 1%nat ∧
    dom (mem s') = list_to_set (segs'.*1) ∧
    ∀ fuel : nat, (length segs' ≤ fuel)%nat → clear 4 fuel s' = Ret true (new_list []).
Proof.
  split; [done|]. split; [cbn; lia|].
  destruct (ctor_throw_keeps_nodes 4 [1; 2; 3; 4; 5] 4 1 [] ltac:(done) ltac:(cbn; lia)
              eq_refl eq_refl)
    as (s' & segs' & Hrun & Hwf & Hflat & _ & _ & Hlen & Hdom & Hclear).
  exists s', segs'. split; [exact Hrun|]. split; [exact Hwf|]. split; [exact Hflat|].
  split; [lia|]. split; [exact Hdom|exact Hclear].
Defined.

Lemma copy_ctor_throw_keeps_nodes_witness :
  wf 4 cap4_12345 [(1%positive, [1; 2; 3; 4]); (2%positive, [5])] ∧
  ∃ s' segs',
    copy_ctor 4 10 cap4_12345
      (mkState None None 0 (mem cap4_12345) [false; false; false; false; true]) = Throw s' ∧
    wf 4 s' segs' ∧
    flat segs' = [1; 2; 3; 4] ∧
    length segs' = 1%nat ∧
    (∀ p, p ∈ segs'.*1 → p ∉ [1%positive; 2%positive]) ∧
    dom (mem s') = dom (mem cap4_12345) ∪ list_to_set (segs'.*1).
Proof.
  split; [exact cap4_12345_wf|].
  destruct (copy_ctor_throw_keeps_nodes 4 cap4_12345 _ 4 1 [] 10 cap4_12345_wf
              ltac:(cbn; lia) eq_refl ltac:(lia))
    as (s' & segs' & Hrun & Hwf & Hflat & _ & Hlen & Hdisj & Hdom & _).
  exists s', segs'. split; [exact Hrun|]. split; [exact Hwf|]. split; [exact Hflat|].
  split; [lia|]. split; [exact Hdisj|exact Hdom].
Defined.
